(** * Block validator of the Sawtooth validator: model and properties

    Shallow embedding of
    [validator/sawtooth_validator/journal/block_validator.py]:
    the helper generator [look_ahead], the batch validator
    [_validate_batches_in_block], the single block validator
    [validate_block], and the pipeline coordinator
    ([submit_blocks_for_verification], [_release_pending],
    [process_block_verification]).

    Python objects that are mutated in place (the block wrappers) live in
    a heap indexed by object identity; the collaborators the validator
    only calls (transaction executor and scheduler, chain commit state,
    permission verifier, consensus modules, settings views, block store)
    are an abstract world [W] with one transition function per call. *)

From stdpp Require Import base gmap strings list fin_maps.
From Stdlib Require Import Lia.

Set Warnings "-clear-no-such-hyp".


(** ** Data model *)

(** Modelled from the spec: [BlockStatus] is declared in [block_wrapper.py],
    which is not part of the sources at hand; the specification gives the
    closed variant Unknown, Valid, Invalid. *)
Module BlockStatus.
Inductive t := Unknown | Invalid | Valid.
#[global] Instance eq_dec : EqDecision t.
Proof. solve_decision. Defined.
End BlockStatus.

Record Transaction := {
  txn_header_signature : string;
  dependencies : list string
}.

Record Batch := {
  batch_header_signature : string;
  transactions : list Transaction
}.

(** What [scheduler.get_batch_execution_result] returns when it is not
    [None]. *)
Record BatchExecutionResult := {
  is_valid : bool;
  state_hash : option string
}.

(** One element of [scheduler.get_transaction_execution_results]. *)
Record TxnExecutionResult := {
  txn_signature : string;
  txn_is_valid : bool
}.

(** A block wrapper: the identity of the Python object ([obj]) and the
    fields the validator only reads.  Modelled from the spec:
    [BlockWrapper] is declared in [block_wrapper.py]; its [identifier]
    is the content hash of the block, which is also its
    [header_signature]. *)
Record BlockWrapper := {
  obj : nat;
  header_signature : string;
  previous_block_id : string;
  block_num : nat;
  signer_public_key : string;
  batches : list Batch;
  state_root_hash : string
}.

Definition identifier (b : BlockWrapper) : string := header_signature b.
Arguments identifier : simpl never.

(** The fields of a block wrapper that the validator writes. *)
Record BlockFields := {
  status : BlockStatus.t;
  execution_results : list TxnExecutionResult;
  num_transactions : nat
}.

(** [BlockWrapper(block)] starts with status Unknown, no execution results
    and a transaction count of zero. *)
Definition new_fields : BlockFields :=
  {| status := BlockStatus.Unknown; execution_results := []; num_transactions := 0 |}.

#[global] Instance Transaction_eq_dec : EqDecision Transaction.
Proof. solve_decision. Defined.
#[global] Instance Batch_eq_dec : EqDecision Batch.
Proof. solve_decision. Defined.
#[global] Instance BatchExecutionResult_eq_dec : EqDecision BatchExecutionResult.
Proof. solve_decision. Defined.
#[global] Instance TxnExecutionResult_eq_dec : EqDecision TxnExecutionResult.
Proof. solve_decision. Defined.
#[global] Instance BlockWrapper_eq_dec : EqDecision BlockWrapper.
Proof. solve_decision. Defined.

(** ** Exceptions *)

(** The exceptions of [chain_commit_state.py] that the batch validator
    turns into a validation failure. *)
Inductive ChainCommitError := DuplicateBatch | DuplicateTransaction | MissingDependency.

(** The message of a [BlockValidationFailure], by the place that raises it. *)
Inductive FailureReason :=
| AlreadyInvalid
| InvalidPredecessor
| FailedPermissionValidation
| FailedConsensusValidation
| FailedOnChainRules
| FailedValidation (err : ChainCommitError)
| InvalidBatch (sig : string)
| FailedStateRootHash (expected : string) (got : option string).

(** The message of a [BlockValidationError]. *)
Inductive ErrorReason := BeforePredecessor | MissingPredecessor.

Inductive exn :=
| ChainCommit (err : ChainCommitError)
| BlockValidationFailure (r : FailureReason)
| BlockValidationError (r : ErrorReason)
| KeyError
| StopIteration
| AttributeError
| OtherException (tag : nat).

#[global] Instance ChainCommitError_eq_dec : EqDecision ChainCommitError.
Proof. solve_decision. Defined.
#[global] Instance FailureReason_eq_dec : EqDecision FailureReason.
Proof. solve_decision. Defined.
#[global] Instance ErrorReason_eq_dec : EqDecision ErrorReason.
Proof. solve_decision. Defined.
#[global] Instance exn_eq_dec : EqDecision exn.
Proof. solve_decision. Defined.

(** The result of one call into a collaborator. *)
Inductive Result (A : Type) := Ok (a : A) | Exc (e : exn).
Arguments Ok {A} a.
Arguments Exc {A} e.

(** ** Observable effects *)

Inductive LogLevel := LogDebug | LogInfo | LogWarning | LogError | LogException.

(** The effects the specification talks about, in the order they happen:
    calls on the chain commit state and on the scheduler, writes of a
    block status, gauge updates, log records and user callbacks. *)
Inductive Event :=
| EvChainCommitState (previous : string)
| EvCreateScheduler (scheduler : nat) (prev_state_root : string)
| EvExecute (scheduler : nat)
| EvAddBatch (scheduler : nat) (batch : string) (hint : option string)
| EvCancel (scheduler : nat)
| EvFinalize (scheduler : nat)
| EvComplete (scheduler : nat)
| EvSetStatus (o : nat) (v : BlockStatus.t)
| EvGauges (pending processing : nat)
| EvLog (level : LogLevel)
| EvCallback (block : BlockWrapper).

#[global] Instance LogLevel_eq_dec : EqDecision LogLevel.
Proof. solve_decision. Defined.
#[global] Instance Event_eq_dec : EqDecision Event.
Proof. solve_decision. Defined.

(** ** [look_ahead] *)

(** A run of a generator over a finite input: the values it yields, in
    order, and how it ends ([None]: the body returns; [Some e]: [e]
    escapes the body). *)
Definition Generated (A : Type) : Type := (list A * option exn)%type.

(** The [for val in it] loop and the final [yield last, False]. *)
Fixpoint look_ahead_loop {A : Type} (last : A) (it : list A) : list (A * bool) :=
  match it with
  | [] => [(last, false)]
  | val :: it' => (last, true) :: look_ahead_loop val it'
  end.

(** [last = next(it)] raises [StopIteration] on an exhausted iterator. *)
Definition look_ahead {A : Type} (iterable : list A) : Generated (A * bool) :=
  match iterable with
  | [] => ([], Some StopIteration)
  | last :: it => (look_ahead_loop last it, None)
  end.

(** [list.pop()]: the last element and the list without it. *)
Definition list_pop {A : Type} (l : list A) : option (list A * A) :=
  match reverse l with
  | [] => None
  | x :: r => Some (reverse r, x)
  end.

(** ** Validator state and the monad of the model *)

Section Model.
Context {W : Type}.

(** The collaborators of the validator.  A call that can change the
    collaborator or fail is a transition of the world returning a
    [Result]; the two getters of a completed scheduler only read it.
    The two constants come from [block_wrapper.py] and [merkle.py].
    [user_callback] is the [callback] argument of
    [submit_blocks_for_verification], which hands it on to every job:
    code of the caller, which may fail like any other call; the model
    takes it to be the same function in every submission. *)
Record Env := {
  NULL_BLOCK_IDENTIFIER : string;
  INIT_ROOT_KEY : string;
  ChainCommitState : string → W → Result unit * W;
  check_for_duplicate_batches : list Batch → W → Result unit * W;
  check_for_duplicate_transactions : list Transaction → W → Result unit * W;
  check_for_transaction_dependencies : list Transaction → W → Result unit * W;
  create_scheduler : string → W → Result nat * W;
  execute : nat → W → Result unit * W;
  add_batch : nat → Batch → option string → W → Result unit * W;
  cancel : nat → W → Result unit * W;
  finalize : nat → W → Result unit * W;
  complete : nat → W → Result unit * W;
  get_batch_execution_result : nat → string → W → option BatchExecutionResult;
  get_transaction_execution_results : nat → string → W → list TxnExecutionResult;
  is_batch_signer_authorized : Batch → string → W → Result bool * W;
  create_settings_view : string → W → Result nat * W;
  enforce_validation_rules : nat → string → list Batch → W → Result bool * W;
  state_view_for_block : BlockWrapper → W → Result nat * W;
  get_configured_consensus_module : string → nat → W → Result nat * W;
  get_consensus_module : string → W → Result nat * W;
  get_public_key : W → Result string * W;
  BlockVerifier : nat → string → W → Result nat * W;
  verify_block : nat → BlockWrapper → W → Result bool * W;
  chain_head : W → option BlockWrapper * W;
  user_callback : BlockWrapper → W → Result unit * W
}.

(** The validator ([self]) together with what it shares with its
    environment: the collaborators' world, the heap of block wrappers, the
    block cache, the three trackers, the jobs handed to the worker pool
    and the effects observed so far. *)
Record State := {
  world : W;
  heap : gmap nat BlockFields;
  block_cache : gmap string BlockWrapper;
  blocks_processing : gset string;
  blocks_pending : gset string;
  blocks_pending_descendants : gmap string (list BlockWrapper);
  thread_pool : list BlockWrapper;
  trace : list Event
}.

Definition set_world (w : W) (s : State) : State :=
  {| world := w; heap := heap s; block_cache := block_cache s;
     blocks_processing := blocks_processing s; blocks_pending := blocks_pending s;
     blocks_pending_descendants := blocks_pending_descendants s;
     thread_pool := thread_pool s; trace := trace s |}.

Definition set_heap (h : gmap nat BlockFields) (s : State) : State :=
  {| world := world s; heap := h; block_cache := block_cache s;
     blocks_processing := blocks_processing s; blocks_pending := blocks_pending s;
     blocks_pending_descendants := blocks_pending_descendants s;
     thread_pool := thread_pool s; trace := trace s |}.

Definition set_block_cache (c : gmap string BlockWrapper) (s : State) : State :=
  {| world := world s; heap := heap s; block_cache := c;
     blocks_processing := blocks_processing s; blocks_pending := blocks_pending s;
     blocks_pending_descendants := blocks_pending_descendants s;
     thread_pool := thread_pool s; trace := trace s |}.

Definition set_blocks_processing (p : gset string) (s : State) : State :=
  {| world := world s; heap := heap s; block_cache := block_cache s;
     blocks_processing := p; blocks_pending := blocks_pending s;
     blocks_pending_descendants := blocks_pending_descendants s;
     thread_pool := thread_pool s; trace := trace s |}.

Definition set_blocks_pending (p : gset string) (s : State) : State :=
  {| world := world s; heap := heap s; block_cache := block_cache s;
     blocks_processing := blocks_processing s; blocks_pending := p;
     blocks_pending_descendants := blocks_pending_descendants s;
     thread_pool := thread_pool s; trace := trace s |}.

Definition set_blocks_pending_descendants
    (m : gmap string (list BlockWrapper)) (s : State) : State :=
  {| world := world s; heap := heap s; block_cache := block_cache s;
     blocks_processing := blocks_processing s; blocks_pending := blocks_pending s;
     blocks_pending_descendants := m;
     thread_pool := thread_pool s; trace := trace s |}.

Definition set_thread_pool (q : list BlockWrapper) (s : State) : State :=
  {| world := world s; heap := heap s; block_cache := block_cache s;
     blocks_processing := blocks_processing s; blocks_pending := blocks_pending s;
     blocks_pending_descendants := blocks_pending_descendants s;
     thread_pool := q; trace := trace s |}.

Definition set_trace (t : list Event) (s : State) : State :=
  {| world := world s; heap := heap s; block_cache := block_cache s;
     blocks_processing := blocks_processing s; blocks_pending := blocks_pending s;
     blocks_pending_descendants := blocks_pending_descendants s;
     thread_pool := thread_pool s; trace := t |}.

(** How a piece of Python ends: it returns a value, an exception
    escapes it, or the model ran out of fuel (the loop has not finished
    within the allowed number of iterations).  The state reached is kept
    in the first two cases: Python does not roll back on an exception. *)
Inductive Outcome (A : Type) :=
| Return (a : A) (s : State)
| Raised (e : exn) (s : State)
| OutOfFuel.
Arguments Return {A} a s.
Arguments Raised {A} e s.
Arguments OutOfFuel {A}.

Definition M (A : Type) : Type := State → Outcome A.

Definition ret {A : Type} (a : A) : M A := λ s, Return a s.

Definition bind {A B : Type} (m : M A) (k : A → M B) : M B := λ s,
  match m s with
  | Return a s' => k a s'
  | Raised e s' => Raised e s'
  | OutOfFuel => OutOfFuel
  end.

#[global] Instance M_ret : MRet M := @ret.
#[global] Instance M_bind : MBind M := λ A B k m, bind m k.

Definition raise {A : Type} (e : exn) : M A := λ s, Raised e s.

Definition out_of_fuel {A : Type} : M A := λ _, OutOfFuel.

(** [try: m except Exception as e: handler e]. *)
Definition try_except {A : Type} (m : M A) (handler : exn → M A) : M A := λ s,
  match m s with
  | Raised e s' => handler e s'
  | o => o
  end.

Definition gets {A : Type} (f : State → A) : M A := λ s, Return (f s) s.

Definition modify (f : State → State) : M unit := λ s, Return tt (f s).

(** A call into a collaborator. *)
Definition call {A : Type} (op : W → Result A * W) : M A := λ s,
  match op (world s) with
  | (Ok a, w) => Return a (set_world w s)
  | (Exc e, w) => Raised e (set_world w s)
  end.

Definition emit (ev : Event) : M unit :=
  modify (λ s, set_trace (trace s ++ [ev]) s).

Definition log (level : LogLevel) : M unit := emit (EvLog level).

(** [for x in l: body x]. *)
Fixpoint for_each {A : Type} (l : list A) (body : A → M unit) : M unit :=
  match l with
  | [] => mret tt
  | x :: l' => body x;; for_each l' body
  end.

(** [for x in g: body x] over a generator: the body runs on each value
    yielded; an exception that ends the generator escapes the loop. *)
Definition for_generated {A : Type} (g : Generated A) (body : A → M unit) : M unit :=
  for_each g.1 body;;
  match g.2 with
  | None => mret tt
  | Some e => raise e
  end.

(** *** Block wrappers in the heap *)

Definition fields (s : State) (b : BlockWrapper) : BlockFields :=
  default new_fields (heap s !! obj b).

Definition get_status (b : BlockWrapper) : M BlockStatus.t :=
  gets (λ s, status (fields s b)).

Definition write_status (v : BlockStatus.t) (f : BlockFields) : BlockFields :=
  {| status := v; execution_results := execution_results f;
     num_transactions := num_transactions f |}.

(** [blkw.status = v]. *)
Definition set_status (b : BlockWrapper) (v : BlockStatus.t) : M unit :=
  modify (λ s, set_heap (<[obj b := write_status v (fields s b)]> (heap s)) s);;
  emit (EvSetStatus (obj b) v).

(** [blkw.execution_results.extend(txn_results)]. *)
Definition extend_execution_results (b : BlockWrapper)
    (txn_results : list TxnExecutionResult) : M unit :=
  modify (λ s, set_heap (<[obj b :=
    {| status := status (fields s b);
       execution_results := execution_results (fields s b) ++ txn_results;
       num_transactions := num_transactions (fields s b) |}]> (heap s)) s).

(** [blkw.num_transactions += n]. *)
Definition add_num_transactions (b : BlockWrapper) (n : nat) : M unit :=
  modify (λ s, set_heap (<[obj b :=
    {| status := status (fields s b);
       execution_results := execution_results (fields s b);
       num_transactions := num_transactions (fields s b) + n |}]> (heap s)) s).

(** *** Block cache and trackers *)

(** [self._block_cache[block_id]]. *)
Definition cache_get (block_id : string) : M BlockWrapper := λ s,
  match block_cache s !! block_id with
  | Some b => Return b s
  | None => Raised KeyError s
  end.

(** [del self._block_cache[block_id]]. *)
Definition cache_del (block_id : string) : M unit := λ s,
  match block_cache s !! block_id with
  | Some _ => Return tt (set_block_cache (delete block_id (block_cache s)) s)
  | None => Raised KeyError s
  end.

Definition in_process (block_id : string) : M bool :=
  gets (λ s, bool_decide (block_id ∈ blocks_processing s)).

Definition in_pending (block_id : string) : M bool :=
  gets (λ s, bool_decide (block_id ∈ blocks_pending s)).

(** Modelled from the spec: [ConcurrentSet] of [concurrent/atomic.py] is a
    set behind a lock; [add] inserts, [remove] raises [KeyError] on an
    element that is absent, as Python's [set.remove] does. *)
Definition processing_add (block_id : string) : M unit :=
  modify (λ s, set_blocks_processing ({[block_id]} ∪ blocks_processing s) s).

Definition processing_remove (block_id : string) : M unit := λ s,
  if bool_decide (block_id ∈ blocks_processing s)
  then Return tt (set_blocks_processing (blocks_processing s ∖ {[block_id]}) s)
  else Raised KeyError s.

Definition pending_add (block_id : string) : M unit :=
  modify (λ s, set_blocks_pending ({[block_id]} ∪ blocks_pending s) s).

Definition pending_remove (block_id : string) : M unit := λ s,
  if bool_decide (block_id ∈ blocks_pending s)
  then Return tt (set_blocks_pending (blocks_pending s ∖ {[block_id]}) s)
  else Raised KeyError s.

(** Modelled from the spec: [ConcurrentMultiMap.append_if_unique] of
    [concurrent/atomic.py] appends the item iff its identifier is not
    already present in the list for this key. *)
Definition append_if_unique (key : string) (item : BlockWrapper) : M unit :=
  modify (λ s,
    let m := blocks_pending_descendants s in
    match m !! key with
    | Some l =>
        if bool_decide (identifier item ∈ identifier <$> l) then s
        else set_blocks_pending_descendants (<[key := l ++ [item]]> m) s
    | None => set_blocks_pending_descendants (<[key := [item]]> m) s
    end).

(** [self._blocks_pending_descendants.pop(key, [])]. *)
Definition descendants_pop (key : string) : M (list BlockWrapper) := λ s,
  Return (default [] (blocks_pending_descendants s !! key))
         (set_blocks_pending_descendants (delete key (blocks_pending_descendants s)) s).

(** ** The batch validator *)

Context (E : Env).

(** [if scheduler is not None: scheduler.cancel()]. *)
Definition cancel_scheduler (scheduler : option nat) : M unit :=
  match scheduler with
  | Some s => emit (EvCancel s);; call (cancel E s)
  | None => mret tt
  end.

(** The two [except] clauses of [_validate_batches_in_block], with the
    value of the local [scheduler] when the exception arrives. *)
Definition on_exception {A : Type} (scheduler : option nat) (e : exn) : M A :=
  match e with
  | ChainCommit err =>
      cancel_scheduler scheduler;;
      raise (BlockValidationFailure (FailedValidation err))
  | _ =>
      cancel_scheduler scheduler;;
      raise e
  end.

Definition scheduler_add_batch (s : nat) (batch : Batch) (hint : option string) : M unit :=
  emit (EvAddBatch s (batch_header_signature batch) hint);;
  call (add_batch E s batch hint).

(** The [try] statement of [_validate_batches_in_block] (lines 182-223).
    Its body is cut where [scheduler] is assigned, so that each part is
    guarded by the handlers with the value [scheduler] has there: [None]
    up to and including [create_scheduler], the scheduler afterwards. *)
Definition schedule_batches (blkw : BlockWrapper) (prev_state_root : string) : M nat :=
  scheduler ← try_except
    (emit (EvChainCommitState (previous_block_id blkw));;
     call (ChainCommitState E (previous_block_id blkw));;
     s ← call (create_scheduler E prev_state_root);
     emit (EvCreateScheduler s prev_state_root);;
     mret s)
    (on_exception None);
  try_except
    (emit (EvExecute scheduler);;
     call (execute E scheduler);;
     call (check_for_duplicate_batches E (batches blkw));;
     let transactions_ := concat (transactions <$> batches blkw) in
     call (check_for_duplicate_transactions E transactions_);;
     call (check_for_transaction_dependencies E transactions_);;
     for_generated (look_ahead (batches blkw)) (λ '(batch, has_more),
       if (has_more : bool)
       then scheduler_add_batch scheduler batch None
       else scheduler_add_batch scheduler batch (Some (state_root_hash blkw))))
    (on_exception (Some scheduler));;
  mret scheduler.

(** The [for batch in blkw.batches] loop of lines 229-242; [state_hash] is
    the local of that name. *)
Fixpoint collect_results (scheduler : nat) (blkw : BlockWrapper)
    (bs : list Batch) (state_hash_ : option string) : M (option string) :=
  match bs with
  | [] => mret state_hash_
  | batch :: bs' =>
      batch_result ← gets (λ s,
        get_batch_execution_result E scheduler (batch_header_signature batch) (world s));
      match batch_result with
      | Some r =>
          if is_valid r then
            txn_results ← gets (λ s,
              get_transaction_execution_results E scheduler
                (batch_header_signature batch) (world s));
            extend_execution_results blkw txn_results;;
            add_num_transactions blkw (length (transactions batch));;
            collect_results scheduler blkw bs' (state_hash r)
          else raise (BlockValidationFailure (InvalidBatch (batch_header_signature batch)))
      | None => raise (BlockValidationFailure (InvalidBatch (batch_header_signature batch)))
      end
  end.

(** Lines 225-226. *)
Definition finalize_and_complete (scheduler : nat) : M unit :=
  emit (EvFinalize scheduler);;
  call (finalize E scheduler);;
  emit (EvComplete scheduler);;
  call (complete E scheduler).

(** Lines 227-248. *)
Definition check_results (scheduler : nat) (blkw : BlockWrapper) : M unit :=
  state_hash_ ← collect_results scheduler blkw (batches blkw) None;
  if decide (Some (state_root_hash blkw) ≠ state_hash_)
  then raise (BlockValidationFailure
                (FailedStateRootHash (state_root_hash blkw) state_hash_))
  else mret tt.

Definition _validate_batches_in_block (blkw : BlockWrapper) (prev_state_root : string) : M unit :=
  match batches blkw with
  | [] => mret tt
  | _ :: _ =>
      scheduler ← schedule_batches blkw prev_state_root;
      finalize_and_complete scheduler;;
      check_results scheduler blkw
  end.

(** ** The single block validator *)

Definition _get_previous_block_state_root (blkw : BlockWrapper) : M string :=
  if decide (previous_block_id blkw = NULL_BLOCK_IDENTIFIER E)
  then mret (INIT_ROOT_KEY E)
  else prev ← cache_get (previous_block_id blkw); mret (state_root_hash prev).

(** The [for batch in blkw.batches] loop of [_validate_permissions]. *)
Fixpoint batch_signers_authorized (bs : list Batch) (prev_state_root : string) : M bool :=
  match bs with
  | [] => mret true
  | batch :: bs' =>
      ok ← call (is_batch_signer_authorized E batch prev_state_root);
      if (ok : bool) then batch_signers_authorized bs' prev_state_root else mret false
  end.

Definition _validate_permissions (blkw : BlockWrapper) (prev_state_root : string) : M bool :=
  if decide (block_num blkw ≠ 0)
  then batch_signers_authorized (batches blkw) prev_state_root
  else mret true.

Definition _validate_on_chain_rules (blkw : BlockWrapper) (prev_state_root : string) : M bool :=
  if decide (block_num blkw ≠ 0)
  then
    view ← call (create_settings_view E prev_state_root);
    call (enforce_validation_rules E view (signer_public_key blkw) (batches blkw))
  else mret true.

Definition _load_consensus (block : option BlockWrapper) : M nat :=
  match block with
  | Some b =>
      view ← call (state_view_for_block E b);
      call (get_configured_consensus_module E (header_signature b) view)
  | None => call (get_consensus_module E "genesis")
  end.

(** The body of the outer [try] of [validate_block] (lines 287-334). *)
Definition validate_block_body (blkw : BlockWrapper) : M unit :=
  prev_block ← try_except
    (b ← cache_get (previous_block_id blkw); mret (Some b))
    (λ e, match e with KeyError => mret None | _ => raise e end);
  match prev_block with
  | Some pb =>
      v ← get_status pb;
      match v with
      | BlockStatus.Invalid => raise (BlockValidationFailure InvalidPredecessor)
      | BlockStatus.Unknown => raise (BlockValidationError BeforePredecessor)
      | BlockStatus.Valid => mret tt
      end
  | None => mret tt
  end;;
  prev_state_root ← try_except
    (_get_previous_block_state_root blkw)
    (λ e, match e with
          | KeyError => raise (BlockValidationError MissingPredecessor)
          | _ => raise e
          end);
  permitted ← _validate_permissions blkw prev_state_root;
  (if (permitted : bool) then mret tt
   else raise (BlockValidationFailure FailedPermissionValidation));;
  consensus ← _load_consensus prev_block;
  public_key ← call (get_public_key E);
  consensus_block_verifier ← call (BlockVerifier E consensus public_key);
  verified ← call (verify_block E consensus_block_verifier blkw);
  (if (verified : bool) then mret tt
   else raise (BlockValidationFailure FailedConsensusValidation));;
  conforms ← _validate_on_chain_rules blkw prev_state_root;
  (if (conforms : bool) then mret tt
   else raise (BlockValidationFailure FailedOnChainRules));;
  _validate_batches_in_block blkw prev_state_root;;
  set_status blkw BlockStatus.Valid.

Definition validate_block (blkw : BlockWrapper) : M unit :=
  v ← get_status blkw;
  match v with
  | BlockStatus.Valid => mret tt
  | BlockStatus.Invalid => raise (BlockValidationFailure AlreadyInvalid)
  | BlockStatus.Unknown =>
      try_except (validate_block_body blkw)
        (λ e, match e with
              | BlockValidationFailure _ =>
                  set_status blkw BlockStatus.Invalid;; raise e
              | BlockValidationError _ =>
                  set_status blkw BlockStatus.Unknown;; raise e
              | _ => log LogException;; raise e
              end)
  end.

(** ** The pipeline coordinator *)

Definition _add_block_to_pending (block : BlockWrapper) : M unit :=
  pending_add (identifier block);;
  let previous := previous_block_id block in
  append_if_unique previous block.

Definition _update_gauges : M unit :=
  s ← gets id;
  emit (EvGauges (size (blocks_pending s)) (size (blocks_processing s))).

(** [self._thread_pool.submit(self.process_block_verification, block,
    callback)]: the job is queued for the worker. *)
Definition thread_pool_submit (block : BlockWrapper) : M unit :=
  modify (λ s, set_thread_pool (thread_pool s ++ [block]) s).

(** One iteration of the loop of [submit_blocks_for_verification]; a
    branch that ends in [continue] returns early. *)
Definition submit_block (block : BlockWrapper) : M unit :=
  processing ← in_process (header_signature block);
  if (processing : bool) then log LogDebug
  else
    prev_processing ← in_process (previous_block_id block);
    if (prev_processing : bool) then
      log LogDebug;; _add_block_to_pending block
    else
      prev_pending ← in_pending (previous_block_id block);
      if (prev_pending : bool) then
        log LogDebug;; _add_block_to_pending block
      else
        cached ← gets (λ s, block_cache s !! previous_block_id block);
        match cached with
        | None => log LogError;; _add_block_to_pending block
        | Some prev_block =>
            v ← get_status prev_block;
            (if decide (v = BlockStatus.Unknown)
             then log LogWarning;; _add_block_to_pending block
             else mret tt);;
            log LogDebug;;
            processing_add (identifier block);;
            _update_gauges;;
            thread_pool_submit block
        end.

Definition submit_blocks_for_verification (blocks : list BlockWrapper) : M unit :=
  for_each blocks submit_block.

(** The number of blocks parked in the multimap: a bound on the number of
    iterations of the two [while] loops of [_release_pending], each of
    which takes one block off the work list and moves the children of
    that block from the multimap to the work list. *)
Definition parked (m : gmap string (list BlockWrapper)) : list BlockWrapper :=
  concat (map_to_list m).*2.

(** The [while blocks_now_invalid] loop (lines 442-454). *)
Fixpoint invalidate_pending (fuel : nat) (blocks_now_invalid : list BlockWrapper) : M unit :=
  match list_pop blocks_now_invalid with
  | None => mret tt
  | Some (rest, invalid_block) =>
      match fuel with
      | 0 => out_of_fuel
      | S fuel' =>
          set_status invalid_block BlockStatus.Invalid;;
          pending_remove (identifier invalid_block);;
          log LogDebug;;
          children ← descendants_pop (identifier invalid_block);
          invalidate_pending fuel' (rest ++ children)
      end
  end.

(** The [while blocks_to_remove] loop (lines 463-475). *)
Fixpoint remove_pending (fuel : nat) (blocks_to_remove : list BlockWrapper) : M unit :=
  match list_pop blocks_to_remove with
  | None => mret tt
  | Some (rest, block) =>
      match fuel with
      | 0 => out_of_fuel
      | S fuel' =>
          pending_remove (identifier block);;
          log LogDebug;;
          cache_del (identifier block);;
          children ← descendants_pop (identifier block);
          remove_pending fuel' (rest ++ children)
      end
  end.

Definition _release_pending (block : BlockWrapper) : M (list BlockWrapper) :=
  log LogDebug;;
  try_except (processing_remove (identifier block))
    (λ e, match e with KeyError => log LogWarning | _ => raise e end);;
  v ← get_status block;
  match v with
  | BlockStatus.Valid =>
      blocks_now_ready ← descendants_pop (identifier block);
      for_each blocks_now_ready (λ blk, pending_remove (identifier blk));;
      mret blocks_now_ready
  | BlockStatus.Invalid =>
      blocks_now_invalid ← descendants_pop (identifier block);
      s ← gets id;
      invalidate_pending
        (length blocks_now_invalid + length (parked (blocks_pending_descendants s)))
        blocks_now_invalid;;
      mret []
  | BlockStatus.Unknown =>
      blocks_to_remove ← descendants_pop (identifier block);
      s ← gets id;
      remove_pending
        (length blocks_to_remove + length (parked (blocks_pending_descendants s)))
        blocks_to_remove;;
      mret []
  end.

(** [self._block_cache.block_store.chain_head]. *)
Definition read_chain_head : M (option BlockWrapper) := λ s,
  let (h, w) := chain_head E (world s) in Return h (set_world w s).

(** [try: self.validate_block(block) except ...]: every exception is
    logged and dropped (lines 498-510). *)
Definition validate_and_log (block : BlockWrapper) : M unit :=
  try_except (validate_block block;; log LogInfo)
    (λ e, match e with
          | BlockValidationFailure _ => log LogWarning
          | BlockValidationError _ => log LogError
          | _ => log LogException
          end).

(** The [while True] loop of [process_block_verification]; [fuel] bounds
    the number of iterations.  Comparing the identifiers when the second
    read of the chain head is [None] is an [AttributeError]. *)
Fixpoint validation_loop (fuel : nat) (block : BlockWrapper) : M unit :=
  match fuel with
  | 0 => out_of_fuel
  | S fuel' =>
      head ← read_chain_head;
      validate_and_log block;;
      match head with
      | None => mret tt
      | Some h =>
          current_chain_head ← read_chain_head;
          match current_chain_head with
          | None => raise AttributeError
          | Some c =>
              if decide (identifier h = identifier c) then mret tt
              else
                log LogWarning;;
                set_status block BlockStatus.Unknown;;
                validation_loop fuel' block
          end
      end
  end.

(** [callback(block)]: the invocation is recorded, then the function of
    the caller runs; what it raises leaves the call. *)
Definition callback (block : BlockWrapper) : M unit :=
  emit (EvCallback block);;
  call (user_callback E block).

Definition process_block_verification (fuel : nat) (block : BlockWrapper) : M unit :=
  validation_loop fuel block;;
  try_except
    (blocks_now_ready ← _release_pending block;
     submit_blocks_for_verification blocks_now_ready)
    (λ _, log LogException);;
  callback block.

(** The worker pool, with its default size of one: the worker takes the
    oldest job and runs it to its end. *)
Definition run_next_job (fuel : nat) : M unit :=
  q ← gets thread_pool;
  match q with
  | [] => mret tt
  | block :: q' =>
      modify (set_thread_pool q');;
      process_block_verification fuel block
  end.

End Model.

Arguments Env W : clear implicits.
Arguments State W : clear implicits.

Arguments Return {W A} a s.
Arguments Raised {W A} e s.
Arguments OutOfFuel {W A}.

(** ** Specification-level notions *)

(** The events a run has added to the trace. *)
Definition new_events {W : Type} (s s' : State W) : list Event :=
  drop (length (trace s)) (trace s').


(** The values written to the status of the object [o], in order. *)
Definition status_writes (o : nat) (tr : list Event) : list BlockStatus.t :=
  omap (λ ev, match ev with
              | EvSetStatus o' v => if decide (o' = o) then Some v else None
              | _ => None
              end) tr.

(** The parked blocks reachable from the block [root] through the
    multimap [m]: its children, their children, and so on. *)
Inductive parked_descendant (m : gmap string (list BlockWrapper)) (root : string)
  : BlockWrapper → Prop :=
| parked_child (b : BlockWrapper) (l : list BlockWrapper) :
    m !! root = Some l → b ∈ l → parked_descendant m root b
| parked_grandchild (p b : BlockWrapper) (l : list BlockWrapper) :
    parked_descendant m root p → m !! identifier p = Some l → b ∈ l →
    parked_descendant m root b.

(** The order in which the two [while] loops of [_release_pending] take
    the parked blocks off the work list [work], given the multimap [m]:
    the last block of the work list first, its children appended. *)
Fixpoint cascade (fuel : nat) (work : list BlockWrapper)
    (m : gmap string (list BlockWrapper)) : list BlockWrapper :=
  match list_pop work with
  | None => []
  | Some (rest, b) =>
      match fuel with
      | 0 => []
      | S fuel' =>
          b :: cascade fuel' (rest ++ default [] (m !! identifier b))
                 (delete (identifier b) m)
      end
  end.

(** The coordinator parks [b] on one of the paths that end in [continue]:
    its predecessor is in [processing], in [pending], or missing from the
    block cache. *)
Definition parkable {W : Type} (s : State W) (b : BlockWrapper) : Prop :=
  previous_block_id b ∈ blocks_processing s
  ∨ previous_block_id b ∈ blocks_pending s
  ∨ block_cache s !! previous_block_id b = None.

(** [processing ∩ pending = ∅]. *)
Definition exclusive {W : Type} (s : State W) : Prop :=
  blocks_processing s ## blocks_pending s.

(** *** Outcomes of a run *)

Section Notions.
Context {W : Type}.

(** [post m s Q R]: run from [s], [m] returns in a state satisfying [Q] or
    raises in a state satisfying [R]. *)
Definition post {A : Type} (m : M A) (s : State W)
    (Q : A → State W → Prop) (R : exn → State W → Prop) : Prop :=
  match m s with
  | Return a s' => Q a s'
  | Raised e s' => R e s'
  | OutOfFuel => True
  end.

(** [steps T m]: whichever way [m] ends, the state it ends in is related
    to the state it started from by [T]. *)
Definition steps {A : Type} (T : relation (State W)) (m : M A) : Prop :=
  ∀ s, post m s (λ _, T s) (λ _, T s).

(** [total m]: [m] never runs out of fuel. *)
Definition total {A : Type} (m : M A) : Prop := ∀ s : State W, m s ≠ OutOfFuel.

(** *** Relations between the state before and the state after *)

(** The run only added events, all of which satisfy [P]. *)
Definition emits (P : Event → Prop) (s s' : State W) : Prop :=
  ∃ tr, trace s' = trace s ++ tr ∧ Forall P tr.

(** The run took nothing into [processing] nor into [pending]. *)
Definition shrinks (s s' : State W) : Prop :=
  blocks_processing s' ⊆ blocks_processing s
  ∧ blocks_pending s' ⊆ blocks_pending s.

(** The run changed the status of no block wrapper. *)
Definition same_status (s s' : State W) : Prop :=
  ∀ b, status (fields s' b) = status (fields s b).

(** The run changed no field of any block wrapper. *)
Definition same_heap (s s' : State W) : Prop := heap s' = heap s.

(** Kinds of events. *)
Definition is_cancel (ev : Event) : Prop :=
  match ev with EvCancel _ => True | _ => False end.

Definition is_finalize (ev : Event) : Prop :=
  match ev with EvFinalize _ => True | _ => False end.

Definition is_callback (ev : Event) : Prop :=
  match ev with EvCallback _ => True | _ => False end.

Definition is_set_status (ev : Event) : Prop :=
  match ev with EvSetStatus _ _ => True | _ => False end.

(** The events of the part of batch validation that feeds the scheduler. *)
Definition is_feeding (ev : Event) : Prop :=
  match ev with EvExecute _ | EvAddBatch _ _ _ => True | _ => False end.

(** What the scheduler [sch] says about a batch in the world [w]. *)
Definition batch_valid (E : Env W) (sch : nat) (w : W) (batch : Batch) : Prop :=
  ∃ r, get_batch_execution_result E sch (batch_header_signature batch) w = Some r
       ∧ is_valid r = true.

Definition batch_invalid (E : Env W) (sch : nat) (w : W) (batch : Batch) : Prop :=
  match get_batch_execution_result E sch (batch_header_signature batch) w with
  | Some r => is_valid r = false
  | None => True
  end.

(** The transaction results of the batches [bs], the number of their
    transactions, and the state hash of the last of them that has a
    result ([h] when there is none). *)
Definition accumulated_results (E : Env W) (sch : nat) (w : W) (bs : list Batch)
    : list TxnExecutionResult :=
  concat ((λ batch, get_transaction_execution_results E sch
                      (batch_header_signature batch) w) <$> bs).

Definition accumulated_transactions (bs : list Batch) : nat :=
  sum_list ((λ batch, length (transactions batch)) <$> bs).

Definition final_state_hash (E : Env W) (sch : nat) (w : W) (bs : list Batch)
    (h : option string) : option string :=
  foldl (λ h batch,
    from_option state_hash h
      (get_batch_execution_result E sch (batch_header_signature batch) w)) h bs.

(** The run left the block cache, the trackers and the queue of the
    worker pool as they were. *)
Definition same_trackers (s s' : State W) : Prop :=
  block_cache s' = block_cache s
  ∧ blocks_processing s' = blocks_processing s
  ∧ blocks_pending s' = blocks_pending s
  ∧ blocks_pending_descendants s' = blocks_pending_descendants s
  ∧ thread_pool s' = thread_pool s.

(** The run left the collaborators, the block wrappers and the block
    cache as they were, and took nothing out of [processing] or
    [pending]. *)
Definition only_tracks (s s' : State W) : Prop :=
  world s' = world s
  ∧ heap s' = heap s
  ∧ block_cache s' = block_cache s
  ∧ blocks_processing s ⊆ blocks_processing s'
  ∧ blocks_pending s ⊆ blocks_pending s'.

(** The jobs waiting in the worker pool are for distinct blocks, all of
    them in [processing]. *)
Definition queued_ok (s : State W) : Prop :=
  NoDup (identifier <$> thread_pool s)
  ∧ ∀ b, b ∈ thread_pool s → identifier b ∈ blocks_processing s.

(** Each list of the multimap holds blocks with distinct identifiers,
    whose predecessor is the key of the list, and which are in
    [pending]. *)
Definition parked_wf (s : State W) : Prop :=
  ∀ k l, blocks_pending_descendants s !! k = Some l →
    NoDup (identifier <$> l)
    ∧ ∀ b, b ∈ l → previous_block_id b = k ∧ identifier b ∈ blocks_pending s.

(** [BlockValidator.__init__]: the collaborators ([w]) and the block
    cache are stored, the worker pool has no job, the three trackers
    start empty and the two gauges are set to zero (one event for the
    pair, as for [_update_gauges]). *)
Definition BlockValidator_init (w : W) (h : gmap nat BlockFields)
    (cache : gmap string BlockWrapper) : State W :=
  {| world := w; heap := h; block_cache := cache;
     blocks_processing := ∅; blocks_pending := ∅;
     blocks_pending_descendants := ∅;
     thread_pool := []; trace := [EvGauges 0 0] |}.

(** The run changed no field of any block wrapper but the object [o]. *)
Definition writes_only (o : nat) (s s' : State W) : Prop :=
  ∀ o', o' ≠ o → heap s' !! o' = heap s !! o'.

(** The run left the queue of the worker pool as it was and took nothing
    out of [processing] but, possibly, the block [b]. *)
Definition keeps_queue (b : BlockWrapper) (s s' : State W) : Prop :=
  thread_pool s' = thread_pool s
  ∧ blocks_processing s ∖ {[identifier b]} ⊆ blocks_processing s'.

End Notions.

(** ** A concrete validator *)

(** Collaborators over a world without state.  The check for duplicate
    batches answers [dup]; every other call succeeds; the batch "bad" has
    no execution result and every other batch is valid and ends in the
    state root "root"; the consensus verifier rejects exactly the block
    "B1"; the chain head does not move; the user callback returns. *)
Definition ex_ok {A : Type} (a : A) : unit → Result A * unit := λ w, (Ok a, w).

Definition ex_env_of (dup : Result unit) : Env unit := {|
  NULL_BLOCK_IDENTIFIER := "0000000000000000";
  INIT_ROOT_KEY := "init";
  ChainCommitState := λ _, ex_ok tt;
  check_for_duplicate_batches := λ _ w, (dup, w);
  check_for_duplicate_transactions := λ _, ex_ok tt;
  check_for_transaction_dependencies := λ _, ex_ok tt;
  create_scheduler := λ _, ex_ok 7;
  execute := λ _, ex_ok tt;
  add_batch := λ _ _ _, ex_ok tt;
  cancel := λ _, ex_ok tt;
  finalize := λ _, ex_ok tt;
  complete := λ _, ex_ok tt;
  get_batch_execution_result := λ _ sig _,
    if decide (sig = "bad") then None
    else Some {| is_valid := true; state_hash := Some "root" |};
  get_transaction_execution_results := λ _ sig _,
    [{| txn_signature := sig; txn_is_valid := true |}];
  is_batch_signer_authorized := λ _ _, ex_ok true;
  create_settings_view := λ _, ex_ok 1;
  enforce_validation_rules := λ _ _ _, ex_ok true;
  state_view_for_block := λ _, ex_ok 2;
  get_configured_consensus_module := λ _ _, ex_ok 3;
  get_consensus_module := λ _, ex_ok 4;
  get_public_key := ex_ok "pk";
  BlockVerifier := λ _ _, ex_ok 5;
  verify_block := λ _ b, ex_ok (bool_decide (identifier b ≠ "B1"));
  chain_head := λ w, (None, w);
  user_callback := λ _, ex_ok tt
|}.


Definition ex_env : Env unit := ex_env_of (Ok tt).

Definition ex_batch (sig : string) : Batch :=
  {| batch_header_signature := sig;
     transactions := [{| txn_header_signature := sig +:+ "-t"; dependencies := [] |}] |}.

Definition ex_block (o : nat) (i p : string) (bs : list Batch) (root : string) : BlockWrapper :=
  {| obj := o; header_signature := i; previous_block_id := p; block_num := 1;
     signer_public_key := "k"; batches := bs; state_root_hash := root |}.

Definition ex_B0 : BlockWrapper := ex_block 0 "B0" "0000000000000000" [] "root".
Definition ex_B1 : BlockWrapper := ex_block 1 "B1" "B0" [] "root".
Definition ex_B2 : BlockWrapper := ex_block 2 "B2" "B1" [] "root".
Definition ex_B3 : BlockWrapper := ex_block 3 "B3" "B2" [] "root".

(** A block with the batches "a", "b" and "bad", and one with "a" and "b"
    that declares the state root "other". *)
Definition ex_B4 : BlockWrapper :=
  ex_block 4 "B4" "B0" [ex_batch "a"; ex_batch "b"; ex_batch "bad"] "root".
Definition ex_B5 : BlockWrapper :=
  ex_block 5 "B5" "B0" [ex_batch "a"; ex_batch "b"] "other".

Definition ex_fields (v : BlockStatus.t) : BlockFields :=
  {| status := v; execution_results := []; num_transactions := 0 |}.

(** A validator at rest whose cache holds [cached] and whose heap gives
    the objects the statuses [statuses]. *)
Definition ex_state (cached : list BlockWrapper)
    (statuses : list (nat * BlockStatus.t)) : State unit :=
  {| world := tt;
     heap := list_to_map (prod_map id ex_fields <$> statuses);
     block_cache := list_to_map ((λ b, (identifier b, b)) <$> cached);
     blocks_processing := ∅; blocks_pending := ∅;
     blocks_pending_descendants := ∅;
     thread_pool := []; trace := [] |}.

(** A validator that is processing "B1" while "B2" is parked under "B1"
    and "B3" under "B2"; the four blocks are cached, "B0" is Valid and
    "B1" has the status [v]. *)
Definition ex_tracked (v : BlockStatus.t) : State unit :=
  {| world := tt;
     heap := {[ 0 := ex_fields BlockStatus.Valid; 1 := ex_fields v ]};
     block_cache := {[ "B0" := ex_B0; "B1" := ex_B1; "B2" := ex_B2; "B3" := ex_B3 ]};
     blocks_processing := {[ "B1" ]};
     blocks_pending := {[ "B2"; "B3" ]};
     blocks_pending_descendants := {[ "B1" := [ex_B2]; "B2" := [ex_B3] ]};
     thread_pool := []; trace := [] |}.

(** Collaborators over a world that counts the reads of the chain head;
    the chain head at the read number [w] is [head w].  The permission
    verifier refuses the signer of the batch "bad"; every other call
    answers as in [ex_env] and leaves the count as it is. *)
Definition ex_env_head (head : nat → option BlockWrapper) : Env nat := {|
  NULL_BLOCK_IDENTIFIER := "0000000000000000";
  INIT_ROOT_KEY := "init";
  ChainCommitState := λ _ w, (Ok tt, w);
  check_for_duplicate_batches := λ _ w, (Ok tt, w);
  check_for_duplicate_transactions := λ _ w, (Ok tt, w);
  check_for_transaction_dependencies := λ _ w, (Ok tt, w);
  create_scheduler := λ _ w, (Ok 7, w);
  execute := λ _ w, (Ok tt, w);
  add_batch := λ _ _ _ w, (Ok tt, w);
  cancel := λ _ w, (Ok tt, w);
  finalize := λ _ w, (Ok tt, w);
  complete := λ _ w, (Ok tt, w);
  get_batch_execution_result := λ _ sig _,
    if decide (sig = "bad") then None
    else Some {| is_valid := true; state_hash := Some "root" |};
  get_transaction_execution_results := λ _ sig _,
    [{| txn_signature := sig; txn_is_valid := true |}];
  is_batch_signer_authorized := λ batch _ w,
    (Ok (bool_decide (batch_header_signature batch ≠ "bad")), w);
  create_settings_view := λ _ w, (Ok 1, w);
  enforce_validation_rules := λ _ _ _ w, (Ok true, w);
  state_view_for_block := λ _ w, (Ok 2, w);
  get_configured_consensus_module := λ _ _ w, (Ok 3, w);
  get_consensus_module := λ _ w, (Ok 4, w);
  get_public_key := λ w, (Ok "pk", w);
  BlockVerifier := λ _ _ w, (Ok 5, w);
  verify_block := λ _ b w, (Ok (bool_decide (identifier b ≠ "B1")), w);
  chain_head := λ w, (head w, S w);
  user_callback := λ _ w, (Ok tt, w)
|}.

(** The chain head is "B0" at the first read and "B1" afterwards. *)
Definition ex_env_moving : Env nat :=
  ex_env_head (λ w, Some (if decide (w = 0) then ex_B0 else ex_B1)).

(** The chain head is "B0" at the first read and there is none afterwards. *)
Definition ex_env_vanishing : Env nat :=
  ex_env_head (λ w, if decide (w = 0) then Some ex_B0 else None).

(** A block with the batches "a" and "b" that declares the state root
    "root", and a genesis block whose only batch is "bad". *)
Definition ex_B6 : BlockWrapper :=
  ex_block 6 "B6" "B0" [ex_batch "a"; ex_batch "b"] "root".
Definition ex_genesis : BlockWrapper :=
  {| obj := 7; header_signature := "G"; previous_block_id := "0000000000000000";
     block_num := 0; signer_public_key := "k"; batches := [ex_batch "bad"];
     state_root_hash := "root" |}.

(** A validator at rest over the counting world, no chain head read yet. *)
Definition ex_state_moving (cached : list BlockWrapper)
    (statuses : list (nat * BlockStatus.t)) : State nat :=
  {| world := 0;
     heap := list_to_map (prod_map id ex_fields <$> statuses);
     block_cache := list_to_map ((λ b, (identifier b, b)) <$> cached);
     blocks_processing := ∅; blocks_pending := ∅;
     blocks_pending_descendants := ∅;
     thread_pool := []; trace := [] |}.

(** The state an outcome ends in ([s] when it ran out of fuel). *)
Definition final_state {W A : Type} (s : State W) (o : Outcome (W:=W) A) : State W :=
  match o with
  | Return _ s' => s'
  | Raised _ s' => s'
  | OutOfFuel => s
  end.

(** * Properties *)

(** ** [look_ahead] *)

Lemma look_ahead_loop_fst {A : Type} (x : A) (l : list A) :
  (look_ahead_loop x l).*1 = x :: l.
Proof.
  revert x. induction l as [|y l IH]; intros x; simpl; [done|].
  by rewrite IH.
Qed.

Lemma look_ahead_loop_snd {A : Type} (x : A) (l : list A) :
  (look_ahead_loop x l).*2 = replicate (length l) true ++ [false].
Proof.
  revert x. induction l as [|y l IH]; intros x; simpl; [done|].
  by rewrite IH.
Qed.

(** C10. On a non-empty sequence [look_ahead] yields the elements of the
    sequence in order, each paired with [True] except the last, which is
    paired with [False], and then returns; on the empty sequence it yields
    nothing and the [StopIteration] of the initial [next] escapes it. *)
Theorem look_ahead_yields {A : Type} (l : list A) (Hne : l ≠ []) :
  ((look_ahead l).1.*1 = l
   ∧ (look_ahead l).1.*2 = replicate (length l - 1) true ++ [false]
   ∧ (look_ahead l).2 = None)
  ∧ look_ahead (@nil A) = ([], Some StopIteration).
Proof.
  split; [|done].
  destruct l as [|x l]; [done|]. simpl.
  rewrite look_ahead_loop_fst, look_ahead_loop_snd.
  by rewrite Nat.sub_0_r.
Qed.

Lemma look_ahead_yields_witness :
  [1; 2; 3] ≠ []
  ∧ look_ahead [1; 2; 3] = ([(1, true); (2, true); (3, false)], None)
  ∧ look_ahead (@nil nat) = ([], Some StopIteration).
Proof.
  assert (Hne : [1; 2; 3] ≠ @nil nat) by discriminate.
  split; [exact Hne|].
  pose proof (look_ahead_yields [1; 2; 3] Hne) as [_ Hnil].
  split; [reflexivity | exact Hnil].
Defined.

(** ** Reasoning about the monad *)

Section Properties.
Context {W : Type} (E : Env W).

(** Unfold the monadic combinators down to the match on the outcome. *)
Ltac unfold_M :=
  unfold mbind, M_bind, mret, M_ret, bind, ret, raise, gets, modify,
    try_except, emit, log in *.

Lemma post_mono {A : Type} (m : M A) (s : State W) (Q Q' : A → State W → Prop)
    (R R' : exn → State W → Prop) :
  post m s Q R → (∀ a s', Q a s' → Q' a s') → (∀ e s', R e s' → R' e s') →
  post m s Q' R'.
Proof. unfold post. destruct (m s); eauto. Qed.

Lemma post_bind {A B : Type} (m : M A) (k : A → M B) (s : State W) Q R :
  post m s (λ a s1, post (k a) s1 Q R) R → post (m ≫= k) s Q R.
Proof. unfold post. unfold_M. destruct (m s); auto. Qed.

Lemma post_try {A : Type} (m : M A) (h : exn → M A) (s : State W) Q R :
  post m s Q (λ e s1, post (h e) s1 Q R) → post (try_except m h) s Q R.
Proof. unfold post. unfold_M. destruct (m s); auto. Qed.

Section Steps.
Context (T : relation (State W)) `{!PreOrder T}.

Lemma steps_ret {A : Type} (a : A) : steps T (mret a).
Proof. intros s. unfold post. unfold_M. reflexivity. Qed.

Lemma steps_raise {A : Type} (e : exn) : steps T (@raise W A e).
Proof. intros s. unfold post. unfold_M. reflexivity. Qed.

Lemma steps_out_of_fuel {A : Type} : steps T (@out_of_fuel W A).
Proof. intros s. exact I. Qed.

Lemma steps_gets {A : Type} (f : State W → A) : steps T (gets f).
Proof. intros s. unfold post. unfold_M. reflexivity. Qed.

Lemma steps_modify (f : State W → State W) :
  (∀ s, T s (f s)) → steps T (modify f).
Proof. intros H s. unfold post. unfold_M. apply H. Qed.

Lemma steps_call {A : Type} (op : W → Result A * W) :
  (∀ s w, T s (set_world w s)) → steps T (call op).
Proof.
  intros H s. unfold post, call.
  destruct (op (world s)) as [[a|e] w]; apply H.
Qed.

Lemma steps_bind {A B : Type} (m : M A) (k : A → M B) :
  steps T m → (∀ a, steps T (k a)) → steps T (m ≫= k).
Proof.
  intros Hm Hk s. apply post_bind.
  eapply post_mono; [apply Hm| |done].
  intros a s1 H1. simpl.
  eapply post_mono; [apply Hk| |]; simpl; intros; simpl in *; etrans; eauto.
Qed.

Lemma steps_try {A : Type} (m : M A) (h : exn → M A) :
  steps T m → (∀ e, steps T (h e)) → steps T (try_except m h).
Proof.
  intros Hm Hh s. apply post_try.
  eapply post_mono; [apply Hm|done|].
  intros e s1 H1. simpl.
  eapply post_mono; [apply Hh| |]; simpl; intros; simpl in *; etrans; eauto.
Qed.

Lemma steps_for_each {A : Type} (l : list A) (body : A → M unit) :
  (∀ x, steps T (body x)) → steps T (for_each l body).
Proof.
  intros Hb. induction l as [|x l IH]; simpl.
  - apply steps_ret.
  - apply steps_bind; auto.
Qed.

Lemma steps_for_generated {A : Type} (g : Generated A) (body : A → M unit) :
  (∀ x, steps T (body x)) → steps T (for_generated g body).
Proof.
  intros Hb. unfold for_generated. apply steps_bind.
  - by apply steps_for_each.
  - intros _. destruct g.2; [apply steps_raise | apply steps_ret].
Qed.

(** Used after [post_bind]: a first part that only takes [T]-steps. *)
Lemma post_bind_steps {A B : Type} (m : M A) (k : A → M B) s0 s Q :
  T s0 s → steps T m →
  (∀ a s1, T s0 s1 → post (k a) s1 Q (λ _, T s0)) →
  post (m ≫= k) s Q (λ _, T s0).
Proof.
  intros H0 Hm Hk. apply post_bind.
  eapply post_mono; [apply Hm| |]; simpl.
  - intros a s1 H1. simpl in *. apply Hk. etrans; eauto.
  - intros e s1 H1. simpl in *. etrans; eauto.
Qed.

End Steps.

(** *** The relations between the state before and the state after *)

#[local] Instance emits_preorder P : PreOrder (@emits W P).
Proof.
  split.
  - intros s. exists []. by rewrite app_nil_r.
  - intros s1 s2 s3 (tr1 & H1 & HP1) (tr2 & H2 & HP2).
    exists (tr1 ++ tr2). rewrite H2, H1, (assoc_L (++)). split; [done|].
    by apply Forall_app.
Qed.

#[local] Instance shrinks_preorder : PreOrder (@shrinks W).
Proof.
  split.
  - intros s. by split.
  - intros s1 s2 s3 [H1 H1'] [H2 H2']. split; set_solver.
Qed.

#[local] Instance same_heap_preorder : PreOrder (@same_heap W).
Proof.
  split.
  - by intros s.
  - intros s1 s2 s3 H1 H2. unfold same_heap in *. congruence.
Qed.

#[local] Instance same_status_preorder : PreOrder (@same_status W).
Proof.
  split.
  - by intros s b.
  - intros s1 s2 s3 H1 H2 b. by rewrite H2, H1.
Qed.

Lemma emits_same_trace P (s s' : State W) : trace s' = trace s → emits P s s'.
Proof. intros H. exists []. by rewrite app_nil_r. Qed.

Lemma emits_one P (s s' : State W) ev :
  trace s' = trace s ++ [ev] → P ev → emits P s s'.
Proof. intros H HP. exists [ev]. split; [done|]. by constructor. Qed.

Lemma same_status_insert (s : State W) b f :
  status f = status (fields s b) →
  same_status s (set_heap (<[obj b := f]> (heap s)) s).
Proof.
  intros Hf b'. unfold fields. simpl.
  destruct (decide (obj b = obj b')) as [Heq|Hne].
  - rewrite Heq, lookup_insert_eq. simpl. rewrite Hf. unfold fields. by rewrite Heq.
  - by rewrite lookup_insert_ne.
Qed.

Create HintDb model.

#[local] Hint Unfold cancel_scheduler on_exception scheduler_add_batch schedule_batches
  finalize_and_complete check_results _validate_batches_in_block
  _get_previous_block_state_root _validate_permissions _validate_on_chain_rules
  _load_consensus validate_block_body validate_block _add_block_to_pending
  _update_gauges thread_pool_submit submit_block submit_blocks_for_verification
  _release_pending validate_and_log callback process_block_verification
  run_next_job set_status extend_execution_results add_num_transactions
  get_status in_process in_pending processing_add pending_add append_if_unique
  emit log : model.

Create HintDb steps discriminated.

(** The primitive steps: a step given by its effect on the state is
    opened and the obligation on the two states is left to [solver]. *)
Ltac steps_side :=
  lazymatch goal with
  | |- PreOrder _ => apply _
  | |- ∀ _, _ => intros ?
  | _ => idtac
  end.

(** Case analysis on an innermost [match] of the goal. *)
Ltac case_inner :=
  match goal with
  | |- context [match ?x with _ => _ end] =>
      lazymatch x with
      | context [match _ with _ => _ end] => fail
      | _ => destruct x eqn:?
      end
  end.

Ltac steps_prim solver :=
  first
  [ apply steps_modify; intros ?; repeat case_inner; solver
  | apply steps_call; intros ? ?; solver
  | let s := fresh "s" in
    intros s; unfold post, cache_get, cache_del, processing_remove,
      pending_remove, descendants_pop, read_chain_head;
    repeat case_inner; first [exact I | solver] ].

(** Walk down a program of the model. *)
Ltac steps_go solver :=
  repeat first
  [ apply steps_ret; steps_side
  | apply steps_raise; steps_side
  | apply steps_gets; steps_side
  | apply steps_out_of_fuel
  | apply steps_bind; steps_side
  | apply steps_try; steps_side
  | apply steps_for_each; steps_side
  | apply steps_for_generated; steps_side
  | solve [auto 1 with steps]
  | match goal with
    | |- steps _ (match ?x with _ => _ end) => destruct x
    end
  | progress autounfold with model
  | steps_prim solver ].

Ltac solve_emits :=
  first
  [ apply emits_same_trace; reflexivity
  | eapply emits_one; [reflexivity|]; simpl; first [tauto | solve [auto] | idtac] ].

Ltac solve_same := reflexivity.

(** Each event of an explicit list is of the kind asked for. *)
Ltac solve_events :=
  repeat (constructor; [simpl; tauto|]); constructor.

Ltac solve_shrinks := split; simpl; set_solver.

Ltac solve_same_status :=
  first
  [ by intros ?
  | apply same_status_insert; reflexivity ].

(** ** The batch validator *)

(** C8. On a block without batches [_validate_batches_in_block] returns
    at once and leaves the state as it was: no [ChainCommitState] is
    constructed, no scheduler is created (the world of the collaborators
    and the trace are untouched), and the declared state root of the block
    is not compared with [prev_state_root], whatever the two are. *)
Theorem validate_batches_empty_block (blkw : BlockWrapper) (prev_state_root : string)
    (s : State W) (Hempty : batches blkw = []) :
  _validate_batches_in_block E blkw prev_state_root s = Return tt s.
Proof. unfold _validate_batches_in_block. by rewrite Hempty. Qed.

Lemma collect_results_same_status scheduler blkw bs h :
  steps same_status (collect_results E scheduler blkw bs h).
Proof.
  revert h. induction bs as [|batch bs IH]; intros h; simpl.
  - apply steps_ret, _.
  - steps_go solve_same_status.
Qed.

#[local] Hint Resolve collect_results_same_status : steps.

Lemma validate_batches_same_status blkw prev_state_root :
  steps same_status (_validate_batches_in_block E blkw prev_state_root).
Proof. steps_go solve_same_status. Qed.

Lemma batch_signers_authorized_same_status bs prev_state_root :
  steps same_status (batch_signers_authorized E bs prev_state_root).
Proof.
  induction bs as [|batch bs IH]; simpl.
  - apply steps_ret, _.
  - steps_go solve_same_status.
Qed.

#[local] Hint Resolve validate_batches_same_status
  batch_signers_authorized_same_status : steps.

(** ** The single block validator *)

Lemma status_set_status blkw v (s : State W) :
  post (set_status blkw v) s
    (λ _ s', status (fields s' blkw) = v) (λ _ _, False).
Proof.
  unfold post, set_status. unfold_M. simpl.
  unfold fields. simpl. by rewrite lookup_insert_eq.
Qed.

(** Up to its last statement the body of the [try] of [validate_block]
    writes no status; its last statement sets the status to Valid. *)
Lemma validate_block_body_status_from blkw (s0 s : State W) :
  same_status s0 s →
  post (validate_block_body E blkw) s
    (λ _ s', status (fields s' blkw) = BlockStatus.Valid)
    (λ _, same_status s0).
Proof.
  intros H0. unfold validate_block_body.
  repeat (lazymatch goal with |- post (_ ≫= _) _ _ _ => idtac end;
          apply (post_bind_steps same_status);
          [assumption | steps_go solve_same_status | intros ? ? ?]).
  eapply post_mono; [apply status_set_status|done|done].
Qed.

Lemma validate_block_body_status blkw (s : State W) :
  post (validate_block_body E blkw) s
    (λ _ s', status (fields s' blkw) = BlockStatus.Valid)
    (λ _, same_status s).
Proof. by apply validate_block_body_status_from. Qed.

(** C5. A block enters [validate_block] with a status that is neither
    Valid nor Invalid.  If the validation (the body of the [try]) raises a
    [BlockValidationFailure], the same exception leaves [validate_block]
    and the status is Invalid; if it raises a [BlockValidationError], the
    same exception leaves and the status is Unknown; if it raises anything
    else, the same exception leaves and the status is the one the block
    entered with; if it returns, [validate_block] returns and the status
    is Valid. *)
Theorem validate_block_status (blkw : BlockWrapper) (s : State W)
    (Hvalid : status (fields s blkw) ≠ BlockStatus.Valid)
    (Hinvalid : status (fields s blkw) ≠ BlockStatus.Invalid) :
  match validate_block_body E blkw s with
  | Return _ s1 =>
      validate_block E blkw s = Return tt s1
      ∧ status (fields s1 blkw) = BlockStatus.Valid
  | Raised e s1 =>
      ∃ s', validate_block E blkw s = Raised e s'
        ∧ status (fields s' blkw) =
            match e with
            | BlockValidationFailure _ => BlockStatus.Invalid
            | BlockValidationError _ => BlockStatus.Unknown
            | _ => status (fields s blkw)
            end
  | OutOfFuel => validate_block E blkw s = OutOfFuel
  end.
Proof.
  pose proof (validate_block_body_status blkw s) as Hbody.
  unfold post in Hbody.
  assert (Hrun : validate_block E blkw s =
    try_except (validate_block_body E blkw)
      (λ e, match e with
            | BlockValidationFailure _ =>
                set_status blkw BlockStatus.Invalid;; raise e
            | BlockValidationError _ =>
                set_status blkw BlockStatus.Unknown;; raise e
            | _ => log LogException;; raise e
            end) s).
  { unfold validate_block, get_status. unfold_M.
    destruct (status (fields s blkw)); done. }
  rewrite Hrun. clear Hrun. unfold try_except.
  destruct (validate_block_body E blkw s) as [[] s1|e s1|]; [done| |done].
  assert (Hset : ∀ v, status (fields
      (set_trace (trace s1 ++ [EvSetStatus (obj blkw) v])
         (set_heap (<[obj blkw := write_status v (fields s1 blkw)]> (heap s1)) s1))
      blkw) = v).
  { intros v. unfold fields. simpl. by rewrite lookup_insert_eq. }
  destruct e; unfold set_status; unfold_M; simpl; eexists; (split; [reflexivity|]);
    first [apply Hset | apply Hbody].
Qed.

(** *** Cancellation of the scheduler *)

Lemma post_of_steps {A : Type} (T : relation (State W)) (m : M A) (s : State W)
    (Q : A → State W → Prop) (R : exn → State W → Prop) :
  steps T m → (∀ a s', T s s' → Q a s') → (∀ e s', T s s' → R e s') →
  post m s Q R.
Proof. intros Hm HQ HR. eapply post_mono; [apply Hm|apply HQ|apply HR]. Qed.

Lemma new_events_app (s s' : State W) tr :
  trace s' = trace s ++ tr → new_events s s' = tr.
Proof. intros H. unfold new_events. by rewrite H, drop_app_length. Qed.

(** What the [try] statement leaves in the trace: when it returns the
    scheduler, no cancel and no finalize; when an exception leaves it, no
    finalize, and a cancel of the scheduler as the last event if a
    scheduler was created. *)
Lemma schedule_batches_post blkw prev_state_root (s : State W) :
  post (schedule_batches E blkw prev_state_root) s
    (λ _ s', ∃ tr, trace s' = trace s ++ tr
       ∧ Forall (λ ev, ¬ is_cancel ev ∧ ¬ is_finalize ev) tr)
    (λ _ s', ∃ tr, trace s' = trace s ++ tr
       ∧ Forall (λ ev, ¬ is_finalize ev) tr
       ∧ ∀ sch root, EvCreateScheduler sch root ∈ tr → last tr = Some (EvCancel sch)).
Proof.
  unfold schedule_batches. apply post_bind, post_try.
  unfold post at 1. unfold_M. unfold call. simpl.
  destruct (ChainCommitState E (previous_block_id blkw) (world s)) as [[[]|e] w]; simpl.
  2:{ unfold post, on_exception, cancel_scheduler. unfold_M.
      destruct e; simpl; exists [EvChainCommitState (previous_block_id blkw)];
        (split; [done|split; [solve_events|]]);
        intros sch root Hin; by apply list_elem_of_singleton in Hin. }
  destruct (create_scheduler E prev_state_root w) as [[sch|e] w']; simpl.
  2:{ unfold post, on_exception, cancel_scheduler. unfold_M.
      destruct e; simpl; exists [EvChainCommitState (previous_block_id blkw)];
        (split; [done|split; [solve_events|]]);
        intros sch root Hin; by apply list_elem_of_singleton in Hin. }
  match goal with |- post _ ?s1 _ _ => set (s1' := s1) end.
  assert (Htr1 : trace s1' = trace s ++
    [EvChainCommitState (previous_block_id blkw); EvCreateScheduler sch prev_state_root]).
  { subst s1'. simpl. by rewrite <- (assoc_L (++)). }
  clearbody s1'.
  change (post
    (try_except
       (emit (EvExecute sch);;
        call (execute E sch);;
        call (check_for_duplicate_batches E (batches blkw));;
        call (check_for_duplicate_transactions E (concat (transactions <$> batches blkw)));;
        call (check_for_transaction_dependencies E (concat (transactions <$> batches blkw)));;
        for_generated (look_ahead (batches blkw)) (λ '(batch, has_more),
          if (has_more : bool)
          then scheduler_add_batch E sch batch None
          else scheduler_add_batch E sch batch (Some (state_root_hash blkw))))
       (on_exception E (Some sch)) ≫= λ _, mret sch) s1'
    (λ _ s', ∃ tr, trace s' = trace s ++ tr
       ∧ Forall (λ ev, ¬ is_cancel ev ∧ ¬ is_finalize ev) tr)
    (λ _ s', ∃ tr, trace s' = trace s ++ tr
       ∧ Forall (λ ev, ¬ is_finalize ev) tr
       ∧ ∀ sch root, EvCreateScheduler sch root ∈ tr → last tr = Some (EvCancel sch))).
  apply post_bind, post_try.
  apply (post_of_steps (emits is_feeding)); [steps_go solve_emits| |].
  - intros [] s2 (tr2 & Htr2 & Hfeed). unfold post. unfold_M.
    eexists. split; [by rewrite Htr2, Htr1, <- (assoc_L (++))|].
    apply Forall_app. split; [solve_events|].
    eapply Forall_impl; [exact Hfeed|]. intros []; simpl; tauto.
  - intros e s2 (tr2 & Htr2 & Hfeed).
    assert (Hend : ∀ e', ∃ e'' s3,
      (cancel_scheduler E (Some sch);; @raise W unit e') s2 = Raised e'' s3
      ∧ trace s3 = trace s2 ++ [EvCancel sch]).
    { intros e'. unfold cancel_scheduler. unfold_M. unfold call. simpl.
      destruct (cancel E sch (world s2)) as [[[]|ec] wc]; simpl; eauto. }
    assert (Hex : ∃ e'' s3, on_exception E (A:=unit) (Some sch) e s2 = Raised e'' s3
      ∧ trace s3 = trace s2 ++ [EvCancel sch]).
    { unfold on_exception. destruct e; apply Hend. }
    destruct Hex as (e'' & s3 & Hrun & Htr3). unfold post. rewrite Hrun.
    exists ([EvChainCommitState (previous_block_id blkw);
             EvCreateScheduler sch prev_state_root] ++ tr2 ++ [EvCancel sch]).
    split; [by rewrite Htr3, Htr2, Htr1, <- !(assoc_L (++))|]. split.
    + apply Forall_app. split; [solve_events|].
      apply Forall_app. split; [|solve_events].
      eapply Forall_impl; [exact Hfeed|]. intros []; simpl; tauto.
    + intros sch' root' Hin. rewrite (assoc_L (++)), last_snoc.
      apply elem_of_app in Hin as [Hin|Hin].
      * apply elem_of_cons in Hin as [?|Hin]; [done|].
        apply list_elem_of_singleton in Hin. congruence.
      * apply elem_of_app in Hin as [Hin|Hin].
        -- rewrite Forall_forall in Hfeed. by apply Hfeed in Hin.
        -- by apply list_elem_of_singleton in Hin.
Qed.

Lemma post_emit ev (s : State W) (Q : unit → State W → Prop) R :
  Q tt (set_trace (trace s ++ [ev]) s) → post (emit ev) s Q R.
Proof. done. Qed.

Lemma bind_Raised {A B : Type} (m : M A) (k : A → M B) (s s' : State W) e :
  (m ≫= k) s = Raised e s' →
  m s = Raised e s' ∨ ∃ a s1, m s = Return a s1 ∧ k a s1 = Raised e s'.
Proof. unfold_M. destruct (m s); naive_solver. Qed.

Lemma bind_Return {A B : Type} (m : M A) (k : A → M B) (s s' : State W) b :
  (m ≫= k) s = Return b s' →
  ∃ a s1, m s = Return a s1 ∧ k a s1 = Return b s'.
Proof. unfold_M. destruct (m s); naive_solver. Qed.

Lemma collect_results_emits P scheduler blkw bs h :
  steps (emits P) (collect_results E scheduler blkw bs h).
Proof.
  revert h. induction bs as [|batch bs IH]; intros h; simpl;
    steps_go solve_emits.
Qed.

#[local] Hint Resolve collect_results_emits : steps.

(** From [scheduler.finalize()] on, the trace grows by the finalize and
    then by events that are not a cancel. *)
Lemma completion_post scheduler blkw (s : State W) :
  let P := λ s' : State W, ∃ tr, trace s' = trace s ++ EvFinalize scheduler :: tr
             ∧ Forall (λ ev, ¬ is_cancel ev) tr in
  post (finalize_and_complete E scheduler ≫= λ _, check_results E scheduler blkw) s
    (λ _, P) (λ _, P).
Proof.
  intros P. apply post_bind. unfold finalize_and_complete.
  apply post_bind, post_emit.
  assert (HP : ∀ s1 s2 : State W, trace s1 = trace s ++ [EvFinalize scheduler] →
    emits (λ ev, ¬ is_cancel ev) s1 s2 → P s2).
  { intros s1 s2 H1 (tr & Htr & Hall). exists tr.
    by rewrite Htr, H1, <- (assoc_L (++)). }
  apply (post_of_steps (emits (λ ev, ¬ is_cancel ev))); [steps_go solve_emits| |].
  - intros [] s2 H2.
    apply (post_of_steps (emits (λ ev, ¬ is_cancel ev))); [steps_go solve_emits| |];
      intros ? s3 H3; (eapply HP; [|etrans; [exact H2|exact H3]]); done.
  - intros e s2 H2. eapply HP; [|exact H2]; done.
Qed.

(** C4, as amended.  When an exception leaves [_validate_batches_in_block]:
    if it left from the [try] statement (no [scheduler.finalize()] was
    reached) and a scheduler had been created, the last thing that
    happened is [scheduler.cancel()] on that scheduler; if it left after
    [scheduler.finalize()] (a missing or invalid batch result, a state
    root mismatch, a failure of finalize or complete), no scheduler was
    cancelled. *)
Theorem cancel_before_leaving_try (blkw : BlockWrapper) (prev_state_root : string)
    (s s' : State W) (e : exn)
    (Hrun : _validate_batches_in_block E blkw prev_state_root s = Raised e s') :
  ((∀ sch, EvFinalize sch ∉ new_events s s') →
   ∀ sch root, EvCreateScheduler sch root ∈ new_events s s' →
     last (new_events s s') = Some (EvCancel sch))
  ∧ (∀ sch, EvFinalize sch ∈ new_events s s' →
     ∀ sch', EvCancel sch' ∉ new_events s s').
Proof.
  unfold _validate_batches_in_block in Hrun.
  destruct (batches blkw) as [|b0 bs]; [done|].
  pose proof (schedule_batches_post blkw prev_state_root s) as Hsched.
  unfold post in Hsched.
  apply bind_Raised in Hrun as [Hrun|(sch & s1 & Hrun & Hrest)]; rewrite Hrun in Hsched.
  - destruct Hsched as (tr & Htr & Hnofin & Hlast).
    rewrite (new_events_app _ _ _ Htr). split; [by intros _|].
    intros sch Hin. rewrite Forall_forall in Hnofin. by apply Hnofin in Hin.
  - destruct Hsched as (tr1 & Htr1 & Hall1).
    pose proof (completion_post sch blkw s1) as Hcompl. simpl in Hcompl.
    unfold post in Hcompl.
    change ((finalize_and_complete E sch ≫= λ _, check_results E sch blkw) s1
            = Raised e s') in Hrest.
    rewrite Hrest in Hcompl. destruct Hcompl as (tr2 & Htr2 & Hall2).
    rewrite (new_events_app s s' (tr1 ++ EvFinalize sch :: tr2))
      by (by rewrite Htr2, Htr1, <- (assoc_L (++))).
    split.
    + intros Hnofin. destruct (Hnofin sch). set_solver.
    + intros sch0 _ sch' Hin. rewrite Forall_forall in Hall1, Hall2.
      apply elem_of_app in Hin as [Hin|Hin]; [by apply Hall1 in Hin as [? _]|].
      apply elem_of_cons in Hin as [?|Hin]; [done|]. by apply Hall2 in Hin.
Qed.

(** *** Results accumulated on the block *)

Lemma schedule_batches_same_heap blkw prev_state_root :
  steps same_heap (schedule_batches E blkw prev_state_root).
Proof. steps_go solve_same. Qed.

Lemma finalize_and_complete_same_heap scheduler :
  steps same_heap (finalize_and_complete E scheduler).
Proof. steps_go solve_same. Qed.

Lemma accumulated_results_cons sch (w : W) x bs :
  accumulated_results E sch w (x :: bs) =
    get_transaction_execution_results E sch (batch_header_signature x) w
      ++ accumulated_results E sch w bs.
Proof. done. Qed.

Lemma accumulated_transactions_cons x bs :
  accumulated_transactions (x :: bs) =
    length (transactions x) + accumulated_transactions bs.
Proof. done. Qed.

(** The state after a valid batch has been accounted for. *)
Lemma collect_results_valid scheduler blkw batch bs h (s : State W) r :
  get_batch_execution_result E scheduler (batch_header_signature batch) (world s) = Some r →
  is_valid r = true →
  ∃ s2, collect_results E scheduler blkw (batch :: bs) h s
        = collect_results E scheduler blkw bs (state_hash r) s2
    ∧ world s2 = world s
    ∧ execution_results (fields s2 blkw) = execution_results (fields s blkw) ++
        get_transaction_execution_results E scheduler (batch_header_signature batch) (world s)
    ∧ num_transactions (fields s2 blkw) =
        num_transactions (fields s blkw) + length (transactions batch).
Proof.
  intros Hr Hv. simpl. unfold extend_execution_results, add_num_transactions.
  unfold_M. rewrite Hr, Hv. eexists. split; [reflexivity|].
  unfold fields. simpl. by rewrite !lookup_insert_eq.
Qed.

Lemma collect_results_prefix scheduler blkw w pre b post_ h (s : State W) :
  world s = w →
  (∀ x, x ∈ pre → batch_valid E scheduler w x) →
  batch_invalid E scheduler w b →
  ∃ s', collect_results E scheduler blkw (pre ++ b :: post_) h s
        = Raised (BlockValidationFailure (InvalidBatch (batch_header_signature b))) s'
    ∧ execution_results (fields s' blkw) =
        execution_results (fields s blkw) ++ accumulated_results E scheduler w pre
    ∧ num_transactions (fields s' blkw) =
        num_transactions (fields s blkw) + accumulated_transactions pre.
Proof.
  intros Hw Hpre Hb. revert h s Hw.
  induction pre as [|x pre IH]; intros h s Hw.
  - exists s. unfold accumulated_results, accumulated_transactions. simpl.
    rewrite app_nil_r, Nat.add_0_r. split; [|done].
    unfold batch_invalid in Hb. unfold_M. rewrite Hw.
    destruct (get_batch_execution_result E scheduler (batch_header_signature b) w)
      as [r|]; [by rewrite Hb|done].
  - destruct (Hpre x) as (r & Hr & Hv); [set_solver|]. rewrite <- Hw in Hr.
    destruct (collect_results_valid scheduler blkw x (pre ++ b :: post_) h s r Hr Hv)
      as (s2 & Hstep & Hw2 & Her & Hnum).
    destruct (IH (λ y Hy, Hpre y (list_elem_of_further _ _ _ Hy)) (state_hash r) s2)
      as (s' & Hrun & Her' & Hnum'); [congruence|].
    exists s'. rewrite <- app_comm_cons, Hstep. split; [done|].
    rewrite Her', Hnum', Her, Hnum, Hw.
    rewrite accumulated_results_cons, accumulated_transactions_cons.
    rewrite (assoc_L (++)). split; [done|lia].
Qed.

Lemma collect_results_all scheduler blkw w bs h (s : State W) :
  world s = w →
  (∀ x, x ∈ bs → batch_valid E scheduler w x) →
  ∃ s', collect_results E scheduler blkw bs h s
        = Return (final_state_hash E scheduler w bs h) s'
    ∧ execution_results (fields s' blkw) =
        execution_results (fields s blkw) ++ accumulated_results E scheduler w bs
    ∧ num_transactions (fields s' blkw) =
        num_transactions (fields s blkw) + accumulated_transactions bs.
Proof.
  intros Hw Hbs. revert h s Hw.
  induction bs as [|x bs IH]; intros h s Hw.
  - exists s. unfold accumulated_results, accumulated_transactions. simpl.
    by rewrite app_nil_r, Nat.add_0_r.
  - destruct (Hbs x) as (r & Hr & Hv); [set_solver|].
    assert (Hr' := Hr). rewrite <- Hw in Hr.
    destruct (collect_results_valid scheduler blkw x bs h s r Hr Hv)
      as (s2 & Hstep & Hw2 & Her & Hnum).
    destruct (IH (λ y Hy, Hbs y (list_elem_of_further _ _ _ Hy)) (state_hash r) s2)
      as (s' & Hrun & Her' & Hnum'); [congruence|].
    exists s'. rewrite Hstep, Hrun. split.
    + unfold final_state_hash. simpl. by rewrite Hr'.
    + rewrite Her', Hnum', Her, Hnum, Hw.
      rewrite accumulated_results_cons, accumulated_transactions_cons.
      rewrite (assoc_L (++)). split; [done|lia].
Qed.

Lemma bind_of_Return {A B : Type} (m : M A) (k : A → M B) (s s1 : State W) a :
  m s = Return a s1 → (m ≫= k) s = k a s1.
Proof. intros H. unfold_M. by rewrite H. Qed.

Lemma bind_of_Raised {A B : Type} (m : M A) (k : A → M B) (s s1 : State W) e :
  m s = Raised e s1 → (m ≫= k) s = Raised e s1.
Proof. intros H. unfold_M. by rewrite H. Qed.

Lemma validate_batches_after_completion blkw prev_state_root (s s0 s1 : State W) sch :
  batches blkw ≠ [] →
  schedule_batches E blkw prev_state_root s = Return sch s0 →
  finalize_and_complete E sch s0 = Return tt s1 →
  _validate_batches_in_block E blkw prev_state_root s = check_results E sch blkw s1
  ∧ fields s1 blkw = fields s blkw.
Proof.
  intros Hne Hsched Hfin. split.
  - unfold _validate_batches_in_block. destruct (batches blkw); [done|].
    rewrite (bind_of_Return _ _ _ _ _ Hsched).
    by rewrite (bind_of_Return _ _ _ _ _ Hfin).
  - pose proof (schedule_batches_same_heap blkw prev_state_root s) as H0.
    pose proof (finalize_and_complete_same_heap sch s0) as H1.
    unfold post in H0, H1. rewrite Hsched in H0. rewrite Hfin in H1.
    unfold same_heap in *. unfold fields. congruence.
Qed.

(** C9. The scheduler has completed ([schedule_batches] and then finalize
    and complete returned, in the state [s1]).  If the batches before
    [b] are valid and [b] has no result or an invalid one, a
    [BlockValidationFailure] for [b] leaves [_validate_batches_in_block]
    and the block keeps what was accumulated before [b]: its execution
    results are the ones it had followed by those of the batches before
    [b], and its transaction count has grown by their transactions.  If
    every batch is valid and the last state hash is not the declared state
    root, a [BlockValidationFailure] leaves and the block keeps the
    results and the count of all its batches. *)
Theorem failure_after_completion_keeps_results (blkw : BlockWrapper)
    (prev_state_root : string) (s s0 s1 : State W) (sch : nat)
    (Hsched : schedule_batches E blkw prev_state_root s = Return sch s0)
    (Hfin : finalize_and_complete E sch s0 = Return tt s1) :
  (∀ pre b post_,
     batches blkw = pre ++ b :: post_ →
     (∀ x, x ∈ pre → batch_valid E sch (world s1) x) →
     batch_invalid E sch (world s1) b →
     ∃ s', _validate_batches_in_block E blkw prev_state_root s
           = Raised (BlockValidationFailure (InvalidBatch (batch_header_signature b))) s'
       ∧ execution_results (fields s' blkw) =
           execution_results (fields s blkw) ++ accumulated_results E sch (world s1) pre
       ∧ num_transactions (fields s' blkw) =
           num_transactions (fields s blkw) + accumulated_transactions pre)
  ∧ (batches blkw ≠ [] →
     (∀ x, x ∈ batches blkw → batch_valid E sch (world s1) x) →
     Some (state_root_hash blkw) ≠ final_state_hash E sch (world s1) (batches blkw) None →
     ∃ s', _validate_batches_in_block E blkw prev_state_root s
           = Raised (BlockValidationFailure
               (FailedStateRootHash (state_root_hash blkw)
                  (final_state_hash E sch (world s1) (batches blkw) None))) s'
       ∧ execution_results (fields s' blkw) =
           execution_results (fields s blkw)
             ++ accumulated_results E sch (world s1) (batches blkw)
       ∧ num_transactions (fields s' blkw) =
           num_transactions (fields s blkw) + accumulated_transactions (batches blkw)).
Proof.
  split.
  - intros pre b post_ Hbs Hpre Hb.
    assert (Hne : batches blkw ≠ []) by (rewrite Hbs; by destruct pre).
    destruct (validate_batches_after_completion _ _ _ _ _ _ Hne Hsched Hfin)
      as [-> <-].
    destruct (collect_results_prefix sch blkw (world s1) pre b post_ None s1
                eq_refl Hpre Hb) as (s' & Hrun & Hres).
    exists s'. split; [|done]. unfold check_results. rewrite Hbs.
    by apply bind_of_Raised.
  - intros Hne Hall Hhash.
    destruct (validate_batches_after_completion _ _ _ _ _ _ Hne Hsched Hfin)
      as [-> <-].
    destruct (collect_results_all sch blkw (world s1) (batches blkw) None s1
                eq_refl Hall) as (s' & Hrun & Hres).
    exists s'. split; [|done]. unfold check_results.
    rewrite (bind_of_Return _ _ _ _ _ Hrun).
    by destruct (decide _).
Qed.

(** ** The cascade resolver *)

Lemma list_pop_snoc {A : Type} (l : list A) (x : A) : list_pop (l ++ [x]) = Some (l, x).
Proof. unfold list_pop. by rewrite reverse_snoc, reverse_involutive. Qed.

Lemma list_pop_None {A : Type} (l : list A) : list_pop l = None → l = [].
Proof.
  destruct l as [|x l] using rev_ind; [done|]. by rewrite list_pop_snoc.
Qed.

Lemma list_pop_Some {A : Type} (l r : list A) (x : A) :
  list_pop l = Some (r, x) → l = r ++ [x].
Proof.
  destruct l as [|y l _] using rev_ind; [done|].
  rewrite list_pop_snoc. congruence.
Qed.

Lemma parked_delete (m : gmap string (list BlockWrapper)) k :
  parked m ≡ₚ default [] (m !! k) ++ parked (delete k m).
Proof.
  unfold parked. destruct (m !! k) as [l|] eqn:Hk; simpl.
  - by rewrite <- (map_to_list_delete m k l Hk).
  - by rewrite delete_id.
Qed.

Lemma cascade_submseteq fuel work m : cascade fuel work m ⊆+ work ++ parked m.
Proof.
  revert work m. induction fuel as [|fuel IH]; intros work m; simpl.
  - destruct (list_pop work) as [[rest b]|]; apply submseteq_nil_l.
  - destruct (list_pop work) as [[rest b]|] eqn:Hpop; [|apply submseteq_nil_l].
    apply list_pop_Some in Hpop as ->.
    rewrite (parked_delete m (identifier b)).
    etrans; [apply submseteq_skip, IH|].
    apply Permutation_submseteq. rewrite <- !(assoc_L (++)). cbn [app].
    by rewrite <- Permutation_middle.
Qed.

Lemma parked_descendant_step (m : gmap string (list BlockWrapper)) rest b w x :
  w ∈ rest ++ [b] →
  parked_descendant m (identifier w) x →
  let work' := rest ++ default [] (m !! identifier b) in
  let m' := delete (identifier b) m in
  x ∈ work' ∨ ∃ w', w' ∈ work' ∧ parked_descendant m' (identifier w') x.
Proof.
  intros Hw Hx work' m'.
  assert (Hkid : ∀ p l y, m !! identifier p = Some l → y ∈ l →
    identifier p = identifier b → y ∈ work').
  { intros p l y Hl Hy Heq. subst work'. rewrite <- Heq, Hl.
    apply elem_of_app. by right. }
  assert (Hother : ∀ p l, m !! identifier p = Some l →
    identifier p ≠ identifier b → m' !! identifier p = Some l).
  { intros p l Hl Hne. subst m'. by rewrite lookup_delete_ne. }
  induction Hx as [y l Hl Hy|p y l Hp IH Hl Hy].
  - destruct (decide (identifier w = identifier b)) as [Heq|Hne].
    + left. by eapply Hkid.
    + right. exists w. split.
      * subst work'. apply elem_of_app in Hw as [Hw|Hw]; [set_solver|].
        apply list_elem_of_singleton in Hw. by subst.
      * eapply parked_child; [by apply Hother|done].
  - destruct (decide (identifier p = identifier b)) as [Heq|Hne].
    + left. by eapply Hkid.
    + right. destruct IH as [Hin|(w' & Hin & Hreach)].
      * exists p. split; [done|]. eapply parked_child; [by apply Hother|done].
      * exists w'. split; [done|].
        eapply parked_grandchild; [exact Hreach|by apply Hother|done].
Qed.






(** With the fuel [_release_pending] gives it, the work list reaches
    every block of the work list and every parked descendant of one. *)
Lemma cascade_complete fuel work m x :
  length work + length (parked m) ≤ fuel →
  (x ∈ work ∨ ∃ w, w ∈ work ∧ parked_descendant m (identifier w) x) →
  x ∈ cascade fuel work m.
Proof.
  revert work m. induction fuel as [|fuel IH]; intros work m Hfuel Hx.
  - destruct work as [|w0 work]; [|simpl in Hfuel; lia].
    destruct Hx as [Hx|(w & Hw & _)]; set_solver.
  - simpl. destruct (list_pop work) as [[rest b]|] eqn:Hpop.
    + apply list_pop_Some in Hpop as ->.
      assert (Hfuel' : length (rest ++ default [] (m !! identifier b))
                + length (parked (delete (identifier b) m)) ≤ fuel).
      { pose proof (parked_delete m (identifier b)) as Hperm.
        apply Permutation_length in Hperm.
        rewrite !length_app in *. simpl in Hfuel. lia. }
      destruct Hx as [Hx|(w & Hw & Hreach)].
      * apply elem_of_app in Hx as [Hx|Hx].
        -- apply list_elem_of_further, IH; [done|]. left. set_solver.
        -- apply list_elem_of_singleton in Hx as ->. apply list_elem_of_here.
      * apply list_elem_of_further, IH; [done|].
        by eapply parked_descendant_step.
    + apply list_pop_None in Hpop as ->.
      destruct Hx as [Hx|(w & Hw & _)]; set_solver.
Qed.

(** One iteration of the [while blocks_now_invalid] loop. *)
Lemma invalidate_pending_step fuel work rest b (s : State W) :
  list_pop work = Some (rest, b) →
  identifier b ∈ blocks_pending s →
  ∃ s1, invalidate_pending (S fuel) work s
        = invalidate_pending fuel
            (rest ++ default [] (blocks_pending_descendants s !! identifier b)) s1
    ∧ heap s1 = <[obj b := write_status BlockStatus.Invalid (fields s b)]> (heap s)
    ∧ blocks_pending s1 = blocks_pending s ∖ {[identifier b]}
    ∧ blocks_pending_descendants s1 = delete (identifier b) (blocks_pending_descendants s)
    ∧ trace s1 = trace s ++ [EvSetStatus (obj b) BlockStatus.Invalid; EvLog LogDebug].
Proof.
  intros Hpop Hin. simpl. rewrite Hpop.
  unfold set_status, pending_remove, descendants_pop. unfold_M. simpl.
  rewrite bool_decide_eq_true_2 by done.
  eexists. split; [reflexivity|]. simpl. by rewrite <- (assoc_L (++)).
Qed.


(** The premises of the loops are kept by an iteration. *)
Lemma cascade_premises_step (f : BlockWrapper → string) rest b
    (m : gmap string (list BlockWrapper)) k :
  NoDup (f <$> (rest ++ [b]) ++ parked m) →
  NoDup (f <$> (rest ++ default [] (m !! k)) ++ parked (delete k m))
  ∧ ∀ x, x ∈ (rest ++ default [] (m !! k)) ++ parked (delete k m) →
      x ∈ (rest ++ [b]) ++ parked m ∧ f x ≠ f b.
Proof.
  intros Hnd.
  assert (Hperm : (rest ++ [b]) ++ parked m ≡ₚ
            b :: (rest ++ default [] (m !! k)) ++ parked (delete k m)).
  { rewrite (parked_delete m k), <- !(assoc_L (++)). cbn [app].
    by rewrite <- Permutation_middle. }
  rewrite Hperm, fmap_cons in Hnd. apply NoDup_cons in Hnd as [Hb Hnd].
  split; [done|]. intros x Hx. split.
  - rewrite Hperm. by apply list_elem_of_further.
  - intros Heq. apply Hb. rewrite <- Heq. by apply list_elem_of_fmap_2.
Qed.

Lemma cascade_fuel_step rest b (m : gmap string (list BlockWrapper)) k fuel :
  length (rest ++ [b]) + length (parked m) ≤ S fuel →
  length (rest ++ default [] (m !! k)) + length (parked (delete k m)) ≤ fuel.
Proof.
  intros Hfuel. pose proof (parked_delete m k) as Hperm.
  apply Permutation_length in Hperm. rewrite !length_app in *. simpl in Hfuel. lia.
Qed.

Lemma status_after_write (s s1 : State W) b x v :
  heap s1 = <[obj b := write_status v (fields s b)]> (heap s) →
  status (fields s1 x) = if decide (obj b = obj x) then v else status (fields s x).
Proof.
  intros Hheap. unfold fields. rewrite Hheap.
  destruct (decide (obj b = obj x)) as [Heq|Hne].
  - by rewrite Heq, lookup_insert_eq.
  - by rewrite lookup_insert_ne.
Qed.

(** The [while blocks_now_invalid] loop, run on a work list and a
    multimap whose blocks have distinct identifiers that are all pending:
    it ends, every block it takes off the work list is Invalid and no
    longer pending afterwards, and the trace grows by one status write
    and one log record per block. *)
Lemma invalidate_pending_spec fuel work (s : State W) :
  length work + length (parked (blocks_pending_descendants s)) ≤ fuel →
  NoDup (identifier <$> work ++ parked (blocks_pending_descendants s)) →
  (∀ b, b ∈ work ++ parked (blocks_pending_descendants s) →
        identifier b ∈ blocks_pending s) →
  ∃ s', invalidate_pending fuel work s = Return tt s'
    ∧ (∀ b, b ∈ cascade fuel work (blocks_pending_descendants s) →
         status (fields s' b) = BlockStatus.Invalid
         ∧ identifier b ∉ blocks_pending s')
    ∧ (∀ b, status (fields s b) = BlockStatus.Invalid →
         status (fields s' b) = BlockStatus.Invalid)
    ∧ blocks_pending s' ⊆ blocks_pending s
    ∧ trace s' = trace s ++
        flat_map (λ b, [EvSetStatus (obj b) BlockStatus.Invalid; EvLog LogDebug])
          (cascade fuel work (blocks_pending_descendants s)).
Proof.
  revert work s. induction fuel as [|fuel IH]; intros work s Hfuel Hnd Hpend.
  { destruct work as [|w0 work]; [|simpl in Hfuel; lia].
    exists s. simpl. rewrite app_nil_r.
    split; [done|]. split; [by intros b ?%elem_of_nil|]. by repeat split. }
  destruct (list_pop work) as [[rest b]|] eqn:Hpop.
  2:{ apply list_pop_None in Hpop as ->. exists s. simpl.
      rewrite app_nil_r.
      split; [done|]. split; [by intros b ?%elem_of_nil|]. by repeat split. }
  pose proof (list_pop_Some _ _ _ Hpop) as ->.
  assert (Hb : identifier b ∈ blocks_pending s) by (apply Hpend; set_solver).
  destruct (invalidate_pending_step fuel _ _ _ s Hpop Hb)
    as (s1 & Hstep & Hheap & Hpending & Hdesc & Htrace).
  destruct (cascade_premises_step identifier rest b
              (blocks_pending_descendants s) (identifier b) Hnd) as [Hnd' Hin'].
  destruct (IH (rest ++ default [] (blocks_pending_descendants s !! identifier b)) s1)
    as (s' & Hrun & Hdone & Hframe & Hsub & Htr).
  { rewrite Hdesc. by apply (cascade_fuel_step rest b). }
  { by rewrite Hdesc. }
  { intros x Hx. rewrite Hdesc in Hx. apply Hin' in Hx as [Hx Hne].
    rewrite Hpending. apply elem_of_difference. split; [by apply Hpend|].
    by intros ?%elem_of_singleton. }
  exists s'. rewrite Hstep, Hrun. split; [done|].
  assert (Hcascade : cascade (S fuel) (rest ++ [b]) (blocks_pending_descendants s)
    = b :: cascade fuel
             (rest ++ default [] (blocks_pending_descendants s !! identifier b))
             (blocks_pending_descendants s1)).
  { simpl. by rewrite Hpop, Hdesc. }
  rewrite Hcascade. split; [|split; [|split]].
  - intros x [Heq|Hx]%elem_of_cons; [subst x|by apply Hdone]. split.
    + apply Hframe. rewrite (status_after_write s s1 b b _ Hheap).
      by rewrite decide_True.
    + intros Hin. apply Hsub in Hin. rewrite Hpending in Hin. set_solver.
  - intros x Hx. apply Hframe. rewrite (status_after_write s s1 b x _ Hheap).
    by destruct (decide _).
  - rewrite Hpending in Hsub. set_solver.
  - rewrite Htr, Htrace. by rewrite <- (assoc_L (++)).
Qed.


Lemma NoDup_of_submseteq {A : Type} (l k : list A) : l ⊆+ k → NoDup k → NoDup l.
Proof.
  intros [k' Hk]%submseteq_Permutation Hnd. rewrite Hk in Hnd.
  by apply NoDup_app in Hnd as [? _].
Qed.

Lemma status_writes_app o tr1 tr2 :
  status_writes o (tr1 ++ tr2) = status_writes o tr1 ++ status_writes o tr2.
Proof. apply omap_app. Qed.

Lemma status_writes_cascade_other o (order : list BlockWrapper) :
  o ∉ obj <$> order →
  status_writes o
    (flat_map (λ b, [EvSetStatus (obj b) BlockStatus.Invalid; EvLog LogDebug]) order) = [].
Proof.
  induction order as [|x order IH]; intros Hnot; [done|].
  rewrite fmap_cons, not_elem_of_cons in Hnot. destruct Hnot as [Hne Hnot].
  simpl. unfold status_writes in *. simpl.
  rewrite decide_False by done. by apply IH.
Qed.

Lemma status_writes_cascade b (order : list BlockWrapper) :
  NoDup (obj <$> order) → b ∈ order →
  status_writes (obj b)
    (flat_map (λ b, [EvSetStatus (obj b) BlockStatus.Invalid; EvLog LogDebug]) order)
  = [BlockStatus.Invalid].
Proof.
  induction order as [|x order IH]; intros Hnd Hin; [by apply elem_of_nil in Hin|].
  rewrite fmap_cons in Hnd. apply NoDup_cons in Hnd as [Hx Hnd].
  change (status_writes (obj b)
    ([EvSetStatus (obj x) BlockStatus.Invalid; EvLog LogDebug] ++
     flat_map (λ b, [EvSetStatus (obj b) BlockStatus.Invalid; EvLog LogDebug]) order)
    = [BlockStatus.Invalid]).
  rewrite status_writes_app.
  apply elem_of_cons in Hin as [->|Hin].
  - rewrite status_writes_cascade_other by done.
    unfold status_writes. simpl. by rewrite decide_True.
  - rewrite IH by done. unfold status_writes. simpl.
    rewrite decide_False; [done|].
    intros Heq. apply Hx. rewrite Heq. by apply list_elem_of_fmap_2.
Qed.

(** The parked descendants of [block] are the children of [block] and
    what can be reached from them once the entry of [block] is popped. *)
Lemma parked_descendant_root (m : gmap string (list BlockWrapper)) block x :
  parked_descendant m (identifier block) x →
  let work := default [] (m !! identifier block) in
  x ∈ work ∨ ∃ w, w ∈ work ∧ parked_descendant (delete (identifier block) m) (identifier w) x.
Proof.
  intros Hx.
  by apply (parked_descendant_step m [] block block x); [apply list_elem_of_here|].
Qed.

(** C6. The cascade resolver runs on a block whose status is Invalid, in
    a tracker state where the parked blocks have distinct identifiers,
    are distinct objects and are all in [pending].  It returns the empty
    list, and every parked descendant transitively reachable from the
    block through the multimap is Invalid afterwards, is no longer in
    [pending], and has had its status written exactly once, to Invalid. *)
Theorem release_pending_invalid (block : BlockWrapper) (s : State W)
    (Hstatus : status (fields s block) = BlockStatus.Invalid)
    (Hids : NoDup (identifier <$> parked (blocks_pending_descendants s)))
    (Hobjs : NoDup (obj <$> parked (blocks_pending_descendants s)))
    (Hpending : ∀ b, b ∈ parked (blocks_pending_descendants s) →
                     identifier b ∈ blocks_pending s) :
  ∃ s', _release_pending block s = Return [] s'
    ∧ ∀ b, parked_descendant (blocks_pending_descendants s) (identifier block) b →
        status (fields s' b) = BlockStatus.Invalid
        ∧ (identifier b ∉ blocks_pending s')
        ∧ status_writes (obj b) (new_events s s') = [BlockStatus.Invalid].
Proof.
  set (m := blocks_pending_descendants s) in *.
  set (work := default [] (m !! identifier block)).
  set (m' := delete (identifier block) m).
  assert (Hperm : parked m ≡ₚ work ++ parked m') by apply parked_delete.
  assert (Hrun : ∃ s0 logs,
    _release_pending block s =
      (invalidate_pending (length work + length (parked m')) work ≫= λ _, mret []) s0
    ∧ heap s0 = heap s ∧ blocks_pending s0 = blocks_pending s
    ∧ blocks_pending_descendants s0 = m'
    ∧ trace s0 = trace s ++ logs ∧ status_writes (obj block) logs = []
    ∧ ∀ o, status_writes o logs = []).
  { unfold _release_pending, processing_remove, get_status, descendants_pop.
    unfold_M. simpl.
    destruct (bool_decide (identifier block ∈ blocks_processing s)); simpl;
      unfold fields in Hstatus |- *; simpl; rewrite Hstatus.
    - eexists _, [EvLog LogDebug]. split; [reflexivity|]. by repeat split.
    - eexists _, [EvLog LogDebug; EvLog LogWarning]. split; [reflexivity|].
      simpl. rewrite <- (assoc_L (++)). by repeat split. }
  destruct Hrun as (s0 & logs & Hrun & Hheap0 & Hpend0 & Hdesc0 & Htrace0 & _ & Hlogs).
  destruct (invalidate_pending_spec (length work + length (parked m')) work s0)
    as (s' & Hloop & Hdone & _ & _ & Htrace).
  { by rewrite Hdesc0. }
  { by rewrite Hdesc0, <- Hperm. }
  { intros b Hb. rewrite Hdesc0, <- Hperm in Hb. rewrite Hpend0. by apply Hpending. }
  exists s'. split.
  { rewrite Hrun. by rewrite (bind_of_Return _ _ _ _ _ Hloop). }
  intros b Hb. rewrite Hdesc0 in Hdone, Htrace.
  assert (Hin : b ∈ cascade (length work + length (parked m')) work m').
  { apply cascade_complete; [done|]. by apply parked_descendant_root. }
  destruct (Hdone b Hin) as [Hinv Hnot]. split; [done|]. split; [done|].
  rewrite (new_events_app s s' (logs ++ flat_map
    (λ b, [EvSetStatus (obj b) BlockStatus.Invalid; EvLog LogDebug])
    (cascade (length work + length (parked m')) work m')))
    by (by rewrite Htrace, Htrace0, <- (assoc_L (++))).
  rewrite status_writes_app, Hlogs. cbn [app].
  apply status_writes_cascade; [|done].
  eapply NoDup_of_submseteq; [apply fmap_submseteq, cascade_submseteq|].
  by rewrite <- Hperm.
Qed.

Lemma emits_new_events P (s s' : State W) : emits P s s' → Forall P (new_events s s').
Proof. intros (tr & Htr & HP). by rewrite (new_events_app _ _ _ Htr). Qed.

Lemma remove_pending_emits P fuel work :
  (∀ level, P (EvLog level)) → steps (emits P) (@remove_pending W fuel work).
Proof.
  intros HP. revert work. induction fuel as [|fuel IH]; intros work; simpl;
    steps_go solve_emits.
Qed.


(** ** Exclusivity of [processing] and [pending] *)

Lemma invalidate_pending_shrinks fuel work :
  steps shrinks (@invalidate_pending W fuel work).
Proof.
  revert work. induction fuel as [|fuel IH]; intros work; simpl;
    steps_go solve_shrinks.
Qed.

Lemma remove_pending_shrinks fuel work :
  steps shrinks (@remove_pending W fuel work).
Proof.
  revert work. induction fuel as [|fuel IH]; intros work; simpl;
    steps_go solve_shrinks.
Qed.

#[local] Hint Resolve invalidate_pending_shrinks remove_pending_shrinks : steps.

Lemma release_pending_shrinks block : steps shrinks (@_release_pending W block).
Proof. steps_go solve_shrinks. Qed.

Lemma shrinks_exclusive (s s' : State W) : shrinks s s' → exclusive s → exclusive s'.
Proof. unfold shrinks, exclusive. set_solver. Qed.

(** One iteration of the loop of [submit_blocks_for_verification], for a
    block that is not handled by the branch for a cached predecessor of
    status Unknown unless its predecessor is in [processing] or
    [pending]. *)
Lemma submit_block_step block (s : State W) :
  exclusive s →
  (identifier block ∈ blocks_pending s → parkable s block) →
  (∀ p, block_cache s !! previous_block_id block = Some p →
        status (fields s p) = BlockStatus.Unknown →
        previous_block_id block ∈ blocks_processing s
        ∨ previous_block_id block ∈ blocks_pending s) →
  ∃ s1, submit_block block s = Return tt s1
    ∧ exclusive s1
    ∧ heap s1 = heap s
    ∧ block_cache s1 = block_cache s
    ∧ blocks_processing s ⊆ blocks_processing s1
    ∧ blocks_pending s ⊆ blocks_pending s1
    ∧ ∀ i, i ∈ blocks_pending s1 →
        i ∈ blocks_pending s ∨ (i = identifier block ∧ parkable s block).
Proof.
  intros Hexcl Hparked Hunknown. unfold exclusive, parkable in *.
  unfold submit_block, _add_block_to_pending, in_process, in_pending,
    append_if_unique, pending_add, processing_add, _update_gauges,
    thread_pool_submit, get_status.
  unfold identifier in *. unfold_M. simpl.
  case_bool_decide as Hproc; simpl.
  { eexists. split; [reflexivity|]. simpl. set_solver. }
  case_bool_decide as Hprevproc; simpl.
  { destruct (blocks_pending_descendants s !! previous_block_id block) as [l|];
      [case_bool_decide|]; eexists; (split; [reflexivity|]); simpl;
      repeat split; try done; set_solver. }
  case_bool_decide as Hprevpend; simpl.
  { destruct (blocks_pending_descendants s !! previous_block_id block) as [l|];
      [case_bool_decide|]; eexists; (split; [reflexivity|]); simpl;
      repeat split; try done; set_solver. }
  destruct (block_cache s !! previous_block_id block) as [p|] eqn:Hcache; simpl.
  2:{ destruct (blocks_pending_descendants s !! previous_block_id block) as [l|];
        [case_bool_decide|]; eexists; (split; [reflexivity|]); simpl;
        repeat split; try done; set_solver. }
  destruct (decide (status (fields s p) = BlockStatus.Unknown)) as [Hst|Hst]; simpl.
  { destruct (Hunknown p eq_refl Hst); done. }
  eexists. split; [reflexivity|]. simpl.
  assert (header_signature block ∉ blocks_pending s).
  { intros Hin. destruct (Hparked Hin) as [?|[?|?]]; done. }
  repeat split; try done; set_solver.
Qed.

Lemma submit_blocks_exclusive blocks (s : State W) :
  exclusive s →
  (∀ b, b ∈ blocks → identifier b ∈ blocks_pending s → parkable s b) →
  (∀ b1 b2, b1 ∈ blocks → b2 ∈ blocks → identifier b1 = identifier b2 →
            previous_block_id b1 = previous_block_id b2) →
  (∀ b p, b ∈ blocks → block_cache s !! previous_block_id b = Some p →
          status (fields s p) = BlockStatus.Unknown →
          previous_block_id b ∈ blocks_processing s
          ∨ previous_block_id b ∈ blocks_pending s) →
  ∃ s', submit_blocks_for_verification blocks s = Return tt s' ∧ exclusive s'.
Proof.
  unfold submit_blocks_for_verification.
  revert s. induction blocks as [|x blocks IH]; intros s Hexcl Hparked Hid Hunknown.
  { by exists s. }
  destruct (submit_block_step x s Hexcl) as
    (s1 & Hstep & Hexcl1 & Hheap & Hcache & Hproc & Hpend & Hnew).
  { apply Hparked. apply list_elem_of_here. }
  { intros p. apply Hunknown. apply list_elem_of_here. }
  assert (Hmono : ∀ b, parkable s b → parkable s1 b).
  { unfold parkable. rewrite Hcache. set_solver. }
  destruct (IH s1 Hexcl1) as (s' & Hrun & Hexcl').
  { intros b Hb Hin. destruct (Hnew _ Hin) as [Hold|[Heq Hx]].
    - apply Hmono, Hparked; [by apply list_elem_of_further|done].
    - apply Hmono. unfold parkable in *.
      assert (Hprev : previous_block_id b = previous_block_id x).
      { apply Hid; [by apply list_elem_of_further|apply list_elem_of_here|done]. }
      by rewrite Hprev. }
  { intros b1 b2 H1 H2. apply Hid; by apply list_elem_of_further. }
  { intros b p Hb Hc Hst. rewrite Hcache in Hc.
    unfold fields in Hst. rewrite Hheap in Hst.
    destruct (Hunknown b p (list_elem_of_further _ _ _ Hb) Hc Hst); set_solver. }
  exists s'. split; [|done]. simpl.
  by rewrite (bind_of_Return _ _ _ _ _ Hstep).
Qed.

(** C2, as amended.  The cascade resolver adds nothing to [processing]
    nor to [pending], so it keeps [processing ∩ pending = ∅] however it
    ends.  A submission keeps it when every submitted block that is
    already in [pending] still has its predecessor in [processing], in
    [pending] or missing from the block cache, so that it is parked
    again (submitted blocks with the same identifier having the same
    predecessor), blocks whose predecessor is cached with status Unknown
    while neither in [processing] nor in [pending] being left aside. *)
Theorem exclusivity_preserved (s : State W) (Hexcl : exclusive s) :
  (∀ block, exclusive (final_state s (_release_pending block s)))
  ∧ (∀ blocks,
       (∀ b, b ∈ blocks → identifier b ∈ blocks_pending s → parkable s b) →
       (∀ b1 b2, b1 ∈ blocks → b2 ∈ blocks → identifier b1 = identifier b2 →
                 previous_block_id b1 = previous_block_id b2) →
       (∀ b p, b ∈ blocks → block_cache s !! previous_block_id b = Some p →
               status (fields s p) = BlockStatus.Unknown →
               previous_block_id b ∈ blocks_processing s
               ∨ previous_block_id b ∈ blocks_pending s) →
       ∃ s', submit_blocks_for_verification blocks s = Return tt s' ∧ exclusive s').
Proof.
  split.
  - intros block. pose proof (release_pending_shrinks block s) as H.
    unfold post in H.
    destruct (_release_pending block s); simpl; [| |done];
      by eapply shrinks_exclusive.
  - intros blocks Hparked Hid Hunknown.
    by apply submit_blocks_exclusive.
Qed.

(** ** The worker *)

(** *** Programs without a fuelled loop never run out of fuel *)

Lemma total_ret {A : Type} (a : A) : total (W:=W) (mret a).
Proof. by intros s. Qed.

Lemma total_raise {A : Type} (e : exn) : total (@raise W A e).
Proof. by intros s. Qed.

Lemma total_gets {A : Type} (f : State W → A) : total (gets f).
Proof. by intros s. Qed.

Lemma total_modify (f : State W → State W) : total (modify f).
Proof. by intros s. Qed.

Lemma total_call {A : Type} (op : W → Result A * W) : total (call op).
Proof. intros s. unfold call. by destruct (op (world s)) as [[a|e] w]. Qed.

Lemma total_bind {A B : Type} (m : @M W A) (k : A → @M W B) :
  total m → (∀ a, total (k a)) → total (m ≫= k).
Proof.
  intros Hm Hk s. unfold_M. specialize (Hm s).
  destruct (m s) as [a s1| |]; [apply Hk|done|done].
Qed.

Lemma total_try {A : Type} (m : @M W A) (h : exn → @M W A) :
  total m → (∀ e, total (h e)) → total (try_except m h).
Proof.
  intros Hm Hh s. unfold_M. specialize (Hm s).
  destruct (m s) as [|e s1|]; [done|apply Hh|done].
Qed.

Lemma total_for_each {A : Type} (l : list A) (body : A → @M W unit) :
  (∀ x, total (body x)) → total (W:=W) (for_each l body).
Proof.
  intros Hb. induction l as [|x l IH]; simpl; [apply total_ret|].
  apply total_bind; auto.
Qed.

Lemma total_for_generated {A : Type} (g : Generated A) (body : A → @M W unit) :
  (∀ x, total (body x)) → total (W:=W) (for_generated g body).
Proof.
  intros Hb. unfold for_generated. apply total_bind; [by apply total_for_each|].
  intros _. destruct g.2; [apply total_raise|apply total_ret].
Qed.

Create HintDb total discriminated.

Ltac total_go :=
  repeat first
  [ apply total_ret
  | apply total_raise
  | apply total_gets
  | apply total_modify
  | apply total_call
  | apply total_bind; [|intros ?]
  | apply total_try; [|intros ?]
  | apply total_for_each; intros ?
  | apply total_for_generated; intros ?
  | solve [auto 1 with total]
  | match goal with
    | |- total (match ?x with _ => _ end) => destruct x
    end
  | progress autounfold with model
  | let s := fresh "s" in
    intros s; unfold cache_get, cache_del, processing_remove,
      pending_remove, descendants_pop, read_chain_head;
    repeat case_inner; done ].

Lemma collect_results_total scheduler blkw bs h :
  total (collect_results E scheduler blkw bs h).
Proof. revert h. induction bs as [|batch bs IH]; intros h; simpl; total_go. Qed.

Lemma batch_signers_authorized_total bs prev_state_root :
  total (batch_signers_authorized E bs prev_state_root).
Proof. induction bs as [|batch bs IH]; simpl; total_go. Qed.

#[local] Hint Resolve collect_results_total batch_signers_authorized_total : total.

Lemma validate_block_total block : total (validate_block E block).
Proof. total_go. Qed.

Lemma submit_blocks_total blocks : total (@submit_blocks_for_verification W blocks).
Proof. total_go. Qed.

(** *** The loops of the cascade resolver end within their fuel *)

Lemma invalidate_pending_enough_fuel fuel work (s : State W) :
  length work + length (parked (blocks_pending_descendants s)) ≤ fuel →
  invalidate_pending fuel work s ≠ OutOfFuel.
Proof.
  revert work s. induction fuel as [|fuel IH]; intros work s Hfuel.
  { destruct work as [|w0 work]; [done|simpl in Hfuel; lia]. }
  simpl. destruct (list_pop work) as [[rest b]|] eqn:Hpop; [|done].
  apply list_pop_Some in Hpop as ->.
  unfold set_status, pending_remove, descendants_pop. unfold_M. simpl.
  case_bool_decide; [|done]. simpl.
  apply IH. simpl. by apply (cascade_fuel_step rest b).
Qed.

Lemma remove_pending_enough_fuel fuel work (s : State W) :
  length work + length (parked (blocks_pending_descendants s)) ≤ fuel →
  remove_pending fuel work s ≠ OutOfFuel.
Proof.
  revert work s. induction fuel as [|fuel IH]; intros work s Hfuel.
  { destruct work as [|w0 work]; [done|simpl in Hfuel; lia]. }
  simpl. destruct (list_pop work) as [[rest b]|] eqn:Hpop; [|done].
  apply list_pop_Some in Hpop as ->.
  unfold pending_remove, cache_del, descendants_pop. unfold_M. simpl.
  case_bool_decide; [|done]. simpl.
  destruct (block_cache s !! identifier b); [|done]. simpl.
  apply IH. simpl. by apply (cascade_fuel_step rest b).
Qed.

Lemma release_pending_total block : total (@_release_pending W block).
Proof.
  intros s.
  assert (Hready : ∀ l : list BlockWrapper,
    total (W:=W) (for_each l (λ blk, pending_remove (identifier blk)))).
  { intros l. total_go. }
  unfold _release_pending, processing_remove, get_status, descendants_pop.
  unfold_M. simpl.
  destruct (bool_decide (identifier block ∈ blocks_processing s)); simpl;
    destruct (status _); simpl;
    lazymatch goal with
    | |- context [invalidate_pending ?f ?w ?s0] =>
        pose proof (invalidate_pending_enough_fuel f w s0 ltac:(done));
        by destruct (invalidate_pending f w s0)
    | |- context [remove_pending ?f ?w ?s0] =>
        pose proof (remove_pending_enough_fuel f w s0 ltac:(done));
        by destruct (remove_pending f w s0)
    | |- context [for_each ?l ?body ?s0] =>
        pose proof (Hready l s0); by destruct (for_each l body s0)
    end.
Qed.

(** *** Nothing but the last statement of the worker calls back *)

Lemma batch_signers_authorized_emits P bs prev_state_root :
  steps (emits P) (batch_signers_authorized E bs prev_state_root).
Proof. induction bs as [|batch bs IH]; simpl; steps_go solve_emits. Qed.

Lemma invalidate_pending_no_callback fuel work :
  steps (emits (λ ev, ¬ is_callback ev)) (@invalidate_pending W fuel work).
Proof.
  revert work. induction fuel as [|fuel IH]; intros work; simpl;
    steps_go solve_emits.
Qed.

Lemma remove_pending_no_callback fuel work :
  steps (emits (λ ev, ¬ is_callback ev)) (@remove_pending W fuel work).
Proof. apply remove_pending_emits. intros level. simpl. tauto. Qed.

#[local] Hint Resolve batch_signers_authorized_emits
  invalidate_pending_no_callback remove_pending_no_callback : steps.

Lemma validate_and_log_no_callback block :
  steps (emits (λ ev, ¬ is_callback ev)) (validate_and_log E block).
Proof. steps_go solve_emits. Qed.


#[local] Hint Resolve validate_and_log_no_callback : steps.


(** *** The worker returns when the chain head does not move *)

Lemma validate_and_log_returns block (s : State W) :
  ∃ s', validate_and_log E block s = Return tt s'.
Proof.
  unfold validate_and_log, try_except.
  pose proof (total_bind (validate_block E block) (λ _, log LogInfo)
                (validate_block_total block) (λ _, total_modify _) s) as Htotal.
  destruct ((validate_block E block;; log LogInfo) s) as [[] s'|e s'|]; [by eauto| |done].
  destruct e; by eexists.
Qed.

Lemma release_and_submit_returns block (s : State W) :
  ∃ s', try_except
          (blocks_now_ready ← _release_pending block;
           submit_blocks_for_verification blocks_now_ready)
          (λ _, log LogException) s = Return tt s'.
Proof.
  unfold try_except.
  pose proof (total_bind (_release_pending block) submit_blocks_for_verification
                (release_pending_total block) submit_blocks_total s) as Htotal.
  destruct ((_release_pending block ≫= submit_blocks_for_verification) s)
    as [[] s'|e s'|]; [by eauto|by eexists|done].
Qed.


(** The last statement of the job: the invocation is recorded whether the
    function of the caller returns or raises. *)
Lemma callback_run block (s : State W) :
  let s1 := set_trace (trace s ++ [EvCallback block]) s in
  (∃ s', callback E block s = Return tt s' ∧ trace s' = trace s ++ [EvCallback block])
  ∨ (∃ e s', callback E block s = Raised e s'
             ∧ trace s' = trace s ++ [EvCallback block]
             ∧ call (user_callback E block) s1 = Raised e s').
Proof.
  unfold callback, call. unfold_M. simpl.
  destruct (user_callback E block (world s)) as [[[]|e] w]; simpl.
  - left. by eexists.
  - right. by eexists _, _.
Qed.





(** * Further properties *)

(** ** Inversion of runs *)

Lemma try_Return {A : Type} (m : M A) (h : exn → M A) (s s' : State W) a :
  try_except m h s = Return a s' →
  m s = Return a s' ∨ ∃ e s1, m s = Raised e s1 ∧ h e s1 = Return a s'.
Proof. unfold try_except. destruct (m s); naive_solver. Qed.

Lemma try_Raised {A : Type} (m : M A) (h : exn → M A) (s s' : State W) e :
  try_except m h s = Raised e s' →
  ∃ e1 s1, m s = Raised e1 s1 ∧ h e1 s1 = Raised e s'.
Proof. unfold try_except. destruct (m s); naive_solver. Qed.

Lemma call_Return {A : Type} (op : W → Result A * W) (s s' : State W) a :
  call op s = Return a s' → trace s' = trace s.
Proof. unfold call. destruct (op (world s)) as [[] ?]; naive_solver. Qed.

(** ** Permission and rule checks *)

(** X1. A genesis block (block number 0) passes the permission check and
    the on-chain rules without the permission verifier, the settings view
    or the rule enforcer being consulted: both checks return [True] and
    leave the state as it was, whatever the collaborators are. *)
Theorem genesis_skips_permissions_and_rules (blkw : BlockWrapper)
    (prev_state_root : string) (s : State W) (Hgenesis : block_num blkw = 0) :
  _validate_permissions E blkw prev_state_root s = Return true s
  ∧ _validate_on_chain_rules E blkw prev_state_root s = Return true s.
Proof.
  unfold _validate_permissions, _validate_on_chain_rules.
  rewrite Hgenesis. by rewrite !decide_False by (intros H; by apply H).
Qed.

Lemma batch_signers_authorized_prefix bs bs' prev_state_root (s s' : State W) :
  batch_signers_authorized E bs prev_state_root s = Return false s' →
  batch_signers_authorized E (bs ++ bs') prev_state_root s = Return false s'.
Proof.
  revert s. induction bs as [|batch bs IH]; intros s; simpl; [done|].
  unfold mbind, M_bind, bind.
  destruct (call (is_batch_signer_authorized E batch prev_state_root) s)
    as [[] s1|e s1|]; [apply IH|done|done|done].
Qed.

(** X2. The permission check stops at the first batch whose signer is not
    authorized: when it answers [False] for a block, it gives the same
    answer, in the same state, for every block of the same number whose
    batches start with the batches of that block. *)
Theorem permission_check_stops_at_first_refusal (b1 b2 : BlockWrapper)
    (more : list Batch) (prev_state_root : string) (s s' : State W)
    (Hnum : block_num b2 = block_num b1)
    (Hbatches : batches b2 = batches b1 ++ more)
    (Hrefused : _validate_permissions E b1 prev_state_root s = Return false s') :
  _validate_permissions E b2 prev_state_root s = Return false s'.
Proof.
  unfold _validate_permissions in *. rewrite Hnum, Hbatches.
  destruct (decide (block_num b1 ≠ 0)); [|done].
  by apply batch_signers_authorized_prefix.
Qed.

(** ** The single block validator *)

(** X3. A block whose status is decided is not validated again: on a
    Valid block [validate_block] returns at once, on an Invalid block it
    raises the [BlockValidationFailure] for a block already invalid; in
    both cases the state is the one before, so that no collaborator has
    been called and no status written. *)
Theorem decided_block_not_revalidated (blkw : BlockWrapper) (s : State W)
    (Hdecided : status (fields s blkw) ≠ BlockStatus.Unknown) :
  validate_block E blkw s =
    if decide (status (fields s blkw) = BlockStatus.Valid)
    then Return tt s
    else Raised (BlockValidationFailure AlreadyInvalid) s.
Proof.
  unfold validate_block, get_status. unfold_M.
  by destruct (status (fields s blkw)).
Qed.

Lemma fields_set_status blkw v (s : State W) :
  status (fields
    (set_trace (trace s ++ [EvSetStatus (obj blkw) v])
       (set_heap (<[obj blkw := write_status v (fields s blkw)]> (heap s)) s))
    blkw) = v.
Proof. unfold fields. simpl. by rewrite lookup_insert_eq. Qed.

(** X4. A block of status Unknown whose predecessor is in the block cache
    with the status Invalid is made Invalid without being looked at:
    [validate_block] raises the [BlockValidationFailure] for an invalid
    predecessor, the only effect is the write of Invalid to the status of
    the block, and no collaborator has been called. *)
Theorem invalid_predecessor_invalidates (blkw prev : BlockWrapper) (s : State W)
    (Hunknown : status (fields s blkw) = BlockStatus.Unknown)
    (Hcached : block_cache s !! previous_block_id blkw = Some prev)
    (Hprev : status (fields s prev) = BlockStatus.Invalid) :
  ∃ s', validate_block E blkw s
        = Raised (BlockValidationFailure InvalidPredecessor) s'
    ∧ world s' = world s
    ∧ status (fields s' blkw) = BlockStatus.Invalid
    ∧ new_events s s' = [EvSetStatus (obj blkw) BlockStatus.Invalid].
Proof.
  unfold validate_block, validate_block_body, get_status, cache_get, set_status.
  unfold_M. rewrite Hunknown, Hcached. simpl. rewrite Hprev. simpl.
  eexists. split; [reflexivity|]. split; [done|].
  split; [apply fields_set_status|]. by apply new_events_app.
Qed.

(** X5. A block of status Unknown whose predecessor is in the block cache
    with the status Unknown cannot be validated yet: [validate_block]
    raises the [BlockValidationError] for a block validated before its
    predecessor, the status of the block is Unknown afterwards, the only
    effect is that write, and no collaborator has been called. *)
Theorem unknown_predecessor_defers (blkw prev : BlockWrapper) (s : State W)
    (Hunknown : status (fields s blkw) = BlockStatus.Unknown)
    (Hcached : block_cache s !! previous_block_id blkw = Some prev)
    (Hprev : status (fields s prev) = BlockStatus.Unknown) :
  ∃ s', validate_block E blkw s
        = Raised (BlockValidationError BeforePredecessor) s'
    ∧ world s' = world s
    ∧ status (fields s' blkw) = BlockStatus.Unknown
    ∧ new_events s s' = [EvSetStatus (obj blkw) BlockStatus.Unknown].
Proof.
  unfold validate_block, validate_block_body, get_status, cache_get, set_status.
  unfold_M. rewrite Hunknown, Hcached. simpl. rewrite Hprev. simpl.
  eexists. split; [reflexivity|]. split; [done|].
  split; [apply fields_set_status|]. by apply new_events_app.
Qed.

(** X6. A block of status Unknown whose predecessor is not the null block
    and is missing from the block cache cannot be validated:
    [validate_block] raises the [BlockValidationError] for a missing
    predecessor, the status of the block is Unknown afterwards, the only
    effect is that write, and no collaborator has been called. *)
Theorem missing_predecessor_defers (blkw : BlockWrapper) (s : State W)
    (Hunknown : status (fields s blkw) = BlockStatus.Unknown)
    (Hmissing : block_cache s !! previous_block_id blkw = None)
    (Hnotnull : previous_block_id blkw ≠ NULL_BLOCK_IDENTIFIER E) :
  ∃ s', validate_block E blkw s
        = Raised (BlockValidationError MissingPredecessor) s'
    ∧ world s' = world s
    ∧ status (fields s' blkw) = BlockStatus.Unknown
    ∧ new_events s s' = [EvSetStatus (obj blkw) BlockStatus.Unknown].
Proof.
  unfold validate_block, validate_block_body, _get_previous_block_state_root,
    get_status, cache_get, set_status.
  unfold_M. rewrite Hunknown. simpl. rewrite Hmissing. simpl.
  rewrite decide_False by done. rewrite Hmissing. simpl.
  eexists. split; [reflexivity|]. split; [done|].
  split; [apply fields_set_status|]. by apply new_events_app.
Qed.

(** X7. A block is only accepted on top of a Valid predecessor: when
    [validate_block] returns on a block that entered with the status
    Unknown, the predecessor of the block is in the block cache with the
    status Valid, or it is missing from the cache and is the null
    block. *)
Theorem accepted_block_has_valid_predecessor (blkw : BlockWrapper) (s s' : State W)
    (Hunknown : status (fields s blkw) = BlockStatus.Unknown)
    (Hrun : validate_block E blkw s = Return tt s') :
  match block_cache s !! previous_block_id blkw with
  | Some prev => status (fields s prev) = BlockStatus.Valid
  | None => previous_block_id blkw = NULL_BLOCK_IDENTIFIER E
  end.
Proof.
  unfold validate_block, get_status in Hrun.
  apply bind_Return in Hrun as (v & s0 & Hv & Hrun). injection Hv as <- <-.
  rewrite Hunknown in Hrun.
  apply try_Return in Hrun as [Hrun|(e & s1 & _ & Hh)].
  2:{ destruct e; apply bind_Return in Hh as ([] & s2 & _ & Hh); done. }
  unfold validate_block_body in Hrun.
  apply bind_Return in Hrun as (prev_block & s1 & Hprev & Hrun).
  apply bind_Return in Hrun as ([] & s2 & Hcheck & Hrun).
  apply bind_Return in Hrun as (root & s3 & Hroot & _).
  unfold cache_get in Hprev. unfold_M.
  destruct (block_cache s !! previous_block_id blkw) as [prev|] eqn:Hcache.
  - injection Hprev as <- <-.
    unfold get_status in Hcheck. unfold_M.
    by destruct (status (fields s prev)).
  - injection Hprev as <- <-. injection Hcheck as <-.
    unfold _get_previous_block_state_root, cache_get in Hroot.
    destruct (decide (previous_block_id blkw = NULL_BLOCK_IDENTIFIER E)); [done|].
    unfold_M. by rewrite Hcache in Hroot.
Qed.

(** *** What the validation of a block leaves alone *)

#[local] Instance same_trackers_preorder : PreOrder (@same_trackers W).
Proof.
  split.
  - by intros s.
  - intros s1 s2 s3 (?&?&?&?&?) (?&?&?&?&?). unfold same_trackers.
    repeat split; congruence.
Qed.

#[local] Instance writes_only_preorder o : PreOrder (@writes_only W o).
Proof.
  split.
  - by intros s o'.
  - intros s1 s2 s3 H1 H2 o' Ho. by rewrite H2, H1.
Qed.

Ltac solve_trackers := unfold same_trackers; simpl; done.

Ltac solve_writes :=
  let Ho := fresh "Ho" in
  unfold writes_only; intros ? Ho; simpl; rewrite ?lookup_insert_ne by done; done.

Lemma collect_results_same_trackers scheduler blkw bs h :
  steps same_trackers (collect_results E scheduler blkw bs h).
Proof.
  revert h. induction bs as [|batch bs IH]; intros h; simpl;
    steps_go solve_trackers.
Qed.

Lemma collect_results_writes_only scheduler blkw bs h :
  steps (writes_only (obj blkw)) (collect_results E scheduler blkw bs h).
Proof.
  revert h. induction bs as [|batch bs IH]; intros h; simpl;
    steps_go solve_writes.
Qed.

Lemma batch_signers_authorized_same_trackers bs prev_state_root :
  steps same_trackers (batch_signers_authorized E bs prev_state_root).
Proof. induction bs as [|batch bs IH]; simpl; steps_go solve_trackers. Qed.

Lemma batch_signers_authorized_writes_only o bs prev_state_root :
  steps (writes_only o) (batch_signers_authorized E bs prev_state_root).
Proof. induction bs as [|batch bs IH]; simpl; steps_go solve_writes. Qed.

#[local] Hint Resolve collect_results_same_trackers collect_results_writes_only
  batch_signers_authorized_same_trackers batch_signers_authorized_writes_only : steps.

Lemma validate_block_same_trackers blkw : steps same_trackers (validate_block E blkw).
Proof. steps_go solve_trackers. Qed.

Lemma validate_block_writes_only blkw :
  steps (writes_only (obj blkw)) (validate_block E blkw).
Proof. steps_go solve_writes. Qed.

(** X8. Whichever way [validate_block] ends, it has left the block cache,
    the three trackers and the queue of the worker pool as they were, and
    it has changed no field of any block wrapper other than the block it
    was given. *)
Theorem validate_block_frame (blkw : BlockWrapper) (s : State W) :
  let s' := final_state s (validate_block E blkw s) in
  same_trackers s s' ∧ writes_only (obj blkw) s s'.
Proof.
  pose proof (validate_block_same_trackers blkw s) as H1.
  pose proof (validate_block_writes_only blkw s) as H2.
  unfold post in H1, H2. simpl.
  destruct (validate_block E blkw s); simpl; [done|done|].
  split; reflexivity.
Qed.

(** *** The status is written once *)

Lemma validate_block_body_writes_from blkw (s0 s : State W) :
  emits (λ ev, ¬ is_set_status ev) s0 s →
  post (validate_block_body E blkw) s
    (λ _ s', ∃ tr0,
       trace s' = trace s0 ++ tr0 ++ [EvSetStatus (obj blkw) BlockStatus.Valid]
       ∧ Forall (λ ev, ¬ is_set_status ev) tr0
       ∧ status (fields s' blkw) = BlockStatus.Valid)
    (λ _, emits (λ ev, ¬ is_set_status ev) s0).
Proof.
  intros H0. unfold validate_block_body.
  repeat (lazymatch goal with |- post (_ ≫= _) _ _ _ => idtac end;
          apply (post_bind_steps (emits (λ ev, ¬ is_set_status ev)));
          [assumption | steps_go solve_emits | intros ? ? ?]).
  match goal with H : emits _ s0 ?s1 |- post _ ?s1 _ _ =>
    destruct H as (tr0 & Htr & Hall) end.
  unfold post, set_status. unfold_M. simpl.
  exists tr0. rewrite Htr, (assoc_L (++)). split; [done|]. split; [done|].
  apply fields_set_status.
Qed.

(** X9. [validate_block] writes a status at most once, as the last thing
    it does, and to the block it was given: whichever way it ends, the
    events it has added to the trace hold no write of a status, or they
    end with the write of the status the block has afterwards to that
    block and hold no other write. *)
Theorem validate_block_writes_status_once (blkw : BlockWrapper) (s : State W) :
  let s' := final_state s (validate_block E blkw s) in
  Forall (λ ev, ¬ is_set_status ev) (new_events s s')
  ∨ ∃ tr0, new_events s s' = tr0 ++ [EvSetStatus (obj blkw) (status (fields s' blkw))]
           ∧ Forall (λ ev, ¬ is_set_status ev) tr0.
Proof.
  assert (Hnone : Forall (λ ev, ¬ is_set_status ev) (new_events s s)).
  { unfold new_events. rewrite drop_all. constructor. }
  pose proof (validate_block_body_writes_from blkw s s ltac:(reflexivity)) as Hbody.
  unfold post in Hbody.
  unfold validate_block, get_status. unfold_M. simpl.
  destruct (status (fields s blkw)); simpl; [|left; exact Hnone|left; exact Hnone].
  destruct (validate_block_body E blkw s) as [[] s1|e s1|]; simpl;
    [| |left; exact Hnone].
  - destruct Hbody as (tr0 & Htr & Hall & Hst). right. exists tr0.
    rewrite Hst. split; [by apply new_events_app|done].
  - destruct Hbody as (tr0 & Htr & Hall).
    assert (Hwrite : ∀ v,
      let s2 := set_trace (trace s1 ++ [EvSetStatus (obj blkw) v])
                  (set_heap (<[obj blkw := write_status v (fields s1 blkw)]> (heap s1)) s1) in
      ∃ tr1, new_events s s2 = tr1 ++ [EvSetStatus (obj blkw) (status (fields s2 blkw))]
             ∧ Forall (λ ev, ¬ is_set_status ev) tr1).
    { intros v s2. exists tr0. subst s2. rewrite fields_set_status.
      split; [|done]. apply new_events_app. simpl.
      by rewrite Htr, <- (assoc_L (++)). }
    assert (Hlog : Forall (λ ev, ¬ is_set_status ev)
      (new_events s (set_trace (trace s1 ++ [EvLog LogException]) s1))).
    { rewrite (new_events_app s _ (tr0 ++ [EvLog LogException]))
        by (simpl; by rewrite Htr, <- (assoc_L (++))).
      apply Forall_app. split; [done|]. constructor; [simpl; tauto|constructor]. }
    destruct e; simpl; first [left; exact Hlog | right; apply Hwrite].
Qed.

(** ** The batch validator: what the scheduler is fed, and the verdict *)

Lemma on_exception_no_return {A : Type} scheduler e (s s' : State W) (a : A) :
  on_exception E scheduler e s ≠ Return a s'.
Proof.
  unfold on_exception, cancel_scheduler, call. unfold_M.
  destruct e, scheduler as [sch|]; simpl; try done;
    by destruct (cancel E sch (world s)) as [[[]|] ?].
Qed.

Lemma add_batches_trace sch root (l : list (Batch * bool)) (s s' : State W) :
  for_each l (λ '(batch, has_more),
    if (has_more : bool)
    then scheduler_add_batch E sch batch None
    else scheduler_add_batch E sch batch (Some root)) s = Return tt s' →
  trace s' = trace s ++
    zip_with (EvAddBatch sch) (batch_header_signature <$> l.*1)
      ((λ has_more : bool, if has_more then None else Some root) <$> l.*2).
Proof.
  revert s. induction l as [|[batch has_more] l IH]; intros s Hrun; simpl in *.
  - injection Hrun as <-. by rewrite app_nil_r.
  - apply bind_Return in Hrun as ([] & s1 & Hadd & Hrun).
    apply IH in Hrun. rewrite Hrun. clear Hrun IH.
    assert (Htr : trace s1 = trace s ++
      [EvAddBatch sch (batch_header_signature batch)
         (if has_more then None else Some root)]).
    { destruct has_more; unfold scheduler_add_batch in Hadd;
        apply bind_Return in Hadd as ([] & s0 & Hemit & Hcall);
        apply call_Return in Hcall; injection Hemit as <-; by rewrite Hcall. }
    by rewrite Htr, <- (assoc_L (++)).
Qed.

(** X10. When the [try] statement of [_validate_batches_in_block] returns,
    what has happened is, in this order: the [ChainCommitState] of the
    predecessor was built, the scheduler was created on the previous
    state root and started, and every batch of the block was added to it
    in the order of the block, the last one with the declared state root
    of the block as its hint and the others without a hint. *)
Theorem scheduler_fed_in_block_order (blkw : BlockWrapper) (prev_state_root : string)
    (s s' : State W) (sch : nat)
    (Hrun : schedule_batches E blkw prev_state_root s = Return sch s') :
  new_events s s' =
    [EvChainCommitState (previous_block_id blkw);
     EvCreateScheduler sch prev_state_root;
     EvExecute sch]
    ++ zip_with (EvAddBatch sch) (batch_header_signature <$> batches blkw)
         (replicate (length (batches blkw) - 1) None ++ [Some (state_root_hash blkw)]).
Proof.
  unfold schedule_batches in Hrun.
  apply bind_Return in Hrun as (sch0 & s1 & Hcreate & Hrun).
  apply try_Return in Hcreate as [Hcreate|(e & sx & _ & Hh)];
    [|by apply on_exception_no_return in Hh].
  apply bind_Return in Hcreate as ([] & sa & Ha & Hcreate). injection Ha as <-.
  apply bind_Return in Hcreate as ([] & sb & Hb & Hcreate). apply call_Return in Hb.
  apply bind_Return in Hcreate as (sch1 & sc & Hc & Hcreate). apply call_Return in Hc.
  apply bind_Return in Hcreate as ([] & sd & Hd & Hcreate). injection Hd as <-.
  injection Hcreate as -> <-.
  apply bind_Return in Hrun as ([] & s2 & Hfeed & Hrun). injection Hrun as -> <-.
  apply try_Return in Hfeed as [Hfeed|(e & sx & _ & Hh)];
    [|by apply on_exception_no_return in Hh].
  apply bind_Return in Hfeed as ([] & se & He & Hfeed). injection He as <-.
  apply bind_Return in Hfeed as ([] & sf & Hf & Hfeed). apply call_Return in Hf.
  apply bind_Return in Hfeed as ([] & sg & Hg & Hfeed). apply call_Return in Hg.
  apply bind_Return in Hfeed as ([] & sh & Hh & Hfeed). apply call_Return in Hh.
  apply bind_Return in Hfeed as ([] & si & Hi & Hfeed). apply call_Return in Hi.
  unfold for_generated in Hfeed.
  apply bind_Return in Hfeed as ([] & sj & Hj & Hfeed).
  destruct (batches blkw) as [|b0 bs] eqn:Hbs; [done|].
  simpl in Hfeed. injection Hfeed as <-.
  apply add_batches_trace in Hj. simpl fst in Hj.
  rewrite look_ahead_loop_fst, look_ahead_loop_snd in Hj.
  apply new_events_app. rewrite Hj, Hi, Hh, Hg, Hf. simpl. rewrite Hc, Hb. simpl.
  rewrite Nat.sub_0_r, <- !(assoc_L (++)). simpl. do 4 f_equal.
  by rewrite fmap_app, fmap_replicate.
Qed.

Lemma collect_results_Return scheduler blkw bs h (s s' : State W) h' :
  collect_results E scheduler blkw bs h s = Return h' s' →
  world s' = world s
  ∧ (∀ x, x ∈ bs → batch_valid E scheduler (world s) x)
  ∧ h' = final_state_hash E scheduler (world s) bs h.
Proof.
  revert h s. induction bs as [|x bs IH]; intros h s Hrun.
  - injection Hrun as <- <-. split; [done|]. split; [|done].
    intros x Hx. by apply elem_of_nil in Hx.
  - simpl in Hrun. unfold_M.
    destruct (get_batch_execution_result E scheduler (batch_header_signature x) (world s))
      as [r|] eqn:Hr; [|done].
    destruct (is_valid r) eqn:Hv; [|done].
    unfold extend_execution_results, add_num_transactions in Hrun. unfold_M.
    apply IH in Hrun as (Hw & Hall & Hh). simpl in *.
    split; [done|]. split.
    + intros y Hy. apply elem_of_cons in Hy as [->|Hy]; [by exists r|by apply Hall].
    + unfold final_state_hash. simpl. by rewrite Hr.
Qed.

(** X11. The scheduler has completed ([schedule_batches] and then finalize
    and complete returned, in the state [s1]).  The block passes batch
    validation exactly when every one of its batches has a valid result
    and the state hash of the last batch is the state root the block
    declares. *)
Theorem batches_accepted_iff (blkw : BlockWrapper) (prev_state_root : string)
    (s s0 s1 : State W) (sch : nat)
    (Hne : batches blkw ≠ [])
    (Hsched : schedule_batches E blkw prev_state_root s = Return sch s0)
    (Hfin : finalize_and_complete E sch s0 = Return tt s1) :
  (∃ s', _validate_batches_in_block E blkw prev_state_root s = Return tt s')
  ↔ ((∀ x, x ∈ batches blkw → batch_valid E sch (world s1) x)
     ∧ final_state_hash E sch (world s1) (batches blkw) None
       = Some (state_root_hash blkw)).
Proof.
  destruct (validate_batches_after_completion _ _ _ _ _ _ Hne Hsched Hfin) as [-> _].
  unfold check_results. split.
  - intros (s' & Hrun).
    apply bind_Return in Hrun as (h & s2 & Hcollect & Hrun).
    apply collect_results_Return in Hcollect as (_ & Hall & ->).
    split; [done|]. by destruct (decide _) as [|Heq%dec_stable].
  - intros [Hall Hhash].
    destruct (collect_results_all sch blkw (world s1) (batches blkw) None s1
                eq_refl Hall) as (s' & Hrun & _).
    exists s'. rewrite (bind_of_Return _ _ _ _ _ Hrun).
    rewrite Hhash. by rewrite decide_False by (intros H; by apply H).
Qed.

(** X12. The scheduler has completed in the state [s1], every batch of the
    block has a valid result and the last state hash is the declared
    state root.  Then [_validate_batches_in_block] returns, the world of
    the collaborators is the one the scheduler completed in, and the
    block has gained the transaction results of all its batches, in the
    order of the batches, and the number of their transactions. *)
Theorem accepted_block_gains_results (blkw : BlockWrapper) (prev_state_root : string)
    (s s0 s1 : State W) (sch : nat)
    (Hne : batches blkw ≠ [])
    (Hsched : schedule_batches E blkw prev_state_root s = Return sch s0)
    (Hfin : finalize_and_complete E sch s0 = Return tt s1)
    (Hall : ∀ x, x ∈ batches blkw → batch_valid E sch (world s1) x)
    (Hhash : final_state_hash E sch (world s1) (batches blkw) None
             = Some (state_root_hash blkw)) :
  ∃ s', _validate_batches_in_block E blkw prev_state_root s = Return tt s'
    ∧ world s' = world s1
    ∧ execution_results (fields s' blkw) =
        execution_results (fields s blkw)
          ++ accumulated_results E sch (world s1) (batches blkw)
    ∧ num_transactions (fields s' blkw) =
        num_transactions (fields s blkw) + accumulated_transactions (batches blkw).
Proof.
  destruct (validate_batches_after_completion _ _ _ _ _ _ Hne Hsched Hfin) as [-> <-].
  destruct (collect_results_all sch blkw (world s1) (batches blkw) None s1
              eq_refl Hall) as (s' & Hrun & Hres).
  exists s'. unfold check_results. rewrite (bind_of_Return _ _ _ _ _ Hrun).
  rewrite Hhash, decide_False by (intros H; by apply H).
  split; [done|]. split; [|done].
  by apply collect_results_Return in Hrun as (Hw & _).
Qed.

(** X13. A chain-commit error (a duplicate batch, a duplicate transaction
    or a missing dependency) never leaves the [try] statement of
    [_validate_batches_in_block] as it is, as long as cancelling a
    scheduler does not itself fail: it leaves as the
    [BlockValidationFailure] that carries it. *)
Theorem chain_commit_error_is_converted (blkw : BlockWrapper) (prev_state_root : string)
    (s s' : State W) (e : exn)
    (Hcancel : ∀ sch w, (cancel E sch w).1 = Ok tt)
    (Hrun : schedule_batches E blkw prev_state_root s = Raised e s') :
  ∀ err, e ≠ ChainCommit err.
Proof.
  assert (Hconv : ∀ (A : Type) scheduler e1 (s1 : State W),
    on_exception E (A:=A) scheduler e1 s1 = Raised e s' → ∀ err, e ≠ ChainCommit err).
  { intros A scheduler e1 s1 Hh err ->.
    unfold on_exception, cancel_scheduler, call in Hh. unfold_M.
    destruct scheduler as [sch0|].
    - pose proof (Hcancel sch0 (world s1)) as Hc. revert Hh.
      destruct e1; simpl;
        destruct (cancel E sch0 (world s1)) as [res w]; simpl in Hc; subst res;
        simpl; congruence.
    - destruct e1; simpl in Hh; congruence. }
  unfold schedule_batches in Hrun.
  apply bind_Raised in Hrun as [Hrun|(sch & s1 & _ & Hrun)].
  - apply try_Raised in Hrun as (e1 & s1 & _ & Hh). by eapply Hconv.
  - apply bind_Raised in Hrun as [Hrun|([] & s2 & _ & Hrun)]; [|done].
    apply try_Raised in Hrun as (e1 & s2 & _ & Hh). by eapply Hconv.
Qed.

(** ** The coordinator *)

#[local] Instance only_tracks_preorder : PreOrder (@only_tracks W).
Proof.
  split.
  - by intros s.
  - intros s1 s2 s3 (?&?&?&?&?) (?&?&?&?&?). unfold only_tracks.
    repeat split; try congruence; set_solver.
Qed.

(** What parking a block does to the validator. *)
Lemma add_block_to_pending_effect block (s : State W) :
  ∃ s', _add_block_to_pending block s = Return tt s'
    ∧ world s' = world s ∧ heap s' = heap s ∧ block_cache s' = block_cache s
    ∧ blocks_processing s' = blocks_processing s
    ∧ thread_pool s' = thread_pool s
    ∧ blocks_pending s' = {[identifier block]} ∪ blocks_pending s
    ∧ (parked_wf s → parked_wf s').
Proof.
  unfold _add_block_to_pending, pending_add, append_if_unique. unfold_M. simpl.
  eexists. split; [reflexivity|].
  destruct (blocks_pending_descendants s !! previous_block_id block) as [l|] eqn:Hl;
    [case_bool_decide as Hin|]; simpl; repeat (split; [done|]).
  - intros Hwf k l' Hk; simpl in Hk. destruct (Hwf k l' Hk) as [Hnd Hmem].
    split; [done|]. intros b Hb. destruct (Hmem b Hb). simpl. set_solver.
  - intros Hwf k l' Hk; simpl in Hk. destruct (decide (k = previous_block_id block)) as [->|Hne].
    + rewrite lookup_insert_eq in Hk. injection Hk as <-.
      destruct (Hwf _ _ Hl) as [Hnd Hmem]. split.
      * rewrite fmap_app. apply NoDup_app. split; [done|]. split.
        -- intros i Hi Hi'. apply list_elem_of_singleton in Hi'. by subst i.
        -- apply NoDup_singleton.
      * intros b Hb. apply elem_of_app in Hb as [Hb|Hb].
        -- destruct (Hmem b Hb). set_solver.
        -- apply list_elem_of_singleton in Hb as ->. simpl. set_solver.
    + rewrite lookup_insert_ne in Hk by done.
      destruct (Hwf k l' Hk) as [Hnd Hmem].
      split; [done|]. intros b Hb. destruct (Hmem b Hb). simpl. set_solver.
  - intros Hwf k l' Hk; simpl in Hk. destruct (decide (k = previous_block_id block)) as [->|Hne].
    + rewrite lookup_insert_eq in Hk. injection Hk as <-. split.
      * apply NoDup_singleton.
      * intros b Hb. apply list_elem_of_singleton in Hb as ->. simpl. set_solver.
    + rewrite lookup_insert_ne in Hk by done.
      destruct (Hwf k l' Hk) as [Hnd Hmem].
      split; [done|]. intros b Hb. destruct (Hmem b Hb). simpl. set_solver.
Qed.

(** X14. Parking a block twice is the same as parking it once: the second
    call finds the block in [pending] and its identifier in the list of
    its predecessor, and changes nothing. *)
Theorem add_block_to_pending_idempotent (block : BlockWrapper) (s : State W) :
  (_add_block_to_pending block;; _add_block_to_pending block) s
  = _add_block_to_pending block s.
Proof.
  unfold _add_block_to_pending, pending_add, append_if_unique. unfold_M. simpl.
  f_equal.
  destruct (blocks_pending_descendants s !! previous_block_id block) as [l|] eqn:Hl;
    [case_bool_decide as Hin|]; simpl.
  - rewrite Hl. rewrite bool_decide_eq_true_2 by done.
    unfold set_blocks_pending. simpl. f_equal. set_solver.
  - rewrite lookup_insert_eq. rewrite bool_decide_eq_true_2 by set_solver.
    unfold set_blocks_pending_descendants, set_blocks_pending. simpl. f_equal.
    set_solver.
  - rewrite lookup_insert_eq. rewrite bool_decide_eq_true_2 by set_solver.
    unfold set_blocks_pending_descendants, set_blocks_pending. simpl. f_equal.
    set_solver.
Qed.

Lemma queued_ok_frame (s s' : State W) :
  thread_pool s' = thread_pool s →
  blocks_processing s ⊆ blocks_processing s' →
  queued_ok s → queued_ok s'.
Proof. intros Hq Hp [Hnd Hin]. split; rewrite Hq; [done|]. set_solver. Qed.

Lemma queued_ok_dispatch (s s' : State W) block :
  identifier block ∉ blocks_processing s →
  thread_pool s' = thread_pool s ++ [block] →
  blocks_processing s' = {[identifier block]} ∪ blocks_processing s →
  queued_ok s → queued_ok s'.
Proof.
  intros Hfresh Hq Hp [Hnd Hin]. split; rewrite Hq.
  - rewrite fmap_app. apply NoDup_app. split; [done|]. split; [|apply NoDup_singleton].
    intros i Hi Hi'. apply list_elem_of_singleton in Hi' as ->.
    apply list_elem_of_fmap in Hi as (b & Hb & Hb'). rewrite Hb in Hfresh.
    by apply Hfresh, Hin.
  - intros b Hb. rewrite Hp. apply elem_of_app in Hb as [Hb|Hb].
    + apply Hin in Hb. set_solver.
    + apply list_elem_of_singleton in Hb as ->. set_solver.
Qed.

Lemma parked_wf_frame (s s' : State W) :
  blocks_pending_descendants s' = blocks_pending_descendants s →
  blocks_pending s ⊆ blocks_pending s' →
  parked_wf s → parked_wf s'.
Proof.
  intros Hm Hp Hwf k l Hk. rewrite Hm in Hk. destruct (Hwf k l Hk) as [Hnd Hmem].
  split; [done|]. intros b Hb. destruct (Hmem b Hb). set_solver.
Qed.

(** One iteration of the loop of [submit_blocks_for_verification]. *)
Lemma submit_block_effect block (s : State W) :
  ∃ s' new, submit_block block s = Return tt s'
    ∧ only_tracks s s'
    ∧ (queued_ok s → queued_ok s')
    ∧ (parked_wf s → parked_wf s')
    ∧ thread_pool s' = thread_pool s ++ new
    ∧ new `sublist_of` [block]
    ∧ (∀ x, x ∈ new → identifier x ∉ blocks_processing s).
Proof.
  pose proof (add_block_to_pending_effect block) as Hpark.
  unfold submit_block. revert Hpark. generalize (@_add_block_to_pending W block).
  intros park Hpark.
  assert (Hparked : ∀ s0 : State W,
    world s0 = world s → heap s0 = heap s → block_cache s0 = block_cache s →
    blocks_processing s0 = blocks_processing s → blocks_pending s0 = blocks_pending s →
    blocks_pending_descendants s0 = blocks_pending_descendants s →
    thread_pool s0 = thread_pool s →
    ∃ s', park s0 = Return tt s'
      ∧ only_tracks s s'
      ∧ (queued_ok s → queued_ok s')
      ∧ (parked_wf s → parked_wf s')
      ∧ thread_pool s' = thread_pool s
      ∧ blocks_processing s' = blocks_processing s).
  { intros s0 Hw Hh Hc Hp Hpe Hm Hq.
    destruct (Hpark s0) as (s' & Hrun & Hw' & Hh' & Hc' & Hp' & Hq' & Hpe' & Hwf').
    exists s'. split; [done|]. split.
    { unfold only_tracks. rewrite Hw', Hh', Hc', Hp', Hpe', Hw, Hh, Hc, Hp, Hpe.
      repeat split; try done; set_solver. }
    split.
    { apply queued_ok_frame; [congruence|]. rewrite Hp', Hp. done. }
    split; [|split; congruence].
    intros Hwf. apply Hwf'. revert Hwf. apply parked_wf_frame; [done|].
    by rewrite Hpe. }
  unfold in_process, in_pending, get_status, processing_add, _update_gauges,
    thread_pool_submit. unfold_M. simpl.
  assert (Hskip : ∀ s' : State W,
    thread_pool s' = thread_pool s →
    thread_pool s' = thread_pool s ++ []
    ∧ [] `sublist_of` [block]
    ∧ (∀ x, x ∈ @nil BlockWrapper → identifier x ∉ blocks_processing s)).
  { intros s' Hq. rewrite app_nil_r. split; [done|]. split; [apply sublist_nil_l|].
    intros x Hx. by apply elem_of_nil in Hx. }
  case_bool_decide as Hproc; simpl.
  { eexists _, []. split; [reflexivity|].
    split; [by unfold only_tracks|]. split; [by apply queued_ok_frame|].
    split; [by apply parked_wf_frame|]. by apply Hskip. }
  case_bool_decide as Hprevproc; simpl.
  { edestruct (Hparked (set_trace (trace s ++ [EvLog LogDebug]) s))
      as (s' & Hrun & Hot & Hq & Hwf & Htp & _); try done.
    exists s', []. rewrite Hrun. repeat (split; [done|]). by apply Hskip. }
  case_bool_decide as Hprevpend; simpl.
  { edestruct (Hparked (set_trace (trace s ++ [EvLog LogDebug]) s))
      as (s' & Hrun & Hot & Hq & Hwf & Htp & _); try done.
    exists s', []. rewrite Hrun. repeat (split; [done|]). by apply Hskip. }
  destruct (block_cache s !! previous_block_id block) as [p|] eqn:Hcache; simpl.
  2:{ edestruct (Hparked (set_trace (trace s ++ [EvLog LogError]) s))
        as (s' & Hrun & Hot & Hq & Hwf & Htp & _); try done.
      exists s', []. rewrite Hrun. repeat (split; [done|]). by apply Hskip. }
  assert (Hfresh : identifier block ∉ blocks_processing s) by done.
  assert (Hnew : [block] `sublist_of` [block]
    ∧ (∀ x, x ∈ [block] → identifier x ∉ blocks_processing s)).
  { split; [done|]. intros x Hx. by apply list_elem_of_singleton in Hx as ->. }
  destruct (decide (status (fields s p) = BlockStatus.Unknown)) as [Hst|Hst]; simpl.
  - edestruct (Hparked (set_trace (trace s ++ [EvLog LogWarning]) s))
      as (s' & Hrun & Hot & Hq & Hwf & Htp & Hpr); try done.
    rewrite Hrun. simpl. eexists _, [block]. split; [reflexivity|].
    destruct Hot as (Hw' & Hh' & Hc' & Hp' & Hpe'). simpl.
    split; [unfold only_tracks; simpl; repeat split; try done; set_solver|].
    split.
    { intros Hok. eapply queued_ok_dispatch; [exact Hfresh| | |exact Hok]; simpl;
        by rewrite ?Htp, ?Hpr. }
    split.
    { intros Hok. specialize (Hwf Hok). revert Hwf. by apply parked_wf_frame. }
    split; [by rewrite Htp|done].
  - eexists _, [block]. split; [reflexivity|]. simpl.
    split; [unfold only_tracks; simpl; repeat split; try done; set_solver|].
    split; [by apply (queued_ok_dispatch _ _ block)|].
    split; [by apply parked_wf_frame|done].
Qed.

Lemma submit_blocks_effect blocks (s : State W) :
  ∃ s' new, submit_blocks_for_verification blocks s = Return tt s'
    ∧ only_tracks s s'
    ∧ (queued_ok s → queued_ok s')
    ∧ (parked_wf s → parked_wf s')
    ∧ thread_pool s' = thread_pool s ++ new
    ∧ new `sublist_of` blocks
    ∧ (∀ x, x ∈ new → identifier x ∉ blocks_processing s).
Proof.
  unfold submit_blocks_for_verification. revert s.
  induction blocks as [|b blocks IH]; intros s.
  { exists s, []. rewrite app_nil_r. do 6 (split; [done|]).
    intros x Hx. by apply elem_of_nil in Hx. }
  destruct (submit_block_effect b s) as (s1 & new1 & Hrun1 & Hot1 & Hq1 & Hwf1 & Htp1 & Hsub1 & Hfresh1).
  destruct (IH s1) as (s' & new2 & Hrun2 & Hot2 & Hq2 & Hwf2 & Htp2 & Hsub2 & Hfresh2).
  exists s', (new1 ++ new2). simpl. rewrite (bind_of_Return _ _ _ _ _ Hrun1).
  split; [done|]. split; [by etrans|]. split; [auto|]. split; [auto|].
  split; [by rewrite Htp2, Htp1, (assoc_L (++))|]. split.
  - by apply (sublist_app _ [b]).
  - intros x Hx. apply elem_of_app in Hx as [Hx|Hx]; [by apply Hfresh1|].
    apply Hfresh2 in Hx. destruct Hot1 as (_ & _ & _ & Hp & _). set_solver.
Qed.

(** X15. A submission always returns.  It leaves the collaborators, the
    block wrappers and the block cache as they were, and it takes nothing
    out of [processing] or [pending]. *)
Theorem submission_only_tracks (blocks : list BlockWrapper) (s : State W) :
  ∃ s', submit_blocks_for_verification blocks s = Return tt s' ∧ only_tracks s s'.
Proof.
  destruct (submit_blocks_effect blocks s) as (s' & new & Hrun & Hot & _).
  by exists s'.
Qed.

(** X16. No block is queued twice.  When the jobs waiting in the worker
    pool are for distinct blocks that are all in [processing], this is
    still so after a submission; the jobs that were waiting are still
    there, in the same order, and the jobs added after them are for
    blocks of the submission, in the order of the submission, none of
    which was in [processing] before. *)
Theorem submission_queues_once (blocks : list BlockWrapper) (s : State W)
    (Hqueued : queued_ok s) :
  ∃ s' new, submit_blocks_for_verification blocks s = Return tt s'
    ∧ queued_ok s'
    ∧ thread_pool s' = thread_pool s ++ new
    ∧ new `sublist_of` blocks
    ∧ (∀ x, x ∈ new → identifier x ∉ blocks_processing s).
Proof.
  destruct (submit_blocks_effect blocks s)
    as (s' & new & Hrun & _ & Hq & _ & Htp & Hsub & Hfresh).
  exists s', new. auto.
Qed.

(** X17. When every list of the multimap holds blocks of distinct
    identifiers whose predecessor is the key of the list and which are
    in [pending], this is still so after a submission. *)
Theorem submission_keeps_parked_wf (blocks : list BlockWrapper) (s : State W)
    (Hwf : parked_wf s) :
  ∃ s', submit_blocks_for_verification blocks s = Return tt s' ∧ parked_wf s'.
Proof.
  destruct (submit_blocks_effect blocks s) as (s' & new & Hrun & _ & _ & Hwf' & _).
  exists s'. auto.
Qed.

Lemma submissions_effect (submissions : list (list BlockWrapper)) (s : State W) :
  queued_ok s → parked_wf s →
  ∃ s', for_each submissions submit_blocks_for_verification s = Return tt s'
    ∧ queued_ok s' ∧ parked_wf s'.
Proof.
  revert s. induction submissions as [|blocks submissions IH]; intros s Hq Hwf.
  { by exists s. }
  destruct (submit_blocks_effect blocks s) as (s1 & new & Hrun & _ & Hq1 & Hwf1 & _).
  destruct (IH s1 (Hq1 Hq) (Hwf1 Hwf)) as (s' & Hrun' & Hq' & Hwf').
  exists s'. simpl. by rewrite (bind_of_Return _ _ _ _ _ Hrun).
Qed.

(** X18. A validator that has just been constructed tracks nothing, and
    whatever is submitted to it, in however many submissions, the jobs
    queued for the worker pool are for distinct blocks that are all in
    [processing], and every list of the multimap holds blocks of distinct
    identifiers, keyed by their predecessor and all in [pending]. *)
Theorem new_validator_invariants (w : W) (h : gmap nat BlockFields)
    (cache : gmap string BlockWrapper) (submissions : list (list BlockWrapper)) :
  let s := BlockValidator_init w h cache in
  exclusive s
  ∧ ∃ s', for_each submissions submit_blocks_for_verification s = Return tt s'
      ∧ queued_ok s' ∧ parked_wf s'.
Proof.
  intros s. split; [unfold exclusive; simpl; set_solver|].
  apply submissions_effect.
  - split; simpl; [apply NoDup_nil_2|]. intros b Hb. by apply elem_of_nil in Hb.
  - intros k l Hk. simpl in Hk. by rewrite lookup_empty in Hk.
Qed.

(** ** The cascade resolver on a Valid block *)

Lemma pending_remove_all (l : list BlockWrapper) (s : State W) :
  NoDup (identifier <$> l) →
  (∀ b, b ∈ l → identifier b ∈ blocks_pending s) →
  ∃ s', for_each l (λ blk, pending_remove (identifier blk)) s = Return tt s'
    ∧ world s' = world s ∧ heap s' = heap s ∧ block_cache s' = block_cache s
    ∧ blocks_processing s' = blocks_processing s
    ∧ blocks_pending_descendants s' = blocks_pending_descendants s
    ∧ thread_pool s' = thread_pool s ∧ trace s' = trace s
    ∧ blocks_pending s' = blocks_pending s ∖ list_to_set (identifier <$> l).
Proof.
  revert s. induction l as [|x l IH]; intros s Hnd Hin.
  { exists s. simpl. repeat split; try done. set_solver. }
  rewrite fmap_cons in Hnd. apply NoDup_cons in Hnd as [Hx Hnd].
  destruct (IH (set_blocks_pending (blocks_pending s ∖ {[identifier x]}) s) Hnd)
    as (s' & Hrun & Hw & Hh & Hc & Hp & Hm & Hq & Htr & Hpe).
  { intros b Hb. simpl. apply elem_of_difference. split; [apply Hin; set_solver|].
    intros Heq%elem_of_singleton. apply Hx. rewrite <- Heq.
    apply list_elem_of_fmap. by exists b. }
  exists s'. split.
  { simpl. erewrite bind_of_Return; [exact Hrun|]. unfold pending_remove.
    by rewrite bool_decide_eq_true_2 by (apply Hin; set_solver). }
  simpl in *. repeat (split; [done|]).
  rewrite Hpe. set_solver.
Qed.

Lemma release_pending_valid_effect block (s : State W) :
  status (fields s block) = BlockStatus.Valid →
  let l := default [] (blocks_pending_descendants s !! identifier block) in
  NoDup (identifier <$> l) →
  (∀ b, b ∈ l → identifier b ∈ blocks_pending s) →
  ∃ s', _release_pending block s = Return l s'
    ∧ world s' = world s ∧ heap s' = heap s ∧ block_cache s' = block_cache s
    ∧ thread_pool s' = thread_pool s
    ∧ blocks_processing s' = blocks_processing s ∖ {[identifier block]}
    ∧ blocks_pending s' = blocks_pending s ∖ list_to_set (identifier <$> l)
    ∧ blocks_pending_descendants s' = delete (identifier block) (blocks_pending_descendants s).
Proof.
  intros Hvalid l Hnd Hin.
  assert (Hrest : ∀ s1 : State W,
    heap s1 = heap s → blocks_pending s1 = blocks_pending s →
    blocks_pending_descendants s1 = blocks_pending_descendants s →
    ∃ s', (v ← get_status block;
           match v with
           | BlockStatus.Valid =>
               blocks_now_ready ← descendants_pop (identifier block);
               for_each blocks_now_ready (λ blk, pending_remove (identifier blk));;
               mret blocks_now_ready
           | BlockStatus.Invalid =>
               blocks_now_invalid ← descendants_pop (identifier block);
               s ← gets id;
               invalidate_pending
                 (length blocks_now_invalid + length (parked (blocks_pending_descendants s)))
                 blocks_now_invalid;;
               mret []
           | BlockStatus.Unknown =>
               blocks_to_remove ← descendants_pop (identifier block);
               s ← gets id;
               remove_pending
                 (length blocks_to_remove + length (parked (blocks_pending_descendants s)))
                 blocks_to_remove;;
               mret []
           end) s1 = Return l s'
      ∧ world s' = world s1 ∧ heap s' = heap s1 ∧ block_cache s' = block_cache s1
      ∧ thread_pool s' = thread_pool s1
      ∧ blocks_processing s' = blocks_processing s1
      ∧ blocks_pending s' = blocks_pending s ∖ list_to_set (identifier <$> l)
      ∧ blocks_pending_descendants s' =
          delete (identifier block) (blocks_pending_descendants s)).
  { intros s1 Hh Hpe Hm. unfold get_status, descendants_pop. unfold_M.
    unfold fields in *. rewrite Hh, Hvalid, Hm. fold l.
    destruct (pending_remove_all l
      (set_blocks_pending_descendants
         (delete (identifier block) (blocks_pending_descendants s)) s1) Hnd)
      as (s' & Hrun & Hw' & Hh' & Hc' & Hp' & Hm' & Hq' & Htr' & Hpe').
    { intros b Hb. simpl. rewrite Hpe. by apply Hin. }
    rewrite Hrun. exists s'. simpl in *. rewrite Hpe in Hpe'.
    repeat split; congruence. }
  unfold _release_pending, processing_remove. unfold_M. simpl.
  case_bool_decide as Hproc; simpl.
  - edestruct (Hrest (set_blocks_processing (blocks_processing s ∖ {[identifier block]})
                 (set_trace (trace s ++ [EvLog LogDebug]) s)))
      as (s' & Hrun & Hw' & Hh' & Hc' & Hq' & Hp' & Hpe' & Hm'); try done.
    exists s'. split; [exact Hrun|]. simpl in *. by repeat split.
  - edestruct (Hrest (set_trace (trace (set_trace (trace s ++ [EvLog LogDebug]) s)
                                   ++ [EvLog LogWarning])
                 (set_trace (trace s ++ [EvLog LogDebug]) s)))
      as (s' & Hrun & Hw' & Hh' & Hc' & Hq' & Hp' & Hpe' & Hm'); try done.
    exists s'. split; [exact Hrun|]. simpl in *. repeat (split; [done|]).
    split; [|done]. rewrite Hp'. set_solver.
Qed.

(** X19. The cascade resolver runs on a block whose status is Valid and
    whose parked children have distinct identifiers and are in
    [pending].  It returns exactly the children of the block, in the
    order in which they were parked; the block has left [processing], the
    children have left [pending], and the multimap has lost the list of
    the block and nothing else, so that the grandchildren stay parked
    under their own predecessors.  The collaborators, the block wrappers,
    the block cache and the queue of the worker pool are as they were. *)
Theorem release_pending_valid (block : BlockWrapper) (s : State W)
    (Hstatus : status (fields s block) = BlockStatus.Valid)
    (Hids : NoDup (identifier <$>
              default [] (blocks_pending_descendants s !! identifier block)))
    (Hpending : ∀ b, b ∈ default [] (blocks_pending_descendants s !! identifier block) →
                     identifier b ∈ blocks_pending s) :
  ∃ s', _release_pending block s
        = Return (default [] (blocks_pending_descendants s !! identifier block)) s'
    ∧ world s' = world s ∧ heap s' = heap s ∧ block_cache s' = block_cache s
    ∧ thread_pool s' = thread_pool s
    ∧ blocks_processing s' = blocks_processing s ∖ {[identifier block]}
    ∧ blocks_pending s' = blocks_pending s ∖ list_to_set (identifier <$>
        default [] (blocks_pending_descendants s !! identifier block))
    ∧ blocks_pending_descendants s' =
        delete (identifier block) (blocks_pending_descendants s).
Proof. by apply release_pending_valid_effect. Qed.

(** X20. Whichever way the cascade resolver ends, and whatever the status
    of the block, the block is not in [processing] afterwards (also when
    it was not there before, which is only logged), and the resolver has
    come to an end: its loops do not run forever. *)
Theorem release_pending_leaves_processing (block : BlockWrapper) (s : State W) :
  _release_pending block s ≠ OutOfFuel
  ∧ identifier block ∉ blocks_processing (final_state s (_release_pending block s)).
Proof.
  split; [apply release_pending_total|].
  set (rest := (v ← get_status block;
           match v with
           | BlockStatus.Valid =>
               blocks_now_ready ← descendants_pop (identifier block);
               for_each blocks_now_ready (λ blk, pending_remove (identifier blk));;
               mret blocks_now_ready
           | BlockStatus.Invalid =>
               blocks_now_invalid ← descendants_pop (identifier block);
               s ← gets id;
               invalidate_pending
                 (length blocks_now_invalid + length (parked (blocks_pending_descendants s)))
                 blocks_now_invalid;;
               mret []
           | BlockStatus.Unknown =>
               blocks_to_remove ← descendants_pop (identifier block);
               s ← gets id;
               remove_pending
                 (length blocks_to_remove + length (parked (blocks_pending_descendants s)))
                 blocks_to_remove;;
               mret []
           end) : @M W (list BlockWrapper)).
  assert (Hrest : steps shrinks rest) by (subst rest; steps_go solve_shrinks).
  assert (Hrun : ∃ s1 : State W, _release_pending block s = rest s1
                   ∧ identifier block ∉ blocks_processing s1).
  { unfold _release_pending, processing_remove. fold rest. unfold_M. simpl.
    case_bool_decide as Hproc; simpl; eexists; (split; [reflexivity|]); simpl;
      set_solver. }
  destruct Hrun as (s1 & Hrun & Hout). specialize (Hrest s1). unfold post in Hrest.
  pose proof (release_pending_total block s) as Htotal. rewrite Hrun in *.
  destruct (rest s1) as [a s'|e s'|]; simpl; [| |done];
    destruct Hrest as [Hp _]; set_solver.
Qed.

(** ** Dispatch *)

(** A block that is not tracked, and whose predecessor is cached with a
    decided status and is not tracked either, is dispatched. *)
Lemma submit_block_dispatch block pb (s : State W) :
  identifier block ∉ blocks_processing s →
  previous_block_id block ∉ blocks_processing s →
  previous_block_id block ∉ blocks_pending s →
  block_cache s !! previous_block_id block = Some pb →
  status (fields s pb) ≠ BlockStatus.Unknown →
  ∃ s', submit_block block s = Return tt s'
    ∧ world s' = world s ∧ heap s' = heap s ∧ block_cache s' = block_cache s
    ∧ thread_pool s' = thread_pool s ++ [block]
    ∧ blocks_processing s' = {[identifier block]} ∪ blocks_processing s
    ∧ blocks_pending s' = blocks_pending s
    ∧ blocks_pending_descendants s' = blocks_pending_descendants s
    ∧ trace s' = trace s ++
        [EvLog LogDebug;
         EvGauges (size (blocks_pending s))
                  (size ({[identifier block]} ∪ blocks_processing s))].
Proof.
  intros Hfresh Hprev Hpend Hcache Hst.
  unfold submit_block, in_process, in_pending, get_status, processing_add,
    _update_gauges, thread_pool_submit. unfold_M. simpl.
  rewrite bool_decide_eq_false_2 by done. simpl.
  rewrite bool_decide_eq_false_2 by done. simpl.
  rewrite bool_decide_eq_false_2 by done. simpl.
  rewrite Hcache. simpl. rewrite decide_False by done. simpl.
  eexists. split; [reflexivity|]. simpl. repeat (split; [done|]).
  by rewrite <- (assoc_L (++)).
Qed.

Lemma submit_blocks_dispatch blocks (s : State W) :
  NoDup (identifier <$> blocks) →
  (∀ b, b ∈ blocks →
     (identifier b ∉ blocks_processing s)
     ∧ (previous_block_id b ∉ blocks_processing s)
     ∧ (previous_block_id b ∉ identifier <$> blocks)
     ∧ (previous_block_id b ∉ blocks_pending s)
     ∧ ∃ pb, block_cache s !! previous_block_id b = Some pb
             ∧ status (fields s pb) ≠ BlockStatus.Unknown) →
  ∃ s', submit_blocks_for_verification blocks s = Return tt s'
    ∧ world s' = world s ∧ heap s' = heap s ∧ block_cache s' = block_cache s
    ∧ thread_pool s' = thread_pool s ++ blocks
    ∧ blocks_processing s' = list_to_set (identifier <$> blocks) ∪ blocks_processing s
    ∧ blocks_pending s' = blocks_pending s
    ∧ blocks_pending_descendants s' = blocks_pending_descendants s
    ∧ (blocks ≠ [] →
       last (trace s') = Some (EvGauges (size (blocks_pending s'))
                                        (size (blocks_processing s')))).
Proof.
  unfold submit_blocks_for_verification. revert s.
  induction blocks as [|x blocks IH]; intros s Hnd Hall.
  { exists s. simpl. rewrite app_nil_r. repeat split; try done. set_solver. }
  rewrite fmap_cons in Hnd. apply NoDup_cons in Hnd as [Hx Hnd].
  destruct (Hall x) as (Hx1 & Hx2 & Hx3 & Hx4 & pb & Hx5 & Hx6); [set_solver|].
  destruct (submit_block_dispatch x pb s Hx1 Hx2 Hx4 Hx5 Hx6)
    as (s1 & Hrun1 & Hw1 & Hh1 & Hc1 & Hq1 & Hp1 & Hpe1 & Hm1 & Htr1).
  destruct (IH s1 Hnd) as (s' & Hrun & Hw & Hh & Hc & Hq & Hp & Hpe & Hm & Hlast).
  { intros b Hb.
    destruct (Hall b) as (Hb1 & Hb2 & Hb3 & Hb4 & pb' & Hb5 & Hb6); [set_solver|].
    rewrite fmap_cons in Hb3. apply not_elem_of_cons in Hb3 as [Hb3 Hb3'].
    rewrite Hp1, Hpe1, Hc1. unfold fields. rewrite Hh1.
    split.
    { apply not_elem_of_union. split; [|done].
      intros Heq%elem_of_singleton. apply Hx. rewrite <- Heq.
      apply list_elem_of_fmap. by exists b. }
    split; [set_solver|]. split; [done|]. split; [done|]. by exists pb'. }
  exists s'. simpl. rewrite (bind_of_Return _ _ _ _ _ Hrun1).
  split; [exact Hrun|].
  assert (Hfinal : last (trace s') = Some (EvGauges (size (blocks_pending s'))
                                             (size (blocks_processing s')))).
  { destruct blocks as [|y blocks']; [|by apply Hlast].
    injection Hrun as <-. rewrite Htr1, Hpe1, Hp1.
    by rewrite cons_middle, (assoc_L (++)), last_snoc. }
  split; [congruence|]. split; [congruence|]. split; [congruence|].
  split; [by rewrite Hq, Hq1, <- (assoc_L (++))|].
  split; [rewrite Hp, Hp1; set_solver|].
  split; [congruence|]. split; [congruence|]. by intros _.
Qed.

(** X21. Blocks with distinct identifiers, none of them in [processing],
    none of them the predecessor of another, whose predecessors are in
    the block cache with a decided status and are neither in
    [processing] nor in [pending], are all dispatched: the submission
    appends them to the queue of the worker pool in the order given and
    adds them to [processing]; nothing is parked. *)
Theorem submission_dispatches_ready_blocks (blocks : list BlockWrapper) (s : State W)
    (Hids : NoDup (identifier <$> blocks))
    (Hready : ∀ b, b ∈ blocks →
       (identifier b ∉ blocks_processing s)
       ∧ (previous_block_id b ∉ blocks_processing s)
       ∧ (previous_block_id b ∉ identifier <$> blocks)
       ∧ (previous_block_id b ∉ blocks_pending s)
       ∧ ∃ pb, block_cache s !! previous_block_id b = Some pb
               ∧ status (fields s pb) ≠ BlockStatus.Unknown) :
  ∃ s', submit_blocks_for_verification blocks s = Return tt s'
    ∧ thread_pool s' = thread_pool s ++ blocks
    ∧ blocks_processing s' = list_to_set (identifier <$> blocks) ∪ blocks_processing s
    ∧ blocks_pending s' = blocks_pending s
    ∧ blocks_pending_descendants s' = blocks_pending_descendants s.
Proof.
  destruct (submit_blocks_dispatch blocks s Hids Hready)
    as (s' & Hrun & _ & _ & _ & Hq & Hp & Hpe & Hm & _).
  by exists s'.
Qed.

(** X22. When the blocks of a non-empty submission are all dispatched
    (distinct identifiers, none in [processing], none the predecessor of
    another, predecessors cached with a decided status and not tracked),
    the last event of the submission is the setting of the gauges, and
    it sets them to the sizes that [pending] and [processing] have when
    the submission returns. *)
Theorem dispatch_refreshes_gauges (blocks : list BlockWrapper) (s : State W)
    (Hne : blocks ≠ [])
    (Hids : NoDup (identifier <$> blocks))
    (Hready : ∀ b, b ∈ blocks →
       (identifier b ∉ blocks_processing s)
       ∧ (previous_block_id b ∉ blocks_processing s)
       ∧ (previous_block_id b ∉ identifier <$> blocks)
       ∧ (previous_block_id b ∉ blocks_pending s)
       ∧ ∃ pb, block_cache s !! previous_block_id b = Some pb
               ∧ status (fields s pb) ≠ BlockStatus.Unknown) :
  ∃ s', submit_blocks_for_verification blocks s = Return tt s'
    ∧ last (trace s') = Some (EvGauges (size (blocks_pending s'))
                                       (size (blocks_processing s'))).
Proof.
  destruct (submit_blocks_dispatch blocks s Hids Hready)
    as (s' & Hrun & _ & _ & _ & _ & _ & _ & _ & Hlast).
  exists s'. auto.
Qed.

(** X23. The last step of a job, for a block that has been found Valid:
    when [processing] and [pending] are disjoint, the lists of the
    multimap are well formed, the block is the wrapper the block cache
    holds under its identifier and is not itself in [pending], the
    cascade resolver followed by the submission of what it returns
    dispatches every parked child of the block, in the order in which
    they were parked: the children are appended to the queue of the
    worker pool, are in [processing] and are no longer in [pending]. *)
Theorem valid_block_releases_its_children (block : BlockWrapper) (s : State W)
    (Hexcl : exclusive s) (Hwf : parked_wf s)
    (Hstatus : status (fields s block) = BlockStatus.Valid)
    (Hcached : block_cache s !! identifier block = Some block)
    (Hnotpending : identifier block ∉ blocks_pending s) :
  let children := default [] (blocks_pending_descendants s !! identifier block) in
  ∃ s', (blocks_now_ready ← _release_pending block;
         submit_blocks_for_verification blocks_now_ready) s = Return tt s'
    ∧ thread_pool s' = thread_pool s ++ children
    ∧ (∀ c, c ∈ children →
         identifier c ∈ blocks_processing s' ∧ (identifier c ∉ blocks_pending s'))
    ∧ blocks_pending_descendants s' !! identifier block = None.
Proof.
  intros children.
  assert (Hchildren : NoDup (identifier <$> children)
    ∧ ∀ b, b ∈ children →
        previous_block_id b = identifier block ∧ identifier b ∈ blocks_pending s).
  { subst children.
    destruct (blocks_pending_descendants s !! identifier block) as [l|] eqn:Hl.
    - exact (Hwf _ _ Hl).
    - split; [apply NoDup_nil_2|]. intros b Hb. by apply elem_of_nil in Hb. }
  destruct Hchildren as [Hnd Hmem].
  destruct (release_pending_valid_effect block s Hstatus Hnd)
    as (s1 & Hrun1 & Hw1 & Hh1 & Hc1 & Hq1 & Hp1 & Hpe1 & Hm1).
  { intros b Hb. by apply Hmem. }
  fold children in Hrun1, Hpe1.
  destruct (submit_blocks_dispatch children s1 Hnd)
    as (s' & Hrun & Hw & Hh & Hc & Hq & Hp & Hpe & Hm & _).
  { intros b Hb. destruct (Hmem b Hb) as [Hprev Hpend].
    rewrite Hprev, Hp1, Hpe1, Hc1. unfold fields. rewrite Hh1.
    split; [unfold exclusive in Hexcl; set_solver|]. split; [set_solver|].
    split.
    { intros Hin. apply list_elem_of_fmap in Hin as (c & Hc' & Hin).
      apply Hnotpending. rewrite Hc'. by apply Hmem. }
    split; [set_solver|]. exists block. split; [done|].
    unfold fields in Hstatus. by rewrite Hstatus. }
  exists s'. rewrite (bind_of_Return _ _ _ _ _ Hrun1).
  split; [exact Hrun|]. split; [by rewrite Hq, Hq1|]. split.
  - intros c Hc'. rewrite Hp, Hpe, Hpe1. split.
    + apply elem_of_union_l, elem_of_list_to_set, list_elem_of_fmap. by exists c.
    + intros [_ Hout]%elem_of_difference. apply Hout.
      apply elem_of_list_to_set, list_elem_of_fmap. by exists c.
  - rewrite Hm, Hm1. apply lookup_delete_eq.
Qed.

(** ** The worker *)

#[local] Instance keeps_queue_preorder b : PreOrder (@keeps_queue W b).
Proof.
  split.
  - intros s. split; [done|set_solver].
  - intros s1 s2 s3 [Hq1 Hp1] [Hq2 Hp2]. split; [congruence|set_solver].
Qed.

Ltac solve_keeps := split; simpl; [done|set_solver].

Lemma invalidate_pending_keeps_queue b fuel work :
  steps (keeps_queue b) (@invalidate_pending W fuel work).
Proof.
  revert work. induction fuel as [|fuel IH]; intros work; simpl;
    steps_go solve_keeps.
Qed.

Lemma remove_pending_keeps_queue b fuel work :
  steps (keeps_queue b) (@remove_pending W fuel work).
Proof.
  revert work. induction fuel as [|fuel IH]; intros work; simpl;
    steps_go solve_keeps.
Qed.

#[local] Hint Resolve invalidate_pending_keeps_queue remove_pending_keeps_queue : steps.

Lemma release_pending_keeps_queue block :
  steps (keeps_queue block) (@_release_pending W block).
Proof. steps_go solve_keeps. Qed.

#[local] Hint Resolve validate_block_same_trackers : steps.

Lemma validation_loop_same_trackers fuel block :
  steps same_trackers (validation_loop E fuel block).
Proof. induction fuel as [|fuel IH]; simpl; steps_go solve_trackers. Qed.

Lemma callback_queued block (s : State W) :
  queued_ok s → post (callback E block) s (λ _, queued_ok) (λ _, queued_ok).
Proof.
  intros Hq. unfold post, callback, call. unfold_M. simpl.
  destruct (user_callback E block (world s)) as [[[]|e] w]; simpl;
    revert Hq; by apply queued_ok_frame.
Qed.

Lemma process_block_verification_queued fuel block (s : State W) :
  queued_ok s →
  identifier block ∉ identifier <$> thread_pool s →
  post (process_block_verification E fuel block) s (λ _, queued_ok) (λ _, queued_ok).
Proof.
  intros Hq Hfresh. unfold process_block_verification.
  assert (Hlog : ∀ ev (s1 : State W),
    queued_ok s1 → queued_ok (set_trace (trace s1 ++ [ev]) s1)).
  { intros ev s1. by apply queued_ok_frame. }
  apply post_bind.
  apply (post_of_steps same_trackers); [apply validation_loop_same_trackers| |].
  2:{ intros e s1 (_ & Hp & _ & _ & Htp). revert Hq. apply queued_ok_frame; [done|].
      by rewrite Hp. }
  intros [] s1 (_ & Hp1 & _ & _ & Htp1).
  apply post_bind, post_try, post_bind.
  apply (post_of_steps (keeps_queue block)); [apply release_pending_keeps_queue| |].
  - intros l s2 [Htp2 Hp2].
    assert (Hq2 : queued_ok s2).
    { destruct Hq as [Hnd Hin]. split; rewrite Htp2, Htp1; [done|].
      intros b Hb. apply Hp2. rewrite Hp1. apply elem_of_difference.
      split; [by apply Hin|]. intros Heq%elem_of_singleton. apply Hfresh.
      rewrite <- Heq. apply list_elem_of_fmap. by exists b. }
    destruct (submit_blocks_effect l s2) as (s3 & new & Hrun & _ & Hq3 & _).
    unfold post at 1. rewrite Hrun. apply callback_queued. auto.
  - intros e s2 [Htp2 Hp2].
    assert (Hq2 : queued_ok s2).
    { destruct Hq as [Hnd Hin]. split; rewrite Htp2, Htp1; [done|].
      intros b Hb. apply Hp2. rewrite Hp1. apply elem_of_difference.
      split; [by apply Hin|]. intros Heq%elem_of_singleton. apply Hfresh.
      rewrite <- Heq. apply list_elem_of_fmap. by exists b. }
    unfold post at 1, log, emit, modify. apply callback_queued. auto.
Qed.

(** X24. The worker keeps the queue in order.  When the jobs waiting in
    the worker pool are for distinct blocks that are all in
    [processing], this is still so after the worker has taken the oldest
    job and run it, whichever way the job ends: the block of the job
    leaves [processing] only after it has left the queue, and the blocks
    the job dispatches were not queued. *)
Theorem worker_keeps_queue (fuel : nat) (s : State W) (Hqueued : queued_ok s) :
  queued_ok (final_state s (run_next_job E fuel s)).
Proof.
  unfold run_next_job. unfold_M. simpl.
  destruct (thread_pool s) as [|block q] eqn:Hq; simpl; [done|].
  destruct Hqueued as [Hnd Hin]. rewrite Hq in Hnd, Hin.
  rewrite fmap_cons in Hnd. apply NoDup_cons in Hnd as [Hfresh Hnd].
  assert (Hq' : queued_ok (set_thread_pool q s)).
  { split; simpl; [done|]. intros b Hb. apply Hin. set_solver. }
  pose proof (process_block_verification_queued fuel block (set_thread_pool q s)
                Hq' Hfresh) as H.
  unfold post in H.
  destruct (process_block_verification E fuel block (set_thread_pool q s));
    simpl; [done|done|].
  split; rewrite Hq; [|done]. rewrite fmap_cons. by apply NoDup_cons.
Qed.

(** X25. The chain head moved while the block was being validated (the
    worker read two chain heads with different identifiers around the
    validation).  Then the worker validates the block again, from a state
    in which the status of the block has been put back to Unknown and
    nothing else of the block has changed: the execution results and the
    transaction count that the first validation left on the block are
    still there. *)
Theorem moved_chain_head_revalidates (fuel : nat) (block h c : BlockWrapper)
    (s s1 s2 s3 : State W)
    (Hhead : read_chain_head E s = Return (Some h) s1)
    (Hvalidated : validate_and_log E block s1 = Return tt s2)
    (Hcurrent : read_chain_head E s2 = Return (Some c) s3)
    (Hmoved : identifier h ≠ identifier c) :
  ∃ s4, validation_loop E (S fuel) block s = validation_loop E fuel block s4
    ∧ world s4 = world s3
    ∧ status (fields s4 block) = BlockStatus.Unknown
    ∧ execution_results (fields s4 block) = execution_results (fields s2 block)
    ∧ num_transactions (fields s4 block) = num_transactions (fields s2 block).
Proof.
  simpl.
  rewrite (bind_of_Return _ _ _ _ _ Hhead).
  rewrite (bind_of_Return _ _ _ _ _ Hvalidated).
  rewrite (bind_of_Return _ _ _ _ _ Hcurrent).
  rewrite decide_False by done.
  unfold set_status. unfold_M. simpl.
  eexists. split; [reflexivity|]. simpl.
  assert (Hheap : heap s3 = heap s2).
  { unfold read_chain_head in Hcurrent.
    destruct (chain_head E (world s2)). by injection Hcurrent as _ <-. }
  unfold fields. simpl. rewrite lookup_insert_eq. simpl. unfold fields.
  by rewrite Hheap.
Qed.

(** A job ends with an exception only through its validation loop, and
    then only with the [AttributeError] of a chain head that is gone. *)
Lemma validation_loop_raises fuel block (s s' : State W) e :
  validation_loop E fuel block s = Raised e s' → e = AttributeError.
Proof.
  revert s. induction fuel as [|fuel IH]; intros s Hrun; simpl in Hrun; [done|].
  assert (Hread : ∀ (s0 s1 : State W) e0, read_chain_head E s0 ≠ Raised e0 s1).
  { intros s0 s1 e0. unfold read_chain_head. by destruct (chain_head E (world s0)). }
  apply bind_Raised in Hrun as [Hrun|(head & s1 & _ & Hrun)]; [by apply Hread in Hrun|].
  apply bind_Raised in Hrun as [Hrun|([] & s2 & _ & Hrun)].
  { destruct (validate_and_log_returns block s1) as [s2 Heq]. congruence. }
  destruct head as [h|]; [|done].
  apply bind_Raised in Hrun as [Hrun|(c & s3 & _ & Hrun)]; [by apply Hread in Hrun|].
  destruct c as [c|]; [|by injection Hrun as <-].
  destruct (decide (identifier h = identifier c)); [done|].
  apply bind_Raised in Hrun as [Hrun|([] & s4 & _ & Hrun)]; [done|].
  apply bind_Raised in Hrun as [Hrun|([] & s5 & _ & Hrun)]; [done|].
  by eapply IH.
Qed.

(** X26. An exception that leaves a job of the worker pool was raised
    by the user callback, the last statement of the job, or it is the
    [AttributeError] raised when the chain head, present before the
    validation, is gone after it.  In the second case the job ends before
    the cascade resolver: the block cache, the three trackers and the
    queue are as they were when the job started, so that the block of the
    job stays in [processing] and its parked descendants stay parked. *)
Theorem job_exception_is_attribute_error (fuel : nat) (block : BlockWrapper)
    (s s' : State W) (e : exn)
    (Hrun : process_block_verification E fuel block s = Raised e s') :
  (e = AttributeError ∧ same_trackers s s')
  ∨ ∃ s1, call (user_callback E block) s1 = Raised e s'.
Proof.
  unfold process_block_verification in Hrun.
  apply bind_Raised in Hrun as [Hrun|([] & s1 & _ & Hrun)].
  - left. split; [by eapply validation_loop_raises|].
    pose proof (validation_loop_same_trackers fuel block s) as H.
    unfold post in H. by rewrite Hrun in H.
  - apply bind_Raised in Hrun as [Hrun|([] & s2 & _ & Hrun)].
    { destruct (release_and_submit_returns block s1) as [s2 Heq]. congruence. }
    right.
    destruct (callback_run block s2) as [(s3 & Hcb & _)|(e3 & s3 & Hcb & _ & Hcall)];
      [congruence|].
    assert (e3 = e ∧ s3 = s') as [-> ->] by (split; congruence).
    by eexists.
Qed.

(** ** Gauges *)

Ltac solve_no_gauges :=
  first
  [ apply emits_same_trace; reflexivity
  | eapply emits_one; [reflexivity|]; simpl; intros; discriminate ].

Lemma invalidate_pending_no_gauges fuel work :
  steps (emits (λ ev, ∀ p q, ev ≠ EvGauges p q)) (@invalidate_pending W fuel work).
Proof.
  revert work. induction fuel as [|fuel IH]; intros work; simpl;
    steps_go solve_no_gauges.
Qed.

Lemma remove_pending_no_gauges fuel work :
  steps (emits (λ ev, ∀ p q, ev ≠ EvGauges p q)) (@remove_pending W fuel work).
Proof.
  revert work. induction fuel as [|fuel IH]; intros work; simpl;
    steps_go solve_no_gauges.
Qed.

#[local] Hint Resolve invalidate_pending_no_gauges remove_pending_no_gauges : steps.

Lemma release_pending_no_gauges block :
  steps (emits (λ ev, ∀ p q, ev ≠ EvGauges p q)) (@_release_pending W block).
Proof. steps_go solve_no_gauges. Qed.

(** X27. The cascade resolver never sets the gauges, although it takes
    blocks out of [processing] and [pending]: whichever way it ends, no
    event it has added to the trace is a setting of the gauges. *)
Theorem release_pending_leaves_gauges (block : BlockWrapper) (s : State W) :
  Forall (λ ev, ∀ pending processing, ev ≠ EvGauges pending processing)
    (new_events s (final_state s (_release_pending block s))).
Proof.
  pose proof (release_pending_no_gauges block s) as H. unfold post in H.
  destruct (_release_pending block s) as [l s'|e s'|]; simpl;
    [by apply emits_new_events|by apply emits_new_events|].
  unfold new_events. rewrite drop_all. constructor.
Qed.

(** ** Blocks that are not dispatched *)

(** X28. Submitting blocks that are all in [processing] changes nothing
    in the validator: each of them is skipped with a debug message. *)
Theorem resubmission_is_ignored (blocks : list BlockWrapper) (s : State W)
    (Hprocessing : ∀ b, b ∈ blocks → identifier b ∈ blocks_processing s) :
  submit_blocks_for_verification blocks s
  = Return tt (set_trace (trace s ++ replicate (length blocks) (EvLog LogDebug)) s).
Proof.
  unfold submit_blocks_for_verification. revert s Hprocessing.
  induction blocks as [|x blocks IH]; intros s Hproc; simpl.
  { unfold_M. f_equal. destruct s. unfold set_trace. simpl. by rewrite app_nil_r. }
  assert (Hskip : submit_block x s
    = Return tt (set_trace (trace s ++ [EvLog LogDebug]) s)).
  { unfold submit_block, in_process. unfold_M.
    rewrite bool_decide_eq_true_2; [done|]. apply Hproc. set_solver. }
  rewrite (bind_of_Return _ _ _ _ _ Hskip).
  rewrite IH by (intros b Hb; simpl; apply Hproc; set_solver).
  f_equal. unfold set_trace. simpl. by rewrite <- (assoc_L (++)).
Qed.

Lemma add_block_to_pending_parks block (s : State W) :
  ∃ s', _add_block_to_pending block s = Return tt s'
    ∧ thread_pool s' = thread_pool s
    ∧ blocks_processing s' = blocks_processing s
    ∧ identifier block ∈ blocks_pending s'
    ∧ ∃ l, blocks_pending_descendants s' !! previous_block_id block = Some l
           ∧ identifier block ∈ identifier <$> l.
Proof.
  unfold _add_block_to_pending, pending_add, append_if_unique. unfold_M. simpl.
  eexists. split; [reflexivity|].
  destruct (blocks_pending_descendants s !! previous_block_id block) as [l|] eqn:Hl;
    [case_bool_decide as Hin|]; simpl; (split; [done|]); (split; [done|]);
    (split; [set_solver|]).
  - by exists l.
  - exists (l ++ [block]). rewrite lookup_insert_eq. split; [done|].
    rewrite fmap_app. set_solver.
  - exists [block]. rewrite lookup_insert_eq. split; [done|]. set_solver.
Qed.

(** X29. A block that is not in [processing] and whose predecessor is in
    [processing], in [pending] or missing from the block cache is parked
    and not dispatched: after its submission it is in [pending], the list
    of its predecessor in the multimap holds a block with its identifier,
    and [processing] and the queue of the worker pool are as they were. *)
Theorem blocked_block_is_parked (block : BlockWrapper) (s : State W)
    (Hfresh : identifier block ∉ blocks_processing s)
    (Hblocked : parkable s block) :
  ∃ s', submit_blocks_for_verification [block] s = Return tt s'
    ∧ identifier block ∈ blocks_pending s'
    ∧ (∃ l, blocks_pending_descendants s' !! previous_block_id block = Some l
            ∧ identifier block ∈ identifier <$> l)
    ∧ blocks_processing s' = blocks_processing s
    ∧ thread_pool s' = thread_pool s.
Proof.
  assert (Hstep : ∃ s', submit_block block s = Return tt s'
    ∧ identifier block ∈ blocks_pending s'
    ∧ (∃ l, blocks_pending_descendants s' !! previous_block_id block = Some l
            ∧ identifier block ∈ identifier <$> l)
    ∧ blocks_processing s' = blocks_processing s
    ∧ thread_pool s' = thread_pool s).
  { pose proof (add_block_to_pending_parks block) as Hpark.
    unfold submit_block. revert Hpark. generalize (@_add_block_to_pending W block).
    intros park Hpark.
    assert (Hparked : ∀ level, ∃ s',
      park (set_trace (trace s ++ [EvLog level]) s) = Return tt s'
      ∧ identifier block ∈ blocks_pending s'
      ∧ (∃ l, blocks_pending_descendants s' !! previous_block_id block = Some l
              ∧ identifier block ∈ identifier <$> l)
      ∧ blocks_processing s' = blocks_processing s
      ∧ thread_pool s' = thread_pool s).
    { intros level.
      destruct (Hpark (set_trace (trace s ++ [EvLog level]) s))
        as (s' & Hrun & Hq & Hp & Hpe & Hm).
      exists s'. by repeat split. }
    unfold in_process, in_pending, get_status. unfold_M. simpl.
    rewrite bool_decide_eq_false_2 by done. simpl.
    case_bool_decide as Hprevproc; simpl; [apply Hparked|].
    case_bool_decide as Hprevpend; simpl; [apply Hparked|].
    destruct (block_cache s !! previous_block_id block) as [p|] eqn:Hcache; simpl;
      [|apply Hparked].
    destruct Hblocked as [?|[?|?]]; [done|done|congruence]. }
  destruct Hstep as (s' & Hrun & Hrest). exists s'. split; [|done].
  unfold submit_blocks_for_verification. simpl.
  by rewrite (bind_of_Return _ _ _ _ _ Hrun).
Qed.

End Properties.

(** * Concrete runs *)

(** ** Batch validation *)

(** The block "B4" carries no execution results on entry; its third batch
    has no result, so batch validation fails after the scheduler has
    completed, and the scheduler is not cancelled. *)
Lemma cancel_missing_after_completion :
  let s := ex_state [ex_B0] [(0, BlockStatus.Valid)] in
  ¬ (∀ e s', _validate_batches_in_block ex_env ex_B4 "root" s = Raised e s' →
       ∀ sch root, EvCreateScheduler sch root ∈ new_events s s' →
         EvCancel sch ∈ new_events s s').
Proof.
  intros s Hclaim.
  set (s' := final_state s (_validate_batches_in_block ex_env ex_B4 "root" s)).
  assert (Hrun : _validate_batches_in_block ex_env ex_B4 "root" s
    = Raised (BlockValidationFailure (InvalidBatch "bad")) s')
    by (vm_compute; reflexivity).
  assert (Hevents : new_events s s' =
    [EvChainCommitState "B0"; EvCreateScheduler 7 "root"; EvExecute 7;
     EvAddBatch 7 "a" None; EvAddBatch 7 "b" None; EvAddBatch 7 "bad" (Some "root");
     EvFinalize 7; EvComplete 7]) by (vm_compute; reflexivity).
  specialize (Hclaim _ _ Hrun 7 "root"). rewrite Hevents in Hclaim.
  assert (Hin : EvCancel 7 ∈
    [EvChainCommitState "B0"; EvCreateScheduler 7 "root"; EvExecute 7;
     EvAddBatch 7 "a" None; EvAddBatch 7 "b" None; EvAddBatch 7 "bad" (Some "root");
     EvFinalize 7; EvComplete 7]).
  { apply Hclaim. apply list_elem_of_In. simpl. tauto. }
  apply list_elem_of_In in Hin. simpl in Hin.
  repeat (destruct Hin as [Hin|Hin]; [discriminate|]). done.
Qed.

Lemma cancel_before_leaving_try_witness :
  let E := ex_env_of (Exc (ChainCommit DuplicateBatch)) in
  let s := ex_state [ex_B0] [(0, BlockStatus.Valid)] in
  let s' := final_state s (_validate_batches_in_block E ex_B4 "root" s) in
  _validate_batches_in_block E ex_B4 "root" s
    = Raised (BlockValidationFailure (FailedValidation DuplicateBatch)) s'
  ∧ new_events s s' =
      [EvChainCommitState "B0"; EvCreateScheduler 7 "root"; EvExecute 7; EvCancel 7]
  ∧ ((∀ sch, EvFinalize sch ∉ new_events s s') →
     ∀ sch root, EvCreateScheduler sch root ∈ new_events s s' →
       last (new_events s s') = Some (EvCancel sch))
  ∧ (∀ sch, EvFinalize sch ∈ new_events s s' →
     ∀ sch', EvCancel sch' ∉ new_events s s').
Proof.
  intros E s s'.
  assert (Hrun : _validate_batches_in_block E ex_B4 "root" s
    = Raised (BlockValidationFailure (FailedValidation DuplicateBatch)) s')
    by (vm_compute; reflexivity).
  split; [exact Hrun|]. split; [vm_compute; reflexivity|].
  exact (cancel_before_leaving_try E ex_B4 "root" s s' _ Hrun).
Defined.

Lemma validate_batches_empty_block_witness :
  let s := ex_state [ex_B0] [(0, BlockStatus.Valid)] in
  let blkw := ex_block 6 "B6" "B0" [] "declared" in
  batches blkw = []
  ∧ state_root_hash blkw ≠ "previous"
  ∧ _validate_batches_in_block ex_env blkw "previous" s = Return tt s.
Proof.
  intros s blkw. split; [reflexivity|]. split; [discriminate|].
  apply (validate_batches_empty_block ex_env blkw "previous" s). reflexivity.
Defined.

Lemma failure_after_completion_keeps_results_witness :
  let s := ex_state [ex_B0] [(0, BlockStatus.Valid)] in
  let s0 := final_state s (schedule_batches ex_env ex_B4 "root" s) in
  let s1 := final_state s0 (finalize_and_complete ex_env 7 s0) in
  schedule_batches ex_env ex_B4 "root" s = Return 7 s0
  ∧ finalize_and_complete ex_env 7 s0 = Return tt s1
  ∧ ∃ s', _validate_batches_in_block ex_env ex_B4 "root" s
          = Raised (BlockValidationFailure (InvalidBatch "bad")) s'
      ∧ execution_results (fields s' ex_B4) =
          [{| txn_signature := "a"; txn_is_valid := true |};
           {| txn_signature := "b"; txn_is_valid := true |}]
      ∧ num_transactions (fields s' ex_B4) = 2.
Proof.
  intros s s0 s1.
  assert (Hsched : schedule_batches ex_env ex_B4 "root" s = Return 7 s0)
    by (vm_compute; reflexivity).
  assert (Hfin : finalize_and_complete ex_env 7 s0 = Return tt s1)
    by (vm_compute; reflexivity).
  split; [exact Hsched|]. split; [exact Hfin|].
  destruct (failure_after_completion_keeps_results ex_env ex_B4 "root" s s0 s1 7
              Hsched Hfin) as [Hprefix _].
  destruct (Hprefix [ex_batch "a"; ex_batch "b"] (ex_batch "bad") [])
    as (s' & Hrun & Hresults & Hcount).
  - reflexivity.
  - intros x Hx. apply list_elem_of_In in Hx. simpl in Hx.
    destruct Hx as [<-|[<-|[]]]; eexists; split; vm_compute; reflexivity.
  - vm_compute. exact I.
  - exists s'. split; [exact Hrun|]. rewrite Hresults, Hcount.
    split; vm_compute; reflexivity.
Defined.

(** ** The single block validator *)

Lemma validate_block_status_witness :
  let s := ex_state [ex_B0] [(0, BlockStatus.Valid)] in
  status (fields s ex_B1) ≠ BlockStatus.Valid
  ∧ status (fields s ex_B1) ≠ BlockStatus.Invalid
  ∧ ∃ s', validate_block ex_env ex_B1 s
          = Raised (BlockValidationFailure FailedConsensusValidation) s'
      ∧ status (fields s' ex_B1) = BlockStatus.Invalid.
Proof.
  intros s.
  assert (Hvalid : status (fields s ex_B1) ≠ BlockStatus.Valid)
    by (vm_compute; discriminate).
  assert (Hinvalid : status (fields s ex_B1) ≠ BlockStatus.Invalid)
    by (vm_compute; discriminate).
  split; [exact Hvalid|]. split; [exact Hinvalid|].
  pose proof (validate_block_status ex_env ex_B1 s Hvalid Hinvalid) as Hspec.
  assert (Hbody : validate_block_body ex_env ex_B1 s
    = Raised (BlockValidationFailure FailedConsensusValidation)
        (final_state s (validate_block_body ex_env ex_B1 s)))
    by (vm_compute; reflexivity).
  rewrite Hbody in Hspec. exact Hspec.
Defined.

(** ** The pipeline coordinator *)

(** C1 on the code.  The predecessor "B1" of the submitted block "B2" is
    in the block cache with status Unknown and is neither in [processing]
    nor in [pending]: "B2" is parked (in [pending] and under "B1" in the
    multimap) and, the branch having no [continue], it is also put in
    [processing] and handed to the worker pool. *)
Lemma submit_unknown_predecessor_parks_and_admits :
  let s := ex_state [ex_B0; ex_B1] [(0, BlockStatus.Valid)] in
  block_cache s !! previous_block_id ex_B2 = Some ex_B1
  ∧ status (fields s ex_B1) = BlockStatus.Unknown
  ∧ ∃ s', submit_blocks_for_verification [ex_B2] s = Return tt s'
      ∧ identifier ex_B2 ∈ blocks_pending s'
      ∧ blocks_pending_descendants s' !! previous_block_id ex_B2 = Some [ex_B2]
      ∧ identifier ex_B2 ∈ blocks_processing s'
      ∧ thread_pool s' = [ex_B2].
Proof.
  intros s. split; [vm_compute; reflexivity|]. split; [vm_compute; reflexivity|].
  exists (final_state s (submit_blocks_for_verification [ex_B2] s)).
  split; [vm_compute; reflexivity|].
  split; [apply (bool_decide_unpack _); vm_compute; exact I|].
  split; [vm_compute; reflexivity|].
  split; [apply (bool_decide_unpack _); vm_compute; exact I|].
  vm_compute; reflexivity.
Qed.

(** A block is parked because its predecessor is missing from the block
    cache; the predecessor then appears in the cache as a Valid block and
    the block is submitted again: it is admitted while still parked. *)
Lemma exclusivity_broken_by_resubmission :
  let s0 : State unit := ex_state [] [] in
  let s1 := final_state s0 (submit_blocks_for_verification [ex_B1] s0) in
  let s2 := set_block_cache {[ "B0" := ex_B0 ]}
              (set_heap {[ 0 := ex_fields BlockStatus.Valid ]} s1) in
  let s3 := final_state s2 (submit_blocks_for_verification [ex_B1] s2) in
  exclusive s0
  ∧ submit_blocks_for_verification [ex_B1] s0 = Return tt s1
  ∧ exclusive s1
  ∧ exclusive s2
  ∧ submit_blocks_for_verification [ex_B1] s2 = Return tt s3
  ∧ ¬ exclusive s3.
Proof.
  intros s0 s1 s2 s3. unfold exclusive.
  split; [apply (bool_decide_unpack _); vm_compute; exact I|].
  split; [vm_compute; reflexivity|].
  split; [apply (bool_decide_unpack _); vm_compute; exact I|].
  split; [apply (bool_decide_unpack _); vm_compute; exact I|].
  split; [vm_compute; reflexivity|].
  apply (bool_decide_unpack _); vm_compute; exact I.
Qed.

(** "B1" is in [processing], "B2" is parked under it and "B3" under
    "B2".  "B2" is submitted again together with "B4", whose predecessor
    "B0" is Valid: "B2" is parked again, "B4" is dispatched, and the two
    sets stay disjoint; so they do when the cascade resolver runs on
    "B1". *)
Lemma exclusivity_preserved_witness :
  let s := ex_tracked BlockStatus.Valid in
  exclusive s
  ∧ identifier ex_B2 ∈ blocks_pending s
  ∧ parkable s ex_B2
  ∧ exclusive (final_state s (_release_pending ex_B1 s))
  ∧ ∃ s', submit_blocks_for_verification [ex_B2; ex_B4] s = Return tt s'
      ∧ exclusive s'.
Proof.
  intros s.
  assert (Hexcl : exclusive s)
    by (unfold exclusive; apply (bool_decide_unpack _); vm_compute; exact I).
  assert (Hparkable : parkable s ex_B2)
    by (left; apply (bool_decide_unpack _); vm_compute; exact I).
  split; [exact Hexcl|].
  split; [apply (bool_decide_unpack _); vm_compute; exact I|].
  split; [exact Hparkable|].
  destruct (exclusivity_preserved s Hexcl) as [Hrelease Hsubmit].
  split; [exact (Hrelease ex_B1)|].
  apply (Hsubmit [ex_B2; ex_B4]).
  - intros b Hb Hpending. apply list_elem_of_In in Hb. simpl in Hb.
    destruct Hb as [<-|[<-|[]]]; [exact Hparkable|].
    exfalso. revert Hpending. apply (bool_decide_unpack _); vm_compute; exact I.
  - intros b1 b2 Hb1 Hb2 Heq.
    apply list_elem_of_In in Hb1. apply list_elem_of_In in Hb2. simpl in Hb1, Hb2.
    destruct Hb1 as [<-|[<-|[]]]; destruct Hb2 as [<-|[<-|[]]];
      first [reflexivity | vm_compute in Heq; discriminate].
  - intros b p Hb Hcache Hstatus. apply list_elem_of_In in Hb. simpl in Hb.
    destruct Hb as [<-|[<-|[]]].
    + left. apply (bool_decide_unpack _); vm_compute; exact I.
    + exfalso. vm_compute in Hcache. injection Hcache as <-.
      vm_compute in Hstatus. discriminate.
Defined.

(** ** The cascade resolver *)

Lemma release_pending_invalid_witness :
  let s := ex_tracked BlockStatus.Invalid in
  parked_descendant (blocks_pending_descendants s) (identifier ex_B1) ex_B3
  ∧ ∃ s', _release_pending ex_B1 s = Return [] s'
      ∧ ∀ b, parked_descendant (blocks_pending_descendants s) (identifier ex_B1) b →
          status (fields s' b) = BlockStatus.Invalid
          ∧ (identifier b ∉ blocks_pending s')
          ∧ status_writes (obj b) (new_events s s') = [BlockStatus.Invalid].
Proof.
  intros s. split.
  - apply (parked_grandchild _ _ ex_B2 ex_B3 [ex_B3]).
    + apply (parked_child _ _ ex_B2 [ex_B2]); [vm_compute; reflexivity|].
      apply list_elem_of_here.
    + vm_compute; reflexivity.
    + apply list_elem_of_here.
  - apply (release_pending_invalid (W:=unit) ex_B1 s).
    + vm_compute; reflexivity.
    + apply (bool_decide_unpack _); vm_compute; exact I.
    + apply (bool_decide_unpack _); vm_compute; exact I.
    + apply Forall_forall. apply (bool_decide_unpack _); vm_compute; exact I.
Defined.



(** ** The worker *)



(** ** Further runs *)

(** *** Permission and rule checks *)

(** The only batch of the genesis block is signed by a signer the
    permission verifier refuses; the block passes all the same. *)
Lemma genesis_skips_permissions_and_rules_witness :
  let s := ex_state_moving [] [] in
  block_num ex_genesis = 0
  ∧ is_batch_signer_authorized ex_env_moving (ex_batch "bad") "init" 0 = (Ok false, 0)
  ∧ _validate_permissions ex_env_moving ex_genesis "init" s = Return true s
  ∧ _validate_on_chain_rules ex_env_moving ex_genesis "init" s = Return true s.
Proof.
  intros s. split; [reflexivity|]. split; [reflexivity|].
  apply (genesis_skips_permissions_and_rules ex_env_moving ex_genesis "init" s).
  reflexivity.
Defined.

Lemma permission_check_stops_at_first_refusal_witness :
  let s := ex_state_moving [ex_B0] [(0, BlockStatus.Valid)] in
  let b1 := ex_block 8 "B8" "B0" [ex_batch "a"; ex_batch "bad"] "root" in
  let b2 := ex_block 9 "B9" "B0" [ex_batch "a"; ex_batch "bad"; ex_batch "c"] "root" in
  block_num b2 = block_num b1
  ∧ batches b2 = batches b1 ++ [ex_batch "c"]
  ∧ _validate_permissions ex_env_moving b1 "root" s = Return false s
  ∧ _validate_permissions ex_env_moving b2 "root" s = Return false s.
Proof.
  intros s b1 b2.
  assert (Hrefused : _validate_permissions ex_env_moving b1 "root" s = Return false s)
    by (vm_compute; reflexivity).
  split; [reflexivity|]. split; [reflexivity|]. split; [exact Hrefused|].
  apply (permission_check_stops_at_first_refusal ex_env_moving b1 b2 [ex_batch "c"]
           "root" s s); [reflexivity|reflexivity|exact Hrefused].
Defined.

(** *** The single block validator *)

Lemma decided_block_not_revalidated_witness :
  let s := ex_state [ex_B0] [(0, BlockStatus.Invalid)] in
  status (fields s ex_B0) ≠ BlockStatus.Unknown
  ∧ validate_block ex_env ex_B0 s
    = Raised (BlockValidationFailure AlreadyInvalid) s.
Proof.
  intros s.
  assert (Hdecided : status (fields s ex_B0) ≠ BlockStatus.Unknown)
    by (vm_compute; discriminate).
  split; [exact Hdecided|].
  exact (decided_block_not_revalidated ex_env ex_B0 s Hdecided).
Defined.

Lemma invalid_predecessor_invalidates_witness :
  let s := ex_state [ex_B0] [(0, BlockStatus.Invalid)] in
  status (fields s ex_B1) = BlockStatus.Unknown
  ∧ block_cache s !! previous_block_id ex_B1 = Some ex_B0
  ∧ status (fields s ex_B0) = BlockStatus.Invalid
  ∧ ∃ s', validate_block ex_env ex_B1 s
          = Raised (BlockValidationFailure InvalidPredecessor) s'
      ∧ world s' = world s
      ∧ status (fields s' ex_B1) = BlockStatus.Invalid
      ∧ new_events s s' = [EvSetStatus (obj ex_B1) BlockStatus.Invalid].
Proof.
  intros s.
  split; [vm_compute; reflexivity|]. split; [vm_compute; reflexivity|].
  split; [vm_compute; reflexivity|].
  apply (invalid_predecessor_invalidates ex_env ex_B1 ex_B0 s); vm_compute; reflexivity.
Defined.

Lemma unknown_predecessor_defers_witness :
  let s := ex_state [ex_B0] [] in
  status (fields s ex_B1) = BlockStatus.Unknown
  ∧ block_cache s !! previous_block_id ex_B1 = Some ex_B0
  ∧ status (fields s ex_B0) = BlockStatus.Unknown
  ∧ ∃ s', validate_block ex_env ex_B1 s
          = Raised (BlockValidationError BeforePredecessor) s'
      ∧ world s' = world s
      ∧ status (fields s' ex_B1) = BlockStatus.Unknown
      ∧ new_events s s' = [EvSetStatus (obj ex_B1) BlockStatus.Unknown].
Proof.
  intros s.
  split; [vm_compute; reflexivity|]. split; [vm_compute; reflexivity|].
  split; [vm_compute; reflexivity|].
  apply (unknown_predecessor_defers ex_env ex_B1 ex_B0 s); vm_compute; reflexivity.
Defined.

Lemma missing_predecessor_defers_witness :
  let s : State unit := ex_state [] [] in
  status (fields s ex_B1) = BlockStatus.Unknown
  ∧ block_cache s !! previous_block_id ex_B1 = None
  ∧ previous_block_id ex_B1 ≠ NULL_BLOCK_IDENTIFIER ex_env
  ∧ ∃ s', validate_block ex_env ex_B1 s
          = Raised (BlockValidationError MissingPredecessor) s'
      ∧ world s' = world s
      ∧ status (fields s' ex_B1) = BlockStatus.Unknown
      ∧ new_events s s' = [EvSetStatus (obj ex_B1) BlockStatus.Unknown].
Proof.
  intros s.
  assert (Hnotnull : previous_block_id ex_B1 ≠ NULL_BLOCK_IDENTIFIER ex_env)
    by (vm_compute; discriminate).
  split; [vm_compute; reflexivity|]. split; [vm_compute; reflexivity|].
  split; [exact Hnotnull|].
  apply (missing_predecessor_defers ex_env ex_B1 s);
    [vm_compute; reflexivity|vm_compute; reflexivity|exact Hnotnull].
Defined.

Lemma accepted_block_has_valid_predecessor_witness :
  let s := ex_state [ex_B0] [(0, BlockStatus.Valid)] in
  let s' := final_state s (validate_block ex_env ex_B6 s) in
  status (fields s ex_B6) = BlockStatus.Unknown
  ∧ validate_block ex_env ex_B6 s = Return tt s'
  ∧ block_cache s !! previous_block_id ex_B6 = Some ex_B0
  ∧ status (fields s ex_B0) = BlockStatus.Valid.
Proof.
  intros s s'.
  assert (Hunknown : status (fields s ex_B6) = BlockStatus.Unknown)
    by (vm_compute; reflexivity).
  assert (Hrun : validate_block ex_env ex_B6 s = Return tt s')
    by (vm_compute; reflexivity).
  assert (Hcached : block_cache s !! previous_block_id ex_B6 = Some ex_B0)
    by (vm_compute; reflexivity).
  split; [exact Hunknown|]. split; [exact Hrun|]. split; [exact Hcached|].
  pose proof (accepted_block_has_valid_predecessor ex_env ex_B6 s s' Hunknown Hrun)
    as Hprev.
  rewrite Hcached in Hprev. exact Hprev.
Defined.

(** *** The batch validator *)

Lemma scheduler_fed_in_block_order_witness :
  let s := ex_state [ex_B0] [(0, BlockStatus.Valid)] in
  let s' := final_state s (schedule_batches ex_env ex_B4 "previous" s) in
  schedule_batches ex_env ex_B4 "previous" s = Return 7 s'
  ∧ new_events s s' =
      [EvChainCommitState "B0"; EvCreateScheduler 7 "previous"; EvExecute 7;
       EvAddBatch 7 "a" None; EvAddBatch 7 "b" None; EvAddBatch 7 "bad" (Some "root")].
Proof.
  intros s s'.
  assert (Hrun : schedule_batches ex_env ex_B4 "previous" s = Return 7 s')
    by (vm_compute; reflexivity).
  split; [exact Hrun|].
  exact (scheduler_fed_in_block_order ex_env ex_B4 "previous" s s' 7 Hrun).
Defined.

Lemma batches_accepted_iff_witness :
  let s := ex_state [ex_B0] [(0, BlockStatus.Valid)] in
  let s0 := final_state s (schedule_batches ex_env ex_B6 "previous" s) in
  let s1 := final_state s0 (finalize_and_complete ex_env 7 s0) in
  batches ex_B6 ≠ []
  ∧ schedule_batches ex_env ex_B6 "previous" s = Return 7 s0
  ∧ finalize_and_complete ex_env 7 s0 = Return tt s1
  ∧ ((∃ s', _validate_batches_in_block ex_env ex_B6 "previous" s = Return tt s')
     ↔ ((∀ x, x ∈ batches ex_B6 → batch_valid ex_env 7 (world s1) x)
        ∧ final_state_hash ex_env 7 (world s1) (batches ex_B6) None
          = Some (state_root_hash ex_B6))).
Proof.
  intros s s0 s1.
  assert (Hne : batches ex_B6 ≠ []) by discriminate.
  assert (Hsched : schedule_batches ex_env ex_B6 "previous" s = Return 7 s0)
    by (vm_compute; reflexivity).
  assert (Hfin : finalize_and_complete ex_env 7 s0 = Return tt s1)
    by (vm_compute; reflexivity).
  split; [exact Hne|]. split; [exact Hsched|]. split; [exact Hfin|].
  exact (batches_accepted_iff ex_env ex_B6 "previous" s s0 s1 7 Hne Hsched Hfin).
Defined.

Lemma accepted_block_gains_results_witness :
  let s := ex_state [ex_B0] [(0, BlockStatus.Valid)] in
  let s0 := final_state s (schedule_batches ex_env ex_B6 "previous" s) in
  let s1 := final_state s0 (finalize_and_complete ex_env 7 s0) in
  batches ex_B6 ≠ []
  ∧ schedule_batches ex_env ex_B6 "previous" s = Return 7 s0
  ∧ finalize_and_complete ex_env 7 s0 = Return tt s1
  ∧ ∃ s', _validate_batches_in_block ex_env ex_B6 "previous" s = Return tt s'
      ∧ execution_results (fields s' ex_B6) =
          [{| txn_signature := "a"; txn_is_valid := true |};
           {| txn_signature := "b"; txn_is_valid := true |}]
      ∧ num_transactions (fields s' ex_B6) = 2.
Proof.
  intros s s0 s1.
  assert (Hne : batches ex_B6 ≠ []) by discriminate.
  assert (Hsched : schedule_batches ex_env ex_B6 "previous" s = Return 7 s0)
    by (vm_compute; reflexivity).
  assert (Hfin : finalize_and_complete ex_env 7 s0 = Return tt s1)
    by (vm_compute; reflexivity).
  split; [exact Hne|]. split; [exact Hsched|]. split; [exact Hfin|].
  destruct (accepted_block_gains_results ex_env ex_B6 "previous" s s0 s1 7
              Hne Hsched Hfin) as (s' & Hrun & _ & Hresults & Hcount).
  - intros x Hx. apply list_elem_of_In in Hx. simpl in Hx.
    destruct Hx as [<-|[<-|[]]]; eexists; split; vm_compute; reflexivity.
  - vm_compute; reflexivity.
  - exists s'. split; [exact Hrun|]. rewrite Hresults, Hcount.
    split; vm_compute; reflexivity.
Defined.

Lemma chain_commit_error_is_converted_witness :
  let E := ex_env_of (Exc (ChainCommit DuplicateBatch)) in
  let s := ex_state [ex_B0] [(0, BlockStatus.Valid)] in
  let s' := final_state s (schedule_batches E ex_B4 "previous" s) in
  (∀ sch w, (cancel E sch w).1 = Ok tt)
  ∧ schedule_batches E ex_B4 "previous" s
    = Raised (BlockValidationFailure (FailedValidation DuplicateBatch)) s'
  ∧ ∀ err, BlockValidationFailure (FailedValidation DuplicateBatch) ≠ ChainCommit err.
Proof.
  intros E s s'.
  assert (Hcancel : ∀ sch w, (cancel E sch w).1 = Ok tt) by (intros sch w; reflexivity).
  assert (Hrun : schedule_batches E ex_B4 "previous" s
    = Raised (BlockValidationFailure (FailedValidation DuplicateBatch)) s')
    by (vm_compute; reflexivity).
  split; [exact Hcancel|]. split; [exact Hrun|].
  exact (chain_commit_error_is_converted E ex_B4 "previous" s s' _ Hcancel Hrun).
Defined.

(** *** The coordinator *)

(** "B1" is in [processing] and queued; "B1" and "B4" are submitted: "B1"
    is skipped and "B4", whose predecessor "B0" is Valid, is queued
    behind it. *)
Lemma submission_queues_once_witness :
  let s := set_thread_pool [ex_B1] (ex_tracked BlockStatus.Unknown) in
  queued_ok s
  ∧ ∃ s' new, submit_blocks_for_verification [ex_B1; ex_B4] s = Return tt s'
      ∧ queued_ok s'
      ∧ thread_pool s' = thread_pool s ++ new
      ∧ new `sublist_of` [ex_B1; ex_B4]
      ∧ (∀ x, x ∈ new → identifier x ∉ blocks_processing s).
Proof.
  intros s.
  assert (Hqueued : queued_ok s).
  { split; [apply (bool_decide_unpack _); vm_compute; exact I|].
    apply Forall_forall. apply (bool_decide_unpack _); vm_compute; exact I. }
  split; [exact Hqueued|].
  exact (submission_queues_once [ex_B1; ex_B4] s Hqueued).
Defined.

Lemma submission_keeps_parked_wf_witness :
  let s := ex_tracked BlockStatus.Valid in
  parked_wf s
  ∧ ∃ s', submit_blocks_for_verification [ex_B2; ex_B4] s = Return tt s'
      ∧ parked_wf s'.
Proof.
  intros s.
  assert (Hwf : parked_wf s).
  { intros k l Hk. simpl in Hk.
    apply lookup_insert_Some in Hk as [[<- <-]|[Hne Hk]].
    - split; [apply (bool_decide_unpack _); vm_compute; exact I|].
      intros b Hb. apply list_elem_of_singleton in Hb as ->.
      split; [reflexivity|apply (bool_decide_unpack _); vm_compute; exact I].
    - apply lookup_singleton_Some in Hk as [<- <-].
      split; [apply (bool_decide_unpack _); vm_compute; exact I|].
      intros b Hb. apply list_elem_of_singleton in Hb as ->.
      split; [reflexivity|apply (bool_decide_unpack _); vm_compute; exact I]. }
  split; [exact Hwf|].
  exact (submission_keeps_parked_wf [ex_B2; ex_B4] s Hwf).
Defined.

Lemma submission_dispatches_ready_blocks_witness :
  let s := ex_state [ex_B0] [(0, BlockStatus.Valid)] in
  ∃ s', submit_blocks_for_verification [ex_B1; ex_B4; ex_B5] s = Return tt s'
    ∧ thread_pool s' = [ex_B1; ex_B4; ex_B5]
    ∧ blocks_processing s' =
        list_to_set (identifier <$> [ex_B1; ex_B4; ex_B5]) ∪ blocks_processing s
    ∧ blocks_pending s' = blocks_pending s
    ∧ blocks_pending_descendants s' = blocks_pending_descendants s.
Proof.
  intros s.
  apply (submission_dispatches_ready_blocks [ex_B1; ex_B4; ex_B5] s).
  - apply (bool_decide_unpack _); vm_compute; exact I.
  - intros b Hb. apply list_elem_of_In in Hb. simpl in Hb.
    destruct Hb as [<-|[<-|[<-|[]]]];
      (split; [apply (bool_decide_unpack _); vm_compute; exact I|]);
      (split; [apply (bool_decide_unpack _); vm_compute; exact I|]);
      (split; [apply (bool_decide_unpack _); vm_compute; exact I|]);
      (split; [apply (bool_decide_unpack _); vm_compute; exact I|]);
      exists ex_B0; (split; [vm_compute; reflexivity|vm_compute; discriminate]).
Defined.

Lemma dispatch_refreshes_gauges_witness :
  let s := ex_state [ex_B0] [(0, BlockStatus.Valid)] in
  [ex_B1; ex_B4; ex_B5] ≠ []
  ∧ ∃ s', submit_blocks_for_verification [ex_B1; ex_B4; ex_B5] s = Return tt s'
      ∧ last (trace s') = Some (EvGauges (size (blocks_pending s'))
                                         (size (blocks_processing s'))).
Proof.
  intros s. split; [discriminate|].
  apply (dispatch_refreshes_gauges [ex_B1; ex_B4; ex_B5] s).
  - discriminate.
  - apply (bool_decide_unpack _); vm_compute; exact I.
  - intros b Hb. apply list_elem_of_In in Hb. simpl in Hb.
    destruct Hb as [<-|[<-|[<-|[]]]];
      (split; [apply (bool_decide_unpack _); vm_compute; exact I|]);
      (split; [apply (bool_decide_unpack _); vm_compute; exact I|]);
      (split; [apply (bool_decide_unpack _); vm_compute; exact I|]);
      (split; [apply (bool_decide_unpack _); vm_compute; exact I|]);
      exists ex_B0; (split; [vm_compute; reflexivity|vm_compute; discriminate]).
Defined.

(** "B1" is in [processing]; it is submitted twice more. *)
Lemma resubmission_is_ignored_witness :
  let s := ex_tracked BlockStatus.Unknown in
  (∀ b, b ∈ [ex_B1; ex_B1] → identifier b ∈ blocks_processing s)
  ∧ submit_blocks_for_verification [ex_B1; ex_B1] s
    = Return tt (set_trace (trace s ++ [EvLog LogDebug; EvLog LogDebug]) s).
Proof.
  intros s.
  assert (Hprocessing : ∀ b, b ∈ [ex_B1; ex_B1] → identifier b ∈ blocks_processing s).
  { apply Forall_forall. apply (bool_decide_unpack _); vm_compute; exact I. }
  split; [exact Hprocessing|].
  exact (resubmission_is_ignored [ex_B1; ex_B1] s Hprocessing).
Defined.

(** "B1" is in [processing]; its successor "B2" is submitted. *)
Lemma blocked_block_is_parked_witness :
  let s := ex_state [ex_B0; ex_B1] [(0, BlockStatus.Valid)] in
  let s1 := final_state s (submit_blocks_for_verification [ex_B1] s) in
  (identifier ex_B2 ∉ blocks_processing s1)
  ∧ parkable s1 ex_B2
  ∧ ∃ s', submit_blocks_for_verification [ex_B2] s1 = Return tt s'
      ∧ identifier ex_B2 ∈ blocks_pending s'
      ∧ (∃ l, blocks_pending_descendants s' !! previous_block_id ex_B2 = Some l
              ∧ identifier ex_B2 ∈ identifier <$> l)
      ∧ blocks_processing s' = blocks_processing s1
      ∧ thread_pool s' = thread_pool s1.
Proof.
  intros s s1.
  assert (Hfresh : identifier ex_B2 ∉ blocks_processing s1)
    by (apply (bool_decide_unpack _); vm_compute; exact I).
  assert (Hblocked : parkable s1 ex_B2).
  { left. apply (bool_decide_unpack _); vm_compute; exact I. }
  split; [exact Hfresh|]. split; [exact Hblocked|].
  exact (blocked_block_is_parked ex_B2 s1 Hfresh Hblocked).
Defined.

(** *** The cascade resolver *)

Lemma release_pending_valid_witness :
  let s := ex_tracked BlockStatus.Valid in
  status (fields s ex_B1) = BlockStatus.Valid
  ∧ default [] (blocks_pending_descendants s !! identifier ex_B1) = [ex_B2]
  ∧ ∃ s', _release_pending ex_B1 s = Return [ex_B2] s'
      ∧ blocks_processing s' = blocks_processing s ∖ {[identifier ex_B1]}
      ∧ blocks_pending s' = blocks_pending s ∖ list_to_set (identifier <$> [ex_B2])
      ∧ blocks_pending_descendants s' !! identifier ex_B2 = Some [ex_B3].
Proof.
  intros s.
  assert (Hstatus : status (fields s ex_B1) = BlockStatus.Valid)
    by (vm_compute; reflexivity).
  assert (Hchildren : default [] (blocks_pending_descendants s !! identifier ex_B1)
                      = [ex_B2]) by (vm_compute; reflexivity).
  split; [exact Hstatus|]. split; [exact Hchildren|].
  destruct (release_pending_valid (W:=unit) ex_B1 s Hstatus)
    as (s' & Hrun & _ & _ & _ & _ & Hproc & Hpend & Hmap).
  - rewrite Hchildren. apply (bool_decide_unpack _); vm_compute; exact I.
  - rewrite Hchildren. apply Forall_forall.
    apply (bool_decide_unpack _); vm_compute; exact I.
  - rewrite Hchildren in Hrun, Hpend. exists s'.
    split; [exact Hrun|]. split; [exact Hproc|]. split; [exact Hpend|].
    rewrite Hmap. vm_compute; reflexivity.
Defined.

Lemma valid_block_releases_its_children_witness :
  let s := ex_tracked BlockStatus.Valid in
  exclusive s ∧ parked_wf s
  ∧ status (fields s ex_B1) = BlockStatus.Valid
  ∧ block_cache s !! identifier ex_B1 = Some ex_B1
  ∧ (identifier ex_B1 ∉ blocks_pending s)
  ∧ default [] (blocks_pending_descendants s !! identifier ex_B1) = [ex_B2]
  ∧ ∃ s', (blocks_now_ready ← _release_pending ex_B1;
           submit_blocks_for_verification blocks_now_ready) s = Return tt s'
      ∧ thread_pool s' = thread_pool s ++ [ex_B2]
      ∧ identifier ex_B2 ∈ blocks_processing s'
      ∧ (identifier ex_B2 ∉ blocks_pending s').
Proof.
  intros s.
  assert (Hexcl : exclusive s)
    by (unfold exclusive; apply (bool_decide_unpack _); vm_compute; exact I).
  assert (Hwf : parked_wf s).
  { intros k l Hk. simpl in Hk.
    apply lookup_insert_Some in Hk as [[<- <-]|[Hne Hk]].
    - split; [apply (bool_decide_unpack _); vm_compute; exact I|].
      intros b Hb. apply list_elem_of_singleton in Hb as ->.
      split; [reflexivity|apply (bool_decide_unpack _); vm_compute; exact I].
    - apply lookup_singleton_Some in Hk as [<- <-].
      split; [apply (bool_decide_unpack _); vm_compute; exact I|].
      intros b Hb. apply list_elem_of_singleton in Hb as ->.
      split; [reflexivity|apply (bool_decide_unpack _); vm_compute; exact I]. }
  assert (Hstatus : status (fields s ex_B1) = BlockStatus.Valid)
    by (vm_compute; reflexivity).
  assert (Hcached : block_cache s !! identifier ex_B1 = Some ex_B1)
    by (vm_compute; reflexivity).
  assert (Hnotpending : identifier ex_B1 ∉ blocks_pending s)
    by (apply (bool_decide_unpack _); vm_compute; exact I).
  assert (Hchildren : default [] (blocks_pending_descendants s !! identifier ex_B1)
                      = [ex_B2]) by (vm_compute; reflexivity).
  split; [exact Hexcl|]. split; [exact Hwf|]. split; [exact Hstatus|].
  split; [exact Hcached|]. split; [exact Hnotpending|]. split; [exact Hchildren|].
  destruct (valid_block_releases_its_children (W:=unit) ex_B1 s Hexcl Hwf Hstatus
              Hcached Hnotpending) as (s' & Hrun & Hqueue & Hdispatched & _).
  rewrite Hchildren in Hqueue, Hdispatched.
  exists s'. split; [exact Hrun|]. split; [exact Hqueue|].
  apply Hdispatched. apply list_elem_of_here.
Defined.

(** *** The worker *)

(** "B1" is queued with "B2" parked under it and "B3" under "B2"; the
    worker runs the job of "B1". *)
Lemma worker_keeps_queue_witness :
  let s := set_thread_pool [ex_B1] (ex_tracked BlockStatus.Unknown) in
  queued_ok s
  ∧ run_next_job ex_env 1 s = Return tt (final_state s (run_next_job ex_env 1 s))
  ∧ queued_ok (final_state s (run_next_job ex_env 1 s)).
Proof.
  intros s.
  assert (Hqueued : queued_ok s).
  { split; [apply (bool_decide_unpack _); vm_compute; exact I|].
    apply Forall_forall. apply (bool_decide_unpack _); vm_compute; exact I. }
  split; [exact Hqueued|]. split; [vm_compute; reflexivity|].
  exact (worker_keeps_queue ex_env 1 s Hqueued).
Defined.

(** The block "B6" is validated while the chain head moves from "B0" to
    "B1": it is found Valid, put back to Unknown and validated again with
    the two transaction results of the first validation still on it. *)
Lemma moved_chain_head_revalidates_witness :
  let E := ex_env_moving in
  let s := ex_state_moving [ex_B0] [(0, BlockStatus.Valid)] in
  let s1 := final_state s (read_chain_head E s) in
  let s2 := final_state s1 (validate_and_log E ex_B6 s1) in
  let s3 := final_state s2 (read_chain_head E s2) in
  read_chain_head E s = Return (Some ex_B0) s1
  ∧ validate_and_log E ex_B6 s1 = Return tt s2
  ∧ status (fields s2 ex_B6) = BlockStatus.Valid
  ∧ read_chain_head E s2 = Return (Some ex_B1) s3
  ∧ identifier ex_B0 ≠ identifier ex_B1
  ∧ ∃ s4, validation_loop E 2 ex_B6 s = validation_loop E 1 ex_B6 s4
      ∧ status (fields s4 ex_B6) = BlockStatus.Unknown
      ∧ execution_results (fields s4 ex_B6) =
          [{| txn_signature := "a"; txn_is_valid := true |};
           {| txn_signature := "b"; txn_is_valid := true |}]
      ∧ num_transactions (fields s4 ex_B6) = 2.
Proof.
  intros E s s1 s2 s3.
  assert (Hhead : read_chain_head E s = Return (Some ex_B0) s1)
    by (vm_compute; reflexivity).
  assert (Hvalidated : validate_and_log E ex_B6 s1 = Return tt s2)
    by (vm_compute; reflexivity).
  assert (Hcurrent : read_chain_head E s2 = Return (Some ex_B1) s3)
    by (vm_compute; reflexivity).
  assert (Hmoved : identifier ex_B0 ≠ identifier ex_B1) by (vm_compute; discriminate).
  split; [exact Hhead|]. split; [exact Hvalidated|].
  split; [vm_compute; reflexivity|]. split; [exact Hcurrent|]. split; [exact Hmoved|].
  destruct (moved_chain_head_revalidates E 1 ex_B6 ex_B0 ex_B1 s s1 s2 s3
              Hhead Hvalidated Hcurrent Hmoved)
    as (s4 & Hloop & _ & Hstatus & Hresults & Hcount).
  exists s4. split; [exact Hloop|]. split; [exact Hstatus|].
  rewrite Hresults, Hcount. split; vm_compute; reflexivity.
Defined.

(** The block "B6" is being validated when the chain head vanishes: the
    job ends with the [AttributeError] and "B6" stays in [processing]. *)
Lemma job_exception_is_attribute_error_witness :
  let E := ex_env_vanishing in
  let s := set_blocks_processing {[ "B6" ]}
             (ex_state_moving [ex_B0] [(0, BlockStatus.Valid)]) in
  let s' := final_state s (process_block_verification E 1 ex_B6 s) in
  process_block_verification E 1 ex_B6 s = Raised AttributeError s'
  ∧ same_trackers s s'
  ∧ identifier ex_B6 ∈ blocks_processing s'.
Proof.
  intros E s s'.
  assert (Hrun : process_block_verification E 1 ex_B6 s = Raised AttributeError s')
    by (vm_compute; reflexivity).
  split; [exact Hrun|].
  destruct (job_exception_is_attribute_error E 1 ex_B6 s s' _ Hrun)
    as [[_ Hsame]|[s1 Hcall]]; [|vm_compute in Hcall; discriminate].
  split; [exact Hsame|].
  destruct Hsame as (_ & -> & _). apply (bool_decide_unpack _); vm_compute; exact I.
Defined.
